(** * The 2D sandbox world engine, embedded in Rocq

    The repository holds two variants of the game script: the "stable"
    script (the IIFE with the error overlay, the 32-bit hash,
    [floorDiv]/[mod], [LOAD_RADIUS = 4]) and [script.js] (the BigInt
    hash, [LOAD_RADIUS = 3]).  What the two share (chunk store, tile
    access, collision, survival, interaction) is embedded once, in
    [Section Engine], over the chunk generator and the load radius;
    [Module Stable] and [Module Script] hold what differs.  The saving
    code of the stable script follows the engine, and [Module First]
    holds the cursor of the first version of the game, a fixed grid.

    Number model.  JS numbers that are integers by construction (tile
    and chunk coordinates, block ids, counts, hash words) are [Z];
    where an integer computation can leave the 53-bit range of a double
    the IEEE rounding is written out ([Js.roundD]).  Numbers with a
    fractional part (pixel positions, velocities, noise values, timers,
    vitals) are exact rationals [Q].

    Layout: the scripts' definitions, then the vocabulary of the
    properties, then the properties. *)

From Stdlib Require Import ZArith QArith Qround Qabs Lia Lqa Bool List String.
From stdpp Require Import base option list gmap.

Local Open Scope Z_scope.
Set Warnings "-clear-no-such-hyp".

(** ** A small model of the JS operations the scripts use *)

Module Js.

(** What can go wrong at run time.  [Unmodelled] marks an array access
    whose JS behaviour (a hole read as [undefined], an array grown by a
    write past its end) the embedding does not follow. *)
Inductive failure : Type := TypeError | RangeError | Unmodelled.

Inductive result (A : Type) : Type :=
| Value (a : A)
| Raise (e : failure).
Arguments Value {A} a.
Arguments Raise {A} e.

Definition rbind {A B} (r : result A) (k : A -> result B) : result B :=
  match r with
  | Value a => k a
  | Raise e => Raise e
  end.

(** *** Doubles holding integers

    [roundD z] is the integer nearest to [z] with a 53-bit significand,
    ties to even: the value a double holds after an operation whose
    exact result is [z].  [fl] adds the overflow to an infinity; the
    non-finite doubles (the infinities and NaN) are all [None], which
    is exact for the uses below, where they only flow into further
    additions (staying non-finite) and into [ToInt32] (giving 0). *)
Definition roundD (z : Z) : Z :=
  let a := Z.abs z in
  let e := Z.log2 a - 52 in
  if e <=? 0 then z
  else
    let q := Z.shiftr a e in
    let r := a - Z.shiftl q e in
    let half := Z.shiftl 1 (e - 1) in
    let q' := if r <? half then q
              else if half <? r then q + 1
              else if Z.even q then q else q + 1 in
    Z.sgn z * Z.shiftl q' e.

Definition fl (z : Z) : option Z :=
  let r := roundD z in
  if Z.abs r <? 2 ^ 1024 then Some r else None.

Definition fmul (a b : option Z) : option Z :=
  match a, b with
  | Some x, Some y => fl (x * y)
  | _, _ => None
  end.

Definition fadd (a b : option Z) : option Z :=
  match a, b with
  | Some x, Some y => fl (x + y)
  | _, _ => None
  end.

(** *** 32-bit conversions and bit operators *)
Definition ToUint32 (n : option Z) : Z :=
  match n with
  | Some z => z mod 2 ^ 32
  | None => 0
  end.

Definition ToInt32 (n : option Z) : Z :=
  let u := ToUint32 n in
  if u <? 2 ^ 31 then u else u - 2 ^ 32.

(** [a ^ b] *)
Definition xor32 (a b : Z) : Z :=
  ToInt32 (Some (Z.lxor (ToInt32 (Some a)) (ToInt32 (Some b)))).

(** [a >>> k] *)
Definition ushr32 (a k : Z) : Z :=
  Z.shiftr (ToUint32 (Some a)) (k mod 32).

(** [a | 0] *)
Definition or0 (a : option Z) : Z := ToInt32 a.

(** *** Values of [script.js]'s hash: Numbers and BigInts *)
Inductive value : Type :=
| Num (d : option Z)
| Big (z : Z).

(** [a * b] and [a + b]: the operands must have the same numeric type. *)
Definition mul (a b : value) : result value :=
  match a, b with
  | Num x, Num y => Value (Num (fmul x y))
  | Big x, Big y => Value (Big (x * y))
  | _, _ => Raise TypeError
  end.

Definition add (a b : value) : result value :=
  match a, b with
  | Num x, Num y => Value (Num (fadd x y))
  | Big x, Big y => Value (Big (x + y))
  | _, _ => Raise TypeError
  end.

(** [BigInt(v)] *)
Definition BigInt (v : value) : result value :=
  match v with
  | Num (Some z) => Value (Big z)
  | Num None => Raise RangeError
  | Big z => Value (Big z)
  end.

(** [BigInt.asUintN(bits, v)] *)
Definition asUintN (bits : Z) (v : value) : result value :=
  match v with
  | Big z => Value (Big (z mod 2 ^ bits))
  | Num _ => Raise TypeError
  end.

(** The BigInt operators [a ^ b], [a >> b], [a << b], [a & b]. *)
Definition big2 (f : Z -> Z -> Z) (a b : value) : result value :=
  match a, b with
  | Big x, Big y => Value (Big (f x y))
  | _, _ => Raise TypeError
  end.

(** [Number(v)] *)
Definition Number (v : value) : option Z :=
  match v with
  | Num d => d
  | Big z => fl z
  end.

(** *** Integer and rational helpers *)

(** [Math.floor(a / b)] on integers (exact for the power-of-two [b]
    the scripts use). *)
Definition floor_quot (a b : Z) : Z := a / b.

(** [a % b]: the remainder takes the sign of the dividend. *)
Definition rem (a b : Z) : Z := Z.rem a b.

(** [Math.floor] *)
Definition floor (q : Q) : Z := Qfloor q.

(** [Math.sign] *)
Definition sign (q : Q) : Q :=
  if Qlt_le_dec 0 q then 1%Q
  else if Qlt_le_dec q 0 then (-1)%Q
  else 0%Q.

(** [a || b] on numbers: [a] unless it is zero. *)
Definition or_else (a b : Q) : Q :=
  if Qeq_bool a 0 then b else a.

(** [Math.max], [Math.min] *)
Definition max (a b : Q) : Q := if Qlt_le_dec a b then b else a.
Definition min (a b : Q) : Q := if Qlt_le_dec b a then b else a.

(** [a < b], [a <= b], [a > b], [a >= b], [a === b] on numbers *)
Definition lt (a b : Q) : bool := if Qlt_le_dec a b then true else false.
Definition le (a b : Q) : bool := Qle_bool a b.
Definition gt (a b : Q) : bool := lt b a.
Definition ge (a b : Q) : bool := le b a.
Definition eq (a b : Q) : bool := Qeq_bool a b.

End Js.

#[global] Instance result_ret : MRet Js.result := fun A a => Js.Value a.
#[global] Instance result_bind : MBind Js.result := fun A B k r => Js.rbind r k.

(** ** Constants *)

Definition TILE : Z := 32.
Definition CHUNK_W : Z := 32.
Definition WORLD_H : Z := 80.
Definition REACH : Z := 5 * TILE.

(** ** Blocks *)

Module BLOCK.
Definition AIR : Z := 0.
Definition GRASS : Z := 1.
Definition DIRT : Z := 2.
Definition STONE : Z := 3.
Definition LOG : Z := 4.
Definition LEAVES : Z := 5.
Definition COAL : Z := 6.
Definition IRON : Z := 7.
End BLOCK.

Record BlockInfo : Type := { name : string; solid : bool }.

Definition BLOCK_INFO (id : Z) : option BlockInfo :=
  if id =? BLOCK.AIR then Some {| name := "Air"; solid := false |}
  else if id =? BLOCK.GRASS then Some {| name := "Grass"; solid := true |}
  else if id =? BLOCK.DIRT then Some {| name := "Dirt"; solid := true |}
  else if id =? BLOCK.STONE then Some {| name := "Stone"; solid := true |}
  else if id =? BLOCK.LOG then Some {| name := "Log"; solid := true |}
  else if id =? BLOCK.LEAVES then Some {| name := "Leaves"; solid := true |}
  else if id =? BLOCK.COAL then Some {| name := "Coal"; solid := true |}
  else if id =? BLOCK.IRON then Some {| name := "Iron"; solid := true |}
  else None.

Definition isSolid (id : Z) : bool :=
  match BLOCK_INFO id with
  | Some info => solid info
  | None => false
  end.

(** ** Chunk grids

    A chunk is the array of [WORLD_H] rows of [CHUNK_W] block ids that
    [generateChunk] allocates; [data[y][x]] is row [y], column [x]. *)

Abbreviation Chunk := (list (list Z)).

(** [data[y][x]].  A missing row makes JS raise a TypeError. *)
Definition grid_get (d : Chunk) (y x : Z) : Js.result Z :=
  if y <? 0 then Js.Raise Js.TypeError
  else match d !! Z.to_nat y with
       | None => Js.Raise Js.TypeError
       | Some row =>
           if x <? 0 then Js.Raise Js.Unmodelled
           else match row !! Z.to_nat x with
                | Some b => Js.Value b
                | None => Js.Raise Js.Unmodelled
                end
       end.

(** [data[y][x] = v] *)
Definition grid_set (d : Chunk) (y x v : Z) : Js.result Chunk :=
  if y <? 0 then Js.Raise Js.TypeError
  else match d !! Z.to_nat y with
       | None => Js.Raise Js.TypeError
       | Some row =>
           if (x <? 0) || (Z.of_nat (length row) <=? x) then Js.Raise Js.Unmodelled
           else Js.Value (<[Z.to_nat y := <[Z.to_nat x := v]> row]> d)
       end.

(** [for (let i = lo; i < hi; i++) body] over a threaded value. *)
Definition for_range {A} (lo hi : Z) (body : Z -> A -> Js.result A) (a : A) : Js.result A :=
  foldl (fun acc i => a' ← acc; body i a') (Js.Value a) (seqZ lo (hi - lo)).

(** ** The stable script: seeded noise and chunk generation *)

Module Stable.

Definition LOAD_RADIUS : Z := 4.

Definition SEED : Z := 1337.

(** The 32-bit word of [hash2D], before the division. *)
Definition hash2D_word (x y : Z) : Z :=
  let n := Js.or0 (Js.fadd (Js.fadd (Js.fmul (Some x) (Some 374761393))
                                     (Js.fmul (Some y) (Some 668265263)))
                            (Js.fmul (Some SEED) (Some 1442695041))) in
  let n := Js.or0 (Some (Js.xor32 n (Js.ushr32 n 13))) in
  let n := Js.or0 (Js.fmul (Some n) (Some 1274126177)) in
  Js.ushr32 (Js.xor32 n (Js.ushr32 n 16)) 0.

Definition hash2D (x y : Z) : Q :=
  (inject_Z (hash2D_word x y) / 4294967296)%Q.

Definition smoothstep (t : Q) : Q := (t * t * (3 - 2 * t))%Q.

Definition lerp (a b t : Q) : Q := (a + (b - a) * t)%Q.

Definition noise1D (x : Q) : Q :=
  let x0 := Js.floor x in
  let x1 := x0 + 1 in
  let t := smoothstep (x - inject_Z x0)%Q in
  let v0 := hash2D x0 0 in
  let v1 := hash2D x1 0 in
  lerp v0 v1 t.

Definition noise2D (x y : Q) : Q :=
  let x0 := Js.floor x in
  let y0 := Js.floor y in
  let x1 := x0 + 1 in
  let y1 := y0 + 1 in
  let tx := smoothstep (x - inject_Z x0)%Q in
  let ty := smoothstep (y - inject_Z y0)%Q in
  let v00 := hash2D x0 y0 in
  let v10 := hash2D x1 y0 in
  let v01 := hash2D x0 y1 in
  let v11 := hash2D x1 y1 in
  lerp (lerp v00 v10 tx) (lerp v01 v11 tx) ty.

(** Modelled from the spec: [clampInt] is called by [generateChunk] but
    defined outside the available source; the spec has the ground height
    "clamped to a valid row range strictly inside [0, WORLD_H)". *)
Definition clampInt (v lo hi : Z) : Z := Z.max lo (Z.min hi v).

(** The trunk loop of [placeTree], with its [break]. *)
Fixpoint placeTrunk (chunkData : Chunk) (lx baseY : Z) (steps : list Z) : Js.result Chunk :=
  match steps with
  | [] => Js.Value chunkData
  | i :: steps' =>
      let y := baseY - i in
      if y <? 0 then Js.Value chunkData
      else
        b ← grid_get chunkData y lx;
        chunkData' ← (if b =? BLOCK.AIR then grid_set chunkData y lx BLOCK.LOG
                      else Js.Value chunkData);
        placeTrunk chunkData' lx baseY steps'
  end.

Definition placeLeaf (lx topY dy dx : Z) (chunkData : Chunk) : Js.result Chunk :=
  let y := topY + dy in
  let x := lx + dx in
  if (y <? 0) || (WORLD_H <=? y) then Js.Value chunkData
  else if (x <? 0) || (CHUNK_W <=? x) then Js.Value chunkData
  else
    let dist := Z.abs dx + Z.abs dy in
    if dist <=? 3 then
      b ← grid_get chunkData y x;
      if b =? BLOCK.AIR then grid_set chunkData y x BLOCK.LEAVES
      else Js.Value chunkData
    else Js.Value chunkData.

Definition placeTree (chunkData : Chunk) (lx baseY wx : Z) : Js.result Chunk :=
  let height := 4 + Js.floor (noise1D (inject_Z wx * 0.9) * 3)%Q in
  chunkData ← placeTrunk chunkData lx baseY (seqZ 0 height);
  let topY := baseY - (height - 1) in
  for_range (-2) 3 (fun dy => for_range (-2) 3 (fun dx => placeLeaf lx topY dy dx)) chunkData.

Definition fillGround (lx groundY y : Z) (data : Chunk) : Js.result Chunk :=
  if y =? groundY then grid_set data y lx BLOCK.GRASS
  else if y <? groundY + 4 then grid_set data y lx BLOCK.DIRT
  else grid_set data y lx BLOCK.STONE.

Definition carveCave (lx wx y : Z) (data : Chunk) : Js.result Chunk :=
  let n := noise2D (inject_Z wx * 0.12)%Q (inject_Z y * 0.12)%Q in
  if Js.gt n 0.70 then grid_set data y lx BLOCK.AIR else Js.Value data.

Definition placeOre (lx wx y : Z) (data : Chunk) : Js.result Chunk :=
  b ← grid_get data y lx;
  if negb (b =? BLOCK.STONE) then Js.Value data
  else
    let n := noise2D (inject_Z wx * 0.18)%Q (inject_Z y * 0.18)%Q in
    data ← (if Js.gt n 0.82 then grid_set data y lx BLOCK.COAL else Js.Value data);
    if (50 <? y) && Js.gt n 0.88 then grid_set data y lx BLOCK.IRON else Js.Value data.

Definition groundLevel (wx : Z) : Z :=
  let h1 := (noise1D (inject_Z wx * 0.06) * 8)%Q in
  let h2 := (noise1D (inject_Z wx * 0.012) * 18)%Q in
  clampInt (Js.floor (35 + h1 + h2)%Q) 10 (WORLD_H - 2).

(** The body of [generateChunk]'s loop over the local column [lx]. *)
Definition generateColumn (cx lx : Z) (data : Chunk) : Js.result Chunk :=
  let wx := cx * CHUNK_W + lx in
  let groundY := groundLevel wx in
  data ← for_range groundY WORLD_H (fillGround lx groundY) data;
  data ← for_range (groundY + 4) WORLD_H (carveCave lx wx) data;
  data ← for_range (groundY + 6) WORLD_H (placeOre lx wx) data;
  let treeChance := noise1D (inject_Z wx * 0.2)%Q in
  if Js.gt treeChance 0.86 then
    b ← grid_get data groundY lx;
    if b =? BLOCK.GRASS then placeTree data lx (groundY - 1) wx
    else Js.Value data
  else Js.Value data.

Definition generateChunk (cx : Z) : Js.result Chunk :=
  let data := replicate (Z.to_nat WORLD_H) (replicate (Z.to_nat CHUNK_W) BLOCK.AIR) in
  for_range 0 CHUNK_W (generateColumn cx) data.

End Stable.

(** ** The simulation state

    The scripts keep their state in globals: the chunk map, the player,
    the hotbar, the selected slot, the camera and the hunger timer.
    [entropy] lists the outcomes [Math.random] will produce, [drawn]
    counts the draws made. *)

Module Player.
Record t : Type := mk {
  x : Q; y : Q; w : Q; h : Q; vx : Q; vy : Q; onGround : bool;
  maxHealth : Q; health : Q; maxHunger : Q; hunger : Q }.

Definition with_x (v : Q) (p : t) : t :=
  mk v (y p) (w p) (h p) (vx p) (vy p) (onGround p) (maxHealth p) (health p) (maxHunger p) (hunger p).
Definition with_y (v : Q) (p : t) : t :=
  mk (x p) v (w p) (h p) (vx p) (vy p) (onGround p) (maxHealth p) (health p) (maxHunger p) (hunger p).
Definition with_vx (v : Q) (p : t) : t :=
  mk (x p) (y p) (w p) (h p) v (vy p) (onGround p) (maxHealth p) (health p) (maxHunger p) (hunger p).
Definition with_vy (v : Q) (p : t) : t :=
  mk (x p) (y p) (w p) (h p) (vx p) v (onGround p) (maxHealth p) (health p) (maxHunger p) (hunger p).
Definition with_onGround (b : bool) (p : t) : t :=
  mk (x p) (y p) (w p) (h p) (vx p) (vy p) b (maxHealth p) (health p) (maxHunger p) (hunger p).
Definition with_health (v : Q) (p : t) : t :=
  mk (x p) (y p) (w p) (h p) (vx p) (vy p) (onGround p) (maxHealth p) v (maxHunger p) (hunger p).
Definition with_hunger (v : Q) (p : t) : t :=
  mk (x p) (y p) (w p) (h p) (vx p) (vy p) (onGround p) (maxHealth p) (health p) (maxHunger p) v.
End Player.

Module Camera.
Record t : Type := mk { x : Q; y : Q }.
End Camera.

Record Slot : Type := { block : Z; count : Z }.

Record World : Type := mkWorld {
  chunks : gmap Z Chunk;
  player : Player.t;
  hotbar : list Slot;
  selectedSlot : Z;
  camera : Camera.t;
  hungerTimer : Q;
  entropy : nat -> Q;
  drawn : nat }.

Definition with_chunks (m : gmap Z Chunk) (s : World) : World :=
  mkWorld m (player s) (hotbar s) (selectedSlot s) (camera s) (hungerTimer s) (entropy s) (drawn s).
Definition with_player (p : Player.t) (s : World) : World :=
  mkWorld (chunks s) p (hotbar s) (selectedSlot s) (camera s) (hungerTimer s) (entropy s) (drawn s).
Definition with_hotbar (hb : list Slot) (s : World) : World :=
  mkWorld (chunks s) (player s) hb (selectedSlot s) (camera s) (hungerTimer s) (entropy s) (drawn s).
Definition with_hungerTimer (t : Q) (s : World) : World :=
  mkWorld (chunks s) (player s) (hotbar s) (selectedSlot s) (camera s) t (entropy s) (drawn s).
Definition with_drawn (n : nat) (s : World) : World :=
  mkWorld (chunks s) (player s) (hotbar s) (selectedSlot s) (camera s) (hungerTimer s) (entropy s) n.

(** A run of a script function from a state: it returns a value and the
    new state, raises, or is still looping when the fuel is spent. *)
Inductive outcome (A : Type) : Type :=
| Ok (a : A) (s : World)
| Throw (e : Js.failure)
| OutOfFuel.
Arguments Ok {A} a s.
Arguments Throw {A} e.
Arguments OutOfFuel {A}.

Definition M (A : Type) : Type := World -> outcome A.

#[global] Instance M_ret : MRet M := fun A a s => Ok a s.
#[global] Instance M_bind : MBind M := fun A B k m s =>
  match m s with
  | Ok a s' => k a s'
  | Throw e => Throw e
  | OutOfFuel => OutOfFuel
  end.

Definition get : M World := fun s => Ok s s.
Definition modify (f : World -> World) : M unit := fun s => Ok tt (f s).
Definition modify_player (f : Player.t -> Player.t) : M unit :=
  modify (fun s => with_player (f (player s)) s).
Definition liftR {A} (r : Js.result A) : M A := fun s =>
  match r with
  | Js.Value a => Ok a s
  | Js.Raise e => Throw e
  end.

(** [while (cond) body], run for at most [fuel] tests of the condition. *)
Fixpoint while (fuel : nat) (cond : M bool) (body : M unit) : M unit :=
  match fuel with
  | O => fun _ => OutOfFuel
  | S n => b ← cond; if b : bool then body;; while n cond body else mret tt
  end.

(** [Math.random()] *)
Definition Math_random : M Q := fun s => Ok (entropy s (drawn s)) (with_drawn (S (drawn s)) s).

(** ** The world engine

    The functions below are the same in both scripts up to the chunk
    generator and the load radius they refer to, which are the section's
    variables. *)

Section Engine.

Variable generateChunk : Z -> Js.result Chunk.
Variable LOAD_RADIUS : Z.

(** *** Chunk store *)

Definition getChunk (cx : Z) : M Chunk := fun s =>
  match chunks s !! cx with
  | Some c => Ok c s
  | None =>
      match generateChunk cx with
      | Js.Value c => Ok c (with_chunks (<[cx := c]> (chunks s)) s)
      | Js.Raise e => Throw e
      end
  end.

(** *** Tile helpers *)

Definition floorDiv (a b : Z) : Z := Js.floor_quot a b.

Definition mod_ (a b : Z) : Z := Js.rem (Js.rem a b + b) b.

Definition getBlock (tx ty : Z) : M Z :=
  if (ty <? 0) || (WORLD_H <=? ty) then mret BLOCK.AIR
  else
    let cx := floorDiv tx CHUNK_W in
    let lx := mod_ tx CHUNK_W in
    chunk ← getChunk cx;
    liftR (grid_get chunk ty lx).

(** The chunk written is the one the map holds under [cx]. *)
Definition setBlock (tx ty id : Z) : M unit :=
  if (ty <? 0) || (WORLD_H <=? ty) then mret tt
  else
    let cx := floorDiv tx CHUNK_W in
    let lx := mod_ tx CHUNK_W in
    chunk ← getChunk cx;
    chunk' ← liftR (grid_set chunk ty lx id);
    modify (fun s => with_chunks (<[cx := chunk']> (chunks s)) s).

Definition worldToTile (px py : Q) : Z * Z :=
  (Js.floor (px / inject_Z TILE)%Q, Js.floor (py / inject_Z TILE)%Q).

(** *** Chunk loading *)

Fixpoint loadAll (keys : list Z) : M unit :=
  match keys with
  | [] => mret tt
  | cx :: keys' => getChunk cx;; loadAll keys'
  end.

(** The unload loop: every key of the map is visited once, and deleted
    when it is farther than [LOAD_RADIUS + 2] from the player's chunk. *)
Definition unloadFar (playerChunkX : Z) (m : gmap Z Chunk) : gmap Z Chunk :=
  filter (fun kv => ¬ (LOAD_RADIUS + 2 < Z.abs (kv.1 - playerChunkX))) m.

Definition ensureChunksLoaded : M unit :=
  s ← get;
  let playerTileX := Js.floor (Player.x (player s) / inject_Z TILE)%Q in
  let playerChunkX := floorDiv playerTileX CHUNK_W in
  loadAll (seqZ (playerChunkX - LOAD_RADIUS) (2 * LOAD_RADIUS + 1));;
  modify (fun s => with_chunks (unloadFar playerChunkX (chunks s)) s).

(** *** Collision *)

(** The two nested loops of [rectHitsWorld], leaving at the first solid tile. *)
Fixpoint anyTile (f : Z -> M bool) (l : list Z) : M bool :=
  match l with
  | [] => mret false
  | a :: l' => b ← f a; if b : bool then mret true else anyTile f l'
  end.

Definition rectHitsWorld (px py pw ph : Q) : M bool :=
  let left := Js.floor (px / inject_Z TILE)%Q in
  let right := Js.floor ((px + pw - 1) / inject_Z TILE)%Q in
  let top := Js.floor (py / inject_Z TILE)%Q in
  let bottom := Js.floor ((py + ph - 1) / inject_Z TILE)%Q in
  anyTile (fun ty =>
    anyTile (fun tx => b ← getBlock tx ty; mret (isSolid b))
            (seqZ left (right - left + 1)))
    (seqZ top (bottom - top + 1)).

(** [rectHitsWorld(player.x, player.y, player.w, player.h)] *)
Definition playerHitsWorld : M bool :=
  s ← get;
  let p := player s in
  rectHitsWorld (Player.x p) (Player.y p) (Player.w p) (Player.h p).

(** [moveAndCollide], the retreat step being computed from the velocity
    by [stepOf]. *)
Definition moveAndCollideWith (stepOf : Q -> Q) (fuel : nat) : M unit :=
  modify_player (fun p => Player.with_x (Player.x p + Player.vx p)%Q p);;
  hit ← playerHitsWorld;
  (if hit : bool then
     s ← get;
     let step := stepOf (Player.vx (player s)) in
     while fuel playerHitsWorld
       (modify_player (fun p => Player.with_x (Player.x p - step)%Q p));;
     modify_player (Player.with_vx 0)
   else mret tt);;
  modify_player (fun p => Player.with_y (Player.y p + Player.vy p)%Q p);;
  modify_player (Player.with_onGround false);;
  hit ← playerHitsWorld;
  if hit : bool then
    s ← get;
    let step := stepOf (Player.vy (player s)) in
    while fuel playerHitsWorld
      (modify_player (fun p => Player.with_y (Player.y p - step)%Q p));;
    (if Js.gt step 0 then modify_player (Player.with_onGround true) else mret tt);;
    modify_player (Player.with_vy 0)
  else mret tt.

(** The stable script: [Math.sign(v) || 1]. *)
Definition moveAndCollide : nat -> M unit :=
  moveAndCollideWith (fun v => Js.or_else (Js.sign v) 1).

(** *** Survival *)

Definition respawn : M unit :=
  modify_player (fun p => Player.with_health (Player.maxHealth p) p);;
  modify_player (fun p => Player.with_hunger (Player.maxHunger p) p);;
  modify_player (Player.with_x (2 * inject_Z TILE)%Q);;
  modify_player (Player.with_y (10 * inject_Z TILE)%Q);;
  modify_player (Player.with_vx 0);;
  modify_player (Player.with_vy 0).

Definition updateSurvival (dt : Q) : M unit :=
  s ← get;
  let moving := Js.gt (Qabs (Player.vx (player s))) 0.2 in
  modify (fun s => with_hungerTimer (hungerTimer s + dt * (if moving then 1.4 else 1.0))%Q s);;
  s ← get;
  (if Js.gt (hungerTimer s) 4.0 then
     modify (with_hungerTimer 0);;
     modify_player (fun p => Player.with_hunger (Js.max 0 (Player.hunger p - 1)%Q) p)
   else mret tt);;
  s ← get;
  (if Js.ge (Player.hunger (player s)) 16 && Js.lt (Player.health (player s)) (Player.maxHealth (player s)) then
     r ← Math_random;
     if Js.lt r 0.02 then
       modify_player (fun p => Player.with_health (Js.min (Player.maxHealth p) (Player.health p + 1)%Q) p)
     else mret tt
   else mret tt);;
  s ← get;
  (if Js.eq (Player.hunger (player s)) 0 then
     r ← Math_random;
     if Js.lt r 0.03 then
       modify_player (fun p => Player.with_health (Js.max 0 (Player.health p - 1)%Q) p)
     else mret tt
   else mret tt);;
  s ← get;
  if Js.le (Player.health (player s)) 0 then respawn else mret tt.

(** *** Inventory *)

Fixpoint addToSlots (slots : list Slot) (blockId amount : Z) : list Slot * bool :=
  match slots with
  | [] => ([], false)
  | slot :: rest =>
      if block slot =? blockId
      then ({| block := block slot; count := count slot + amount |} :: rest, true)
      else let (rest', found) := addToSlots rest blockId amount in (slot :: rest', found)
  end.

Definition addToInventory (blockId amount : Z) : M bool := fun s =>
  let (slots, found) := addToSlots (hotbar s) blockId amount in
  Ok found (with_hotbar slots s).

(** [hotbar[selectedSlot]] *)
Definition selected (s : World) : option Slot :=
  if selectedSlot s <? 0 then None else hotbar s !! Z.to_nat (selectedSlot s).

Definition removeFromSelected (amount : Z) : M bool := fun s =>
  match selected s with
  | None => Ok false s
  | Some slot =>
      if count slot <? amount then Ok false s
      else Ok true (with_hotbar
                      (<[Z.to_nat (selectedSlot s) :=
                           {| block := block slot; count := count slot - amount |}]> (hotbar s)) s)
  end.

(** *** Mouse: break and place *)

Definition screenToWorld (s : World) (mx my : Q) : Q * Q :=
  ((mx + Camera.x (camera s))%Q, (my + Camera.y (camera s))%Q).

(** [Math.hypot(px - cx, py - cy) <= REACH], compared on the squares. *)
Definition withinReach (s : World) (tx ty : Z) : bool :=
  let p := player s in
  let px := (Player.x p + Player.w p / 2)%Q in
  let py := (Player.y p + Player.h p / 2)%Q in
  let cx := (inject_Z (tx * TILE) + inject_Z TILE / 2)%Q in
  let cy := (inject_Z (ty * TILE) + inject_Z TILE / 2)%Q in
  Js.le ((px - cx) * (px - cx) + (py - cy) * (py - cy))%Q (inject_Z (REACH * REACH)).

(** The test that guards a placement: the tile's rectangle against the
    player's box. *)
Definition overlaps (s : World) (tx ty : Z) : bool :=
  let p := player s in
  let rx := inject_Z (tx * TILE) in
  let ry := inject_Z (ty * TILE) in
  negb (Js.le (rx + inject_Z TILE)%Q (Player.x p)
        || Js.ge rx (Player.x p + Player.w p)%Q
        || Js.le (ry + inject_Z TILE)%Q (Player.y p)
        || Js.ge ry (Player.y p + Player.h p)%Q).

(** The [mousedown] listener, for a pointer at canvas position
    [(mx, my)]; [button] is 0 to break and 2 to place. *)
Definition mousedown (mx my : Q) (button : Z) : M unit :=
  s ← get;
  let (wx, wy) := screenToWorld s mx my in
  let (tx, ty) := worldToTile wx wy in
  if negb (withinReach s tx ty) then mret tt
  else if button =? 0 then
    b ← getBlock tx ty;
    if negb (b =? BLOCK.AIR) then
      setBlock tx ty BLOCK.AIR;;
      addToInventory b 1;;
      mret tt
    else mret tt
  else if button =? 2 then
    match selected s with
    | None => mret tt
    | Some slot =>
        if count slot <=? 0 then mret tt
        else
          b ← getBlock tx ty;
          if negb (b =? BLOCK.AIR) then mret tt
          else
            s ← get;
            if overlaps s tx ty then mret tt
            else
              setBlock tx ty (block slot);;
              removeFromSelected 1;;
              mret tt
    end
  else mret tt.

End Engine.

(** ** Saving (stable script) *)

Record SavedPlayer : Type := {
  saved_x : Q; saved_y : Q; saved_vx : Q; saved_vy : Q; saved_health : Q; saved_hunger : Q }.

(** The object [serializeWorldWindow] returns. *)
Record Save : Type := {
  save_v : Z;
  save_seed : Z;
  save_player : SavedPlayer;
  save_hotbar : list Slot;
  save_selectedSlot : Z;
  save_chunks : list (Z * Chunk) }.

Section Saving.

Variable generateChunk : Z -> Js.result Chunk.
Variable LOAD_RADIUS : Z.
Variable SEED : Z.

(** The loop that pushes [[cx, getChunk(cx)]] for each key.  Nothing
    writes to a chunk between the loop and the serialisation, so the
    pair holds the chunk as [getChunk] returned it. *)
Fixpoint saveChunks (keys : list Z) : M (list (Z * Chunk)) :=
  match keys with
  | [] => mret []
  | cx :: keys' =>
      chunk ← getChunk generateChunk cx;
      savedChunks ← saveChunks keys';
      mret ((cx, chunk) :: savedChunks)
  end.

Definition serializeWorldWindow : M Save :=
  s ← get;
  let tileX := Js.floor (Player.x (player s) / inject_Z TILE)%Q in
  let centerChunk := floorDiv tileX CHUNK_W in
  let min := centerChunk - LOAD_RADIUS in
  let max := centerChunk + LOAD_RADIUS in
  savedChunks ← saveChunks (seqZ min (max - min + 1));
  s ← get;
  let p := player s in
  mret {| save_v := 1;
          save_seed := SEED;
          save_player := {| saved_x := Player.x p; saved_y := Player.y p;
                            saved_vx := Player.vx p; saved_vy := Player.vy p;
                            saved_health := Player.health p;
                            saved_hunger := Player.hunger p |};
          save_hotbar := (fun slot => {| block := block slot; count := count slot |}) <$> hotbar s;
          save_selectedSlot := selectedSlot s;
          save_chunks := savedChunks |}.

End Saving.

(** ** [script.js]: the places where it differs from the stable script *)

Module Script.

Definition LOAD_RADIUS : Z := 3.

Definition SEED : Z := 1337.

(** [hash2D] of [script.js].  Its first statement multiplies the Number
    [SEED] by a BigInt literal. *)
Definition hash2D (x y : Js.value) : Js.result Q :=
  a ← Js.mul x (Js.Num (Some 374761393));
  b ← Js.mul y (Js.Num (Some 668265263));
  ab ← Js.add a b;
  c ← Js.mul (Js.Num (Some SEED)) (Js.Big 1442695040888963407);
  n ← Js.add ab c;
  n ← (v ← Js.BigInt n; Js.asUintN 64 v);
  n ← (t ← Js.big2 Z.shiftr n (Js.Big 12); Js.big2 Z.lxor n t);
  n ← (t ← Js.big2 Z.shiftl n (Js.Big 25); Js.big2 Z.lxor n t);
  n ← (t ← Js.big2 Z.shiftr n (Js.Big 27); Js.big2 Z.lxor n t);
  low ← Js.big2 Z.land n (Js.Big 4294967295);
  match Js.Number low with
  | Some z => Js.Value (inject_Z z / 4294967296)%Q
  | None => Js.Raise Js.Unmodelled
  end.

Definition noise1D (x : Q) : Js.result Q :=
  let x0 := Js.floor x in
  let x1 := x0 + 1 in
  let t := Stable.smoothstep (x - inject_Z x0)%Q in
  v0 ← hash2D (Js.Num (Some x0)) (Js.Num (Some 0));
  v1 ← hash2D (Js.Num (Some x1)) (Js.Num (Some 0));
  Js.Value (Stable.lerp v0 v1 t).

Definition noise2D (x y : Q) : Js.result Q :=
  let x0 := Js.floor x in
  let y0 := Js.floor y in
  let x1 := x0 + 1 in
  let y1 := y0 + 1 in
  let tx := Stable.smoothstep (x - inject_Z x0)%Q in
  let ty := Stable.smoothstep (y - inject_Z y0)%Q in
  v00 ← hash2D (Js.Num (Some x0)) (Js.Num (Some y0));
  v10 ← hash2D (Js.Num (Some x1)) (Js.Num (Some y0));
  v01 ← hash2D (Js.Num (Some x0)) (Js.Num (Some y1));
  v11 ← hash2D (Js.Num (Some x1)) (Js.Num (Some y1));
  let a := Stable.lerp v00 v10 tx in
  let b := Stable.lerp v01 v11 tx in
  Js.Value (Stable.lerp a b ty).

(** The trunk loop of [placeTree]; a missing row is skipped
    ([chunkData[y] && ...]). *)
Fixpoint placeTrunk (chunkData : Chunk) (x baseY : Z) (steps : list Z) : Js.result Chunk :=
  match steps with
  | [] => Js.Value chunkData
  | i :: steps' =>
      let y := baseY - i in
      if y <? 0 then Js.Value chunkData
      else
        chunkData' ← (match chunkData !! Z.to_nat y with
                      | None => Js.Value chunkData
                      | Some _ =>
                          b ← grid_get chunkData y x;
                          if b =? BLOCK.AIR then grid_set chunkData y x BLOCK.LOG
                          else Js.Value chunkData
                      end);
        placeTrunk chunkData' x baseY steps'
  end.

Definition placeTree (chunkData : Chunk) (x baseY worldX : Z) : Js.result Chunk :=
  n ← noise1D (inject_Z worldX * 0.9)%Q;
  let height := 4 + Js.floor (n * 3)%Q in
  chunkData ← placeTrunk chunkData x baseY (seqZ 0 height);
  let topY := baseY - (height - 1) in
  for_range (-2) 3 (fun ly => for_range (-2) 3 (fun lx => Stable.placeLeaf x topY ly lx)) chunkData.

Definition fillGround (localX groundY y : Z) (data : Chunk) : Js.result Chunk :=
  if y <? groundY then Js.Value data
  else Stable.fillGround localX groundY y data.

Definition carveCave (localX worldX y : Z) (data : Chunk) : Js.result Chunk :=
  n ← noise2D (inject_Z worldX * 0.12)%Q (inject_Z y * 0.12)%Q;
  if Js.gt n 0.70 then grid_set data y localX BLOCK.AIR else Js.Value data.

Definition placeOre (localX worldX y : Z) (data : Chunk) : Js.result Chunk :=
  b ← grid_get data y localX;
  if negb (b =? BLOCK.STONE) then Js.Value data
  else
    n ← noise2D (inject_Z worldX * 0.18)%Q (inject_Z y * 0.18)%Q;
    data ← (if Js.gt n 0.82 then grid_set data y localX BLOCK.COAL else Js.Value data);
    if (50 <? y) && Js.gt n 0.88 then grid_set data y localX BLOCK.IRON else Js.Value data.

Definition generateColumn (chunkX localX : Z) (data : Chunk) : Js.result Chunk :=
  let worldX := chunkX * CHUNK_W + localX in
  n1 ← noise1D (inject_Z worldX * 0.06)%Q;
  let h1 := (n1 * 8)%Q in
  n2 ← noise1D (inject_Z worldX * 0.012)%Q;
  let h2 := (n2 * 18)%Q in
  let groundY := Js.floor (35 + h1 + h2)%Q in
  data ← for_range 0 WORLD_H (fillGround localX groundY) data;
  data ← for_range (groundY + 3) WORLD_H (carveCave localX worldX) data;
  data ← for_range (groundY + 6) WORLD_H (placeOre localX worldX) data;
  treeChance ← noise1D (inject_Z worldX * 0.2)%Q;
  if Js.gt treeChance 0.86 then
    let y := groundY in
    if (0 <=? y) && (y <? WORLD_H) then
      b ← grid_get data y localX;
      if b =? BLOCK.GRASS then placeTree data localX (y - 1) worldX
      else Js.Value data
    else Js.Value data
  else Js.Value data.

Definition generateChunk (chunkX : Z) : Js.result Chunk :=
  let data := replicate (Z.to_nat WORLD_H) (replicate (Z.to_nat CHUNK_W) BLOCK.AIR) in
  for_range 0 CHUNK_W (generateColumn chunkX) data.

(** [moveAndCollide] of [script.js]: the retreat step is [Math.sign(v)]. *)
Definition moveAndCollide : nat -> M unit :=
  moveAndCollideWith generateChunk Js.sign.

(** [updateSurvival] of [script.js]: the regeneration adds 1 without a
    cap, and the respawn is written out in place. *)
Definition updateSurvival (dt : Q) : M unit :=
  s ← get;
  let moving := Js.gt (Qabs (Player.vx (player s))) 0.2 in
  modify (fun s => with_hungerTimer (hungerTimer s + dt * (if moving then 1.4 else 1.0))%Q s);;
  s ← get;
  (if Js.gt (hungerTimer s) 4.0 then
     modify (with_hungerTimer 0);;
     modify_player (fun p => Player.with_hunger (Js.max 0 (Player.hunger p - 1)%Q) p)
   else mret tt);;
  s ← get;
  (if Js.ge (Player.hunger (player s)) 16 && Js.lt (Player.health (player s)) (Player.maxHealth (player s)) then
     r ← Math_random;
     if Js.lt r 0.02 then
       modify_player (fun p => Player.with_health (Player.health p + 1)%Q p)
     else mret tt
   else mret tt);;
  s ← get;
  (if Js.eq (Player.hunger (player s)) 0 then
     r ← Math_random;
     if Js.lt r 0.03 then
       modify_player (fun p => Player.with_health (Js.max 0 (Player.health p - 1)%Q) p)
     else mret tt
   else mret tt);;
  s ← get;
  if Js.le (Player.health (player s)) 0 then
    modify_player (fun p => Player.with_health (Player.maxHealth p) p);;
    modify_player (fun p => Player.with_hunger (Player.maxHunger p) p);;
    modify_player (Player.with_x (2 * inject_Z TILE)%Q);;
    modify_player (Player.with_y (10 * inject_Z TILE)%Q);;
    modify_player (Player.with_vx 0);;
    modify_player (Player.with_vy 0)
  else mret tt.

End Script.

(** ** The first version of the game: a fixed grid and a cursor *)

Module First.

Definition worldWidth : Z := 25.
Definition worldHeight : Z := 18.

(** The [keydown] listener: the position [(playerX, playerY)] moves one
    block with an arrow key and is then clamped to the grid. *)
Definition keydown (key : string) (playerX playerY : Z) : Z * Z :=
  let speed := 1 in
  let '(playerX, playerY) :=
    if String.eqb key "ArrowLeft" then (playerX - speed, playerY)
    else if String.eqb key "ArrowRight" then (playerX + speed, playerY)
    else if String.eqb key "ArrowUp" then (playerX, playerY - speed)
    else if String.eqb key "ArrowDown" then (playerX, playerY + speed)
    else (playerX, playerY) in
  (Z.max 0 (Z.min playerX (worldWidth - 1)), Z.max 0 (Z.min playerY (worldHeight - 1))).

End First.

(** ** Vocabulary of the properties *)

(** A chunk has [WORLD_H] rows of [CHUNK_W] cells. *)
Definition chunk_wf (c : Chunk) : Prop :=
  length c = Z.to_nat WORLD_H /\ Forall (fun row => length row = Z.to_nat CHUNK_W) c.

(** Every resident chunk has that shape. *)
Definition store_wf (s : World) : Prop :=
  map_Forall (fun _ c => chunk_wf c) (chunks s).

(** The generator returns a chunk of that shape for every key. *)
Definition generator_total (generateChunk : Z -> Js.result Chunk) : Prop :=
  forall cx, exists c, generateChunk cx = Js.Value c /\ chunk_wf c.

(** The chunk key under the player, as [ensureChunksLoaded] computes it. *)
Definition playerChunk (s : World) : Z :=
  floorDiv (Js.floor (Player.x (player s) / inject_Z TILE)%Q) CHUNK_W.

(** Player travel: the player is put at each position in turn and the
    load/evict pass runs after each move; the result lists the number of
    resident chunks found after each pass. *)
Fixpoint roam (generateChunk : Z -> Js.result Chunk) (LOAD_RADIUS : Z)
    (positions : list Q) : M (list nat) :=
  match positions with
  | [] => mret []
  | px :: rest =>
      modify_player (Player.with_x px);;
      ensureChunksLoaded generateChunk LOAD_RADIUS;;
      s ← get;
      counts ← roam generateChunk LOAD_RADIUS rest;
      mret (size (chunks s) :: counts)
  end.

(** Chunks are requested through [getChunk], then the load/evict pass runs. *)
Definition requestThenLoad (generateChunk : Z -> Js.result Chunk) (LOAD_RADIUS : Z)
    (keys : list Z) : M unit :=
  loadAll generateChunk keys;;
  ensureChunksLoaded generateChunk LOAD_RADIUS.

(** The state in which the stable script starts, for a given sequence of
    [Math.random] outcomes. *)
Definition initialWorld (entropy : nat -> Q) : World :=
  {| chunks := ∅;
     player := Player.mk (2 * inject_Z TILE) (10 * inject_Z TILE) 26 30 0 0 false 20 20 20 20;
     hotbar := [ {| block := BLOCK.DIRT; count := 40 |};
                 {| block := BLOCK.STONE; count := 0 |};
                 {| block := BLOCK.LOG; count := 0 |};
                 {| block := BLOCK.LEAVES; count := 0 |};
                 {| block := BLOCK.GRASS; count := 0 |};
                 {| block := BLOCK.IRON; count := 0 |} ];
     selectedSlot := 0;
     camera := Camera.mk 0 0;
     hungerTimer := 0;
     entropy := entropy;
     drawn := 0 |}.

(** The initial state with no random outcome above zero. *)
Definition startWorld : World := initialWorld (fun _ => 0%Q).

(** The block id that [getBlock] reads at a tile when the chunk map is
    [m]: the resident chunk's cell, or the cell of the chunk the
    generator would produce. *)
Definition tileAt (generateChunk : Z -> Js.result Chunk) (m : gmap Z Chunk)
    (tx ty : Z) : Js.result Z :=
  if (ty <? 0) || (WORLD_H <=? ty) then Js.Value BLOCK.AIR
  else
    c ← (match m !! floorDiv tx CHUNK_W with
         | Some c => Js.Value c
         | None => generateChunk (floorDiv tx CHUNK_W)
         end);
    grid_get c ty (mod_ tx CHUNK_W).

Definition solidAt (generateChunk : Z -> Js.result Chunk) (m : gmap Z Chunk)
    (tx ty : Z) : bool :=
  match tileAt generateChunk m tx ty with
  | Js.Value b => isSolid b
  | Js.Raise _ => false
  end.

(** The rectangle covers a solid tile: what [rectHitsWorld] computes. *)
Definition hits (generateChunk : Z -> Js.result Chunk) (m : gmap Z Chunk)
    (px py pw ph : Q) : bool :=
  let left := Js.floor (px / inject_Z TILE)%Q in
  let right := Js.floor ((px + pw - 1) / inject_Z TILE)%Q in
  let top := Js.floor (py / inject_Z TILE)%Q in
  let bottom := Js.floor ((py + ph - 1) / inject_Z TILE)%Q in
  existsb (fun ty => existsb (fun tx => solidAt generateChunk m tx ty)
                             (seqZ left (right - left + 1)))
          (seqZ top (bottom - top + 1)).

(** [m'] is [m] with some absent chunks generated and stored. *)
Definition grown (generateChunk : Z -> Js.result Chunk) (m m' : gmap Z Chunk) : Prop :=
  forall k, m' !! k = m !! k
            \/ (m !! k = None /\ exists c, generateChunk k = Js.Value c /\ m' !! k = Some c).

(** [s'] is [s] up to chunks generated on demand. *)
Definition settled (generateChunk : Z -> Js.result Chunk) (s s' : World) : Prop :=
  exists m', s' = with_chunks m' s /\ grown generateChunk (chunks s) m'.

(** A chunk that is air except for a stone floor in row [R]. *)
Definition floorChunk (R : Z) : Chunk :=
  (fun y => replicate (Z.to_nat CHUNK_W) (if y =? R then BLOCK.STONE else BLOCK.AIR))
    <$> seqZ 0 WORLD_H.

(** The initial state with chunk 0 resident as [floorChunk R] and the
    player's position and velocity set. *)
Definition floorWorld (R : Z) (x y vx vy : Q) : World :=
  let s := startWorld in
  with_player (Player.with_vy vy (Player.with_vx vx (Player.with_y y (Player.with_x x (player s)))))
    (with_chunks {[ 0 := floorChunk R ]} s).

(** The coordinate after [n] retreats by [step]. *)
Fixpoint retreated (n : nat) (v step : Q) : Q :=
  match n with
  | O => v
  | S k => retreated k (v - step)%Q step
  end.

(** In the tile columns [left] to [right] the solid tiles are those of
    row [R]: a floor one tile thick. *)
Definition floorAt (generateChunk : Z -> Js.result Chunk) (m : gmap Z Chunk)
    (R left right : Z) : Prop :=
  forall tx ty, left <= tx <= right -> (solidAt generateChunk m tx ty = true <-> ty = R).

(** A state in which the player's box overlaps the floor of row 12 and
    the player does not move. *)
Definition stuckWorld : World := floorWorld 12 64 360 0 0.

(** The states the stuck player passes through: the floor chunk is
    resident and the box stays where it is. *)
Definition stuck (s : World) : Prop :=
  chunks s = {[ 0 := floorChunk 12 ]}
  /\ (Player.x (player s) == 64)%Q
  /\ Player.y (player s) = 360%Q
  /\ Player.w (player s) = 26%Q
  /\ Player.h (player s) = 30%Q.

(** The vitals are within their bounds. *)
Definition vitals_ok (p : Player.t) : Prop :=
  (0 <= Player.health p)%Q /\ (Player.health p <= Player.maxHealth p)%Q
  /\ (0 <= Player.hunger p)%Q /\ (Player.hunger p <= Player.maxHunger p)%Q.

(** [m] returns from every state satisfying [I], in a state satisfying [I]. *)
Definition keeps (I : World -> Prop) (m : M unit) : Prop :=
  forall s, I s -> exists s', m s = Ok tt s' /\ I s'.

(** The tile under the pointer, as the [mousedown] listener computes it. *)
Definition targetTile (s : World) (mx my : Q) : Z * Z :=
  let (wx, wy) := screenToWorld s mx my in worldToTile wx wy.

(** Over a floor at row 12 (top edge at pixel 384): a box falling from
    whole-pixel coordinates; a box whose move ends a quarter pixel off
    the pixel grid; a box whose move ends half a pixel into the floor. *)
Definition fallingWorld : World := floorWorld 12 64 350 0 8.
Definition grazingWorld : World := floorWorld 12 64 353.75 0 1.5.
Definition skimmingWorld : World := floorWorld 12 64 353.5 0 1.

(** The block [generateChunk] fills into row [y] of a column whose
    ground level is [groundY]. *)
Definition fillBlock (groundY y : Z) : Z :=
  if y =? groundY then BLOCK.GRASS
  else if y <? groundY + 4 then BLOCK.DIRT
  else BLOCK.STONE.

(** The writes [generateChunk] makes for a column [lx] with ground level
    [groundY] after filling the ground: cave cells, ore cells, the trunk
    and the leaves of a tree. *)
Inductive detailWrite (groundY lx : Z) (c : Chunk) : Z -> Z -> Z -> Prop :=
| write_cave (y : Z) :
    groundY + 4 <= y < WORLD_H -> detailWrite groundY lx c y lx BLOCK.AIR
| write_ore (y v b : Z) :
    groundY + 6 <= y < WORLD_H ->
    v = BLOCK.COAL \/ (v = BLOCK.IRON /\ 50 < y) ->
    grid_get c y lx = Js.Value b -> b = BLOCK.STONE \/ b = BLOCK.COAL ->
    detailWrite groundY lx c y lx v
| write_trunk (y : Z) :
    0 <= y -> groundY - 6 <= y <= groundY - 1 ->
    grid_get c y lx = Js.Value BLOCK.AIR ->
    detailWrite groundY lx c y lx BLOCK.LOG
| write_leaf (y x : Z) :
    groundY - 8 <= y <= groundY - 2 -> lx - 2 <= x <= lx + 2 ->
    grid_get c y x = Js.Value BLOCK.AIR ->
    detailWrite groundY lx c y x BLOCK.LEAVES.

(** What follows the ground fill in the body of [generateChunk]'s loop. *)
Definition columnDetail (cx lx : Z) (data : Chunk) : Js.result Chunk :=
  let wx := cx * CHUNK_W + lx in
  let groundY := Stable.groundLevel wx in
  data ← for_range (groundY + 4) WORLD_H (Stable.carveCave lx wx) data;
  data ← for_range (groundY + 6) WORLD_H (Stable.placeOre lx wx) data;
  let treeChance := Stable.noise1D (inject_Z wx * 0.2)%Q in
  if Js.gt treeChance 0.86 then
    b ← grid_get data groundY lx;
    if b =? BLOCK.GRASS then Stable.placeTree data lx (groundY - 1) wx
    else Js.Value data
  else Js.Value data.

(** The first [n] columns have their surface: the block the ground fill
    put in the ground row and in the three rows under it is still there. *)
Definition surfaced (cx n : Z) (c : Chunk) : Prop :=
  forall l d, 0 <= l < n -> 0 <= d <= 3 ->
    grid_get c (Stable.groundLevel (cx * CHUNK_W + l) + d) l
    = Js.Value (fillBlock (Stable.groundLevel (cx * CHUNK_W + l))
                  (Stable.groundLevel (cx * CHUNK_W + l) + d)).

(** The player's box covers a solid tile. *)
Definition playerHits (generateChunk : Z -> Js.result Chunk) (s : World) : bool :=
  hits generateChunk (chunks s) (Player.x (player s)) (Player.y (player s))
    (Player.w (player s)) (Player.h (player s)).

(** A whole number. *)
Definition whole (q : Q) : Prop := exists k : Z, (q == inject_Z k)%Q.

(** No slot of the hotbar has a negative count. *)
Definition counts_ok (slots : list Slot) : Prop := Forall (fun slot => 0 <= count slot) slots.

(** The player after [moveAndCollide], when the box has gone back [nx]
    steps of [sx] on the horizontal axis and [ny] steps of [sy] on the
    vertical one. *)
Definition collided (p : Player.t) (sx sy : Q) (nx ny : nat) : Player.t :=
  Player.mk (retreated nx (Player.x p + Player.vx p)%Q sx)
            (retreated ny (Player.y p + Player.vy p)%Q sy)
            (Player.w p) (Player.h p)
            (match nx with O => Player.vx p | S _ => 0%Q end)
            (match ny with O => Player.vy p | S _ => 0%Q end)
            (match ny with O => false | S _ => Js.gt sy 0 end)
            (Player.maxHealth p) (Player.health p) (Player.maxHunger p) (Player.hunger p).

(** From every state satisfying [P], [m] returns in a state satisfying [R]. *)
Definition ensures (P : World -> Prop) (m : M unit) (R : World -> Prop) : Prop :=
  forall s, P s -> exists s', m s = Ok tt s' /\ R s'.

(** What [updateSurvival] keeps once the hunger timer has been reset:
    the timer is within its period, and the maximal health, the chunks
    and the hotbar are those of [s0]. *)
Definition steady (maxHealth : Q) (s0 s : World) : Prop :=
  Player.maxHealth (player s) = maxHealth
  /\ (hungerTimer s <= 4)%Q
  /\ chunks s = chunks s0 /\ hotbar s = hotbar s0.

(** The vitals are within their bounds and the health points are whole. *)
Definition whole_vitals (s : World) : Prop :=
  vitals_ok (player s) /\ whole (Player.health (player s))
  /\ whole (Player.maxHealth (player s)).


(** * Properties *)

(** ** The hash *)

Lemma ToUint32_range (n : option Z) : 0 <= Js.ToUint32 n < 2 ^ 32.
Proof.
  destruct n as [z|]; simpl.
  - apply Z.mod_pos_bound. lia.
  - lia.
Qed.

Lemma ToInt32_range (n : option Z) : - 2 ^ 31 <= Js.ToInt32 n < 2 ^ 31.
Proof.
  unfold Js.ToInt32. pose proof (ToUint32_range n) as Hu.
  destruct (Js.ToUint32 n <? 2 ^ 31) eqn:E.
  - apply Z.ltb_lt in E. lia.
  - apply Z.ltb_ge in E. lia.
Qed.

Lemma hash2D_word_range (x y : Z) : 0 <= Stable.hash2D_word x y < 2 ^ 32.
Proof.
  unfold Stable.hash2D_word, Js.ushr32.
  change (0 mod 32) with 0. rewrite Z.shiftr_0_r. apply ToUint32_range.
Qed.

(** The stable script's hash returns a number in [0, 1) for every pair
    of integers. *)
Lemma Stable_hash2D_range (x y : Z) : (0 <= Stable.hash2D x y)%Q /\ (Stable.hash2D x y < 1)%Q.
Proof.
  unfold Stable.hash2D. pose proof (hash2D_word_range x y) as [H0 H1].
  set (n := Stable.hash2D_word x y) in *. split.
  - apply Qle_shift_div_l; [reflexivity|]. rewrite Qmult_0_l.
    change 0%Q with (inject_Z 0). rewrite <- Zle_Qle. exact H0.
  - apply Qlt_shift_div_r; [reflexivity|]. rewrite Qmult_1_l.
    change 4294967296%Q with (inject_Z (2 ^ 32)). rewrite <- Zlt_Qlt. exact H1.
Qed.

(** C3 (script.js): [hash2D] raises a TypeError on every pair of
    arguments, Numbers or BigInts, because its first statement multiplies
    the Number [SEED] by a BigInt; it never returns a value in [0, 1). *)
Theorem Script_hash2D_raises (x y : Js.value) :
  Script.hash2D x y = Js.Raise Js.TypeError.
Proof.
  unfold Script.hash2D.
  destruct x as [dx|zx]; [|reflexivity].
  destruct y as [dy|zy]; reflexivity.
Qed.

(** ** Chunk grids and the generator *)

Lemma chunk_wf_row (c : Chunk) (y : Z) :
  chunk_wf c -> 0 <= y < WORLD_H ->
  exists row, c !! Z.to_nat y = Some row /\ length row = Z.to_nat CHUNK_W.
Proof.
  intros [Hlen Hrows] Hy.
  destruct (lookup_lt_is_Some_2 c (Z.to_nat y)) as [row Hrow]; [lia|].
  exists row. split; [done|].
  eapply Forall_lookup_1 in Hrows; eauto.
Qed.

Lemma grid_get_wf (c : Chunk) (y x : Z) :
  chunk_wf c -> 0 <= y < WORLD_H -> 0 <= x < CHUNK_W ->
  exists b, grid_get c y x = Js.Value b.
Proof.
  intros Hwf Hy Hx. destruct (chunk_wf_row c y Hwf Hy) as (row & Hrow & Hlen).
  unfold grid_get. rewrite Hrow.
  destruct (y <? 0) eqn:E1; [apply Z.ltb_lt in E1; lia|].
  destruct (x <? 0) eqn:E2; [apply Z.ltb_lt in E2; lia|].
  destruct (lookup_lt_is_Some_2 row (Z.to_nat x)) as [b Hb]; [lia|].
  rewrite Hb. eauto.
Qed.

Lemma grid_set_wf (c : Chunk) (y x v : Z) :
  chunk_wf c -> 0 <= y < WORLD_H -> 0 <= x < CHUNK_W ->
  exists c', grid_set c y x v = Js.Value c' /\ chunk_wf c'.
Proof.
  intros Hwf Hy Hx. destruct (chunk_wf_row c y Hwf Hy) as (row & Hrow & Hlen).
  unfold grid_set. rewrite Hrow.
  destruct (y <? 0) eqn:E1; [apply Z.ltb_lt in E1; lia|].
  destruct (x <? 0) eqn:E2; [apply Z.ltb_lt in E2; lia|].
  destruct (Z.of_nat (length row) <=? x) eqn:E3; [apply Z.leb_le in E3; lia|].
  simpl. eexists; split; [reflexivity|].
  destruct Hwf as [Hl Hrows]. split.
  - by rewrite length_insert.
  - apply Forall_insert; [done|]. by rewrite length_insert.
Qed.

(** A loop whose body keeps an invariant and never raises returns a
    value satisfying the invariant. *)
Lemma foldl_result_inv {A} (P : A -> Prop) (body : Z -> A -> Js.result A) (Q : Z -> Prop)
    (l : list Z) (a : A) :
  (forall i a, Q i -> P a -> exists a', body i a = Js.Value a' /\ P a') ->
  Forall Q l -> P a ->
  exists a', foldl (fun acc i => a' ← acc; body i a') (Js.Value a) l = Js.Value a' /\ P a'.
Proof.
  intros Hbody. revert a. induction l as [|i l IH]; intros a Hl Ha; simpl.
  - eauto.
  - inversion Hl as [|? ? Hi Hl']; subst.
    destruct (Hbody i a Hi Ha) as (a1 & E & Ha1).
    change (a' ← Js.Value a; body i a') with (body i a). rewrite E. by apply IH.
Qed.

Lemma for_range_inv {A} (P : A -> Prop) (lo hi : Z) (body : Z -> A -> Js.result A) (a : A) :
  (forall i a, lo <= i < hi -> P a -> exists a', body i a = Js.Value a' /\ P a') ->
  P a ->
  exists a', for_range lo hi body a = Js.Value a' /\ P a'.
Proof.
  intros Hbody Ha. unfold for_range.
  apply foldl_result_inv with (Q := fun i => lo <= i < hi); [done| |done].
  apply Forall_forall. intros i Hi. apply elem_of_seqZ in Hi. lia.
Qed.

Lemma result_bind_value {A B} (a : A) (k : A -> Js.result B) :
  (x ← Js.Value a; k x) = k a.
Proof. reflexivity. Qed.

Ltac result_step E := rewrite E, ?result_bind_value.

Lemma placeTrunk_wf (lx baseY : Z) (steps : list Z) (c : Chunk) :
  chunk_wf c -> 0 <= lx < CHUNK_W -> baseY < WORLD_H -> Forall (fun i => 0 <= i) steps ->
  exists c', Stable.placeTrunk c lx baseY steps = Js.Value c' /\ chunk_wf c'.
Proof.
  intros Hwf Hlx Hbase Hsteps. revert c Hwf.
  induction Hsteps as [|i steps Hi _ IH]; intros c Hwf; simpl; [eauto|].
  destruct (baseY - i <? 0) eqn:E; [eauto|]. apply Z.ltb_ge in E.
  destruct (grid_get_wf c (baseY - i) lx Hwf) as [b Hb]; [lia|done|].
  result_step Hb.
  destruct (b =? BLOCK.AIR).
  - destruct (grid_set_wf c (baseY - i) lx BLOCK.LOG Hwf) as (c1 & E1 & Hwf1); [lia|done|].
    result_step E1. by apply IH.
  - rewrite result_bind_value. by apply IH.
Qed.

Lemma placeLeaf_wf (lx topY dy dx : Z) (c : Chunk) :
  chunk_wf c ->
  exists c', Stable.placeLeaf lx topY dy dx c = Js.Value c' /\ chunk_wf c'.
Proof.
  intros Hwf. unfold Stable.placeLeaf.
  destruct (topY + dy <? 0) eqn:E1; [eauto|].
  destruct (WORLD_H <=? topY + dy) eqn:E2; [eauto|].
  destruct (lx + dx <? 0) eqn:E3; [eauto|].
  destruct (CHUNK_W <=? lx + dx) eqn:E4; [eauto|]. simpl.
  apply Z.ltb_ge in E1, E3. apply Z.leb_gt in E2, E4.
  destruct (Z.abs dx + Z.abs dy <=? 3); [|eauto].
  destruct (grid_get_wf c (topY + dy) (lx + dx) Hwf) as [b Hb]; [lia|lia|].
  result_step Hb.
  destruct (b =? BLOCK.AIR); [|eauto].
  apply grid_set_wf; [done|lia|lia].
Qed.

Lemma placeTree_wf (lx baseY wx : Z) (c : Chunk) :
  chunk_wf c -> 0 <= lx < CHUNK_W -> baseY < WORLD_H ->
  exists c', Stable.placeTree c lx baseY wx = Js.Value c' /\ chunk_wf c'.
Proof.
  intros Hwf Hlx Hbase. unfold Stable.placeTree.
  set (height := 4 + _).
  destruct (placeTrunk_wf lx baseY (seqZ 0 height) c Hwf Hlx Hbase) as (c1 & E1 & Hwf1).
  { apply Forall_forall. intros i Hi. apply elem_of_seqZ in Hi. lia. }
  result_step E1.
  apply for_range_inv with (P := chunk_wf); [|done].
  intros dy c2 _ Hwf2.
  apply for_range_inv with (P := chunk_wf); [|done].
  intros dx c3 _ Hwf3. by apply placeLeaf_wf.
Qed.

Lemma groundLevel_range (wx : Z) : 10 <= Stable.groundLevel wx <= WORLD_H - 2.
Proof. unfold Stable.groundLevel, Stable.clampInt, WORLD_H. lia. Qed.

Lemma generateColumn_wf (cx lx : Z) (c : Chunk) :
  chunk_wf c -> 0 <= lx < CHUNK_W ->
  exists c', Stable.generateColumn cx lx c = Js.Value c' /\ chunk_wf c'.
Proof.
  intros Hwf Hlx. unfold Stable.generateColumn.
  set (wx := cx * CHUNK_W + lx).
  pose proof (groundLevel_range wx) as Hg. set (groundY := Stable.groundLevel wx) in *.
  destruct (for_range_inv chunk_wf groundY WORLD_H (Stable.fillGround lx groundY) c)
    as (c1 & E1 & Hwf1); [|done|].
  { intros y a Hy Ha. unfold Stable.fillGround.
    destruct (y =? groundY); [|destruct (y <? groundY + 4)];
      apply grid_set_wf; (done || lia). }
  result_step E1.
  destruct (for_range_inv chunk_wf (groundY + 4) WORLD_H (Stable.carveCave lx wx) c1)
    as (c2 & E2 & Hwf2); [|done|].
  { intros y a Hy Ha. unfold Stable.carveCave.
    destruct (Js.gt _ _); [|eauto]. apply grid_set_wf; (done || lia). }
  result_step E2.
  destruct (for_range_inv chunk_wf (groundY + 6) WORLD_H (Stable.placeOre lx wx) c2)
    as (c3 & E3 & Hwf3); [|done|].
  { intros y a Hy Ha. unfold Stable.placeOre.
    destruct (grid_get_wf a y lx Ha) as [b Hb]; [lia|done|].
    result_step Hb. destruct (negb (b =? BLOCK.STONE)); [eauto|].
    set (n := Stable.noise2D _ _).
    assert (exists a1, (if Js.gt n 0.82 then grid_set a y lx BLOCK.COAL else Js.Value a)
                       = Js.Value a1 /\ chunk_wf a1) as (a1 & Ea1 & Hwfa1).
    { destruct (Js.gt n 0.82); [|eauto]. apply grid_set_wf; (done || lia). }
    result_step Ea1.
    destruct ((50 <? y) && Js.gt n 0.88); [|eauto]. apply grid_set_wf; (done || lia). }
  result_step E3.
  destruct (Js.gt _ _); [|eauto].
  destruct (grid_get_wf c3 groundY lx Hwf3) as [b Hb]; [unfold WORLD_H in *; lia|done|].
  result_step Hb.
  destruct (b =? BLOCK.GRASS); [|eauto].
  apply placeTree_wf; [done|done|lia].
Qed.

(** The stable generator returns a [WORLD_H] by [CHUNK_W] grid for every
    chunk key: no array access of [generateChunk] or [placeTree] leaves
    the grid. *)
Lemma Stable_generateChunk_total : generator_total Stable.generateChunk.
Proof.
  intros cx. unfold Stable.generateChunk.
  apply for_range_inv with (P := chunk_wf).
  - intros lx c Hlx Hwf. by apply generateColumn_wf.
  - split.
    + by rewrite length_replicate.
    + apply Forall_replicate. by rewrite length_replicate.
Qed.

Lemma foldl_result_raise {A} (body : Z -> A -> Js.result A) (e : Js.failure) (l : list Z) :
  foldl (fun acc i => a' ← acc; body i a') (Js.Raise e) l = Js.Raise e.
Proof. induction l as [|i l IH]; simpl; [done|]. exact IH. Qed.

Lemma Script_noise1D_raises (x : Q) : Script.noise1D x = Js.Raise Js.TypeError.
Proof. unfold Script.noise1D. reflexivity. Qed.

(** [script.js]'s generator raises for every chunk key: its first noise
    sample already reaches the failing [hash2D]. *)
Lemma Script_generateChunk_raises (chunkX : Z) :
  Script.generateChunk chunkX = Js.Raise Js.TypeError.
Proof.
  unfold Script.generateChunk, for_range.
  change (seqZ 0 (CHUNK_W - 0)) with (0 :: seqZ 1 31).
  set (data := replicate _ _).
  cbn [foldl]. rewrite result_bind_value.
  replace (Script.generateColumn chunkX 0 data) with (@Js.Raise Chunk Js.TypeError).
  - apply foldl_result_raise.
  - unfold Script.generateColumn. by rewrite Script_noise1D_raises.
Qed.

(** ** Tile addressing *)

Lemma floorDiv_mod_ (a : Z) :
  0 <= mod_ a CHUNK_W < CHUNK_W /\ a = CHUNK_W * floorDiv a CHUNK_W + mod_ a CHUNK_W.
Proof.
  unfold mod_, floorDiv, Js.rem, Js.floor_quot, CHUNK_W.
  Z.to_euclidean_division_equations. lia.
Qed.

Lemma mod__eq (a : Z) : mod_ a CHUNK_W = a mod CHUNK_W.
Proof.
  unfold mod_, Js.rem, CHUNK_W. Z.to_euclidean_division_equations. lia.
Qed.

(** Tile column -1 lies in chunk -1, local column 31. *)
Lemma tile_minus_one : floorDiv (-1) CHUNK_W = -1 /\ mod_ (-1) CHUNK_W = 31.
Proof. split; reflexivity. Qed.

(** ** Running the state monad *)

Lemma M_bind_ok {A B} (m : M A) (k : A -> M B) (s s' : World) (a : A) :
  m s = Ok a s' -> (x ← m; k x) s = k a s'.
Proof. intros E. unfold mbind, M_bind. by rewrite E. Qed.

Lemma with_chunks_id (s : World) : with_chunks (chunks s) s = s.
Proof. by destruct s. Qed.

Lemma with_chunks_twice (m m' : gmap Z Chunk) (s : World) :
  with_chunks m' (with_chunks m s) = with_chunks m' s.
Proof. reflexivity. Qed.

Section StoreFacts.

Variable generateChunk : Z -> Js.result Chunk.
Hypothesis generateChunk_total : generator_total generateChunk.

(** [getChunk] returns the resident chunk, or generates, stores and
    returns it; either way the map then holds it under [cx]. *)
Lemma getChunk_spec (cx : Z) (s : World) :
  exists c,
    getChunk generateChunk cx s = Ok c (with_chunks (<[cx := c]> (chunks s)) s)
    /\ (chunks s !! cx = Some c \/ (chunks s !! cx = None /\ generateChunk cx = Js.Value c)).
Proof.
  unfold getChunk. destruct (chunks s !! cx) as [c|] eqn:E.
  - exists c. split; [|by left].
    by rewrite insert_id, with_chunks_id.
  - destruct (generateChunk_total cx) as (c & Ec & _). rewrite Ec.
    exists c. split; [done|]. by right.
Qed.

Lemma getChunk_wf (cx : Z) (s : World) (c : Chunk) (s' : World) :
  store_wf s -> getChunk generateChunk cx s = Ok c s' -> chunk_wf c /\ store_wf s'.
Proof.
  intros Hwf E. destruct (getChunk_spec cx s) as (c0 & E0 & Hc0).
  rewrite E0 in E. injection E as <- <-.
  assert (chunk_wf c0) as Hc.
  { destruct Hc0 as [Hres|[_ Hgen]].
    - by apply (Hwf cx).
    - destruct (generateChunk_total cx) as (c1 & E1 & Hc1). congruence. }
  split; [done|]. unfold store_wf. simpl. by apply map_Forall_insert_2.
Qed.

End StoreFacts.

Lemma row_guard_out (ty : Z) :
  ty < 0 \/ WORLD_H <= ty -> (ty <? 0) || (WORLD_H <=? ty) = true.
Proof.
  intros [H|H].
  - apply Z.ltb_lt in H. by rewrite H.
  - apply Z.leb_le in H. rewrite H. apply orb_true_r.
Qed.

Lemma row_guard_in (ty : Z) :
  0 <= ty < WORLD_H -> (ty <? 0) || (WORLD_H <=? ty) = false.
Proof.
  intros [H1 H2]. apply Z.ltb_ge in H1. apply Z.leb_gt in H2. by rewrite H1, H2.
Qed.

Section TileFacts.

Variable generateChunk : Z -> Js.result Chunk.
Hypothesis generateChunk_total : generator_total generateChunk.

(** Inside the row range [getBlock] reads the cell of the chunk that
    [getChunk] returns. *)
Lemma getBlock_spec (tx ty : Z) (s : World) :
  store_wf s -> 0 <= ty < WORLD_H ->
  exists c b,
    getBlock generateChunk tx ty s
      = Ok b (with_chunks (<[floorDiv tx CHUNK_W := c]> (chunks s)) s)
    /\ (chunks s !! floorDiv tx CHUNK_W = Some c
        \/ (chunks s !! floorDiv tx CHUNK_W = None
            /\ generateChunk (floorDiv tx CHUNK_W) = Js.Value c))
    /\ chunk_wf c
    /\ grid_get c ty (mod_ tx CHUNK_W) = Js.Value b.
Proof.
  intros Hwf Hty. unfold getBlock. rewrite (row_guard_in ty Hty).
  destruct (getChunk_spec generateChunk generateChunk_total (floorDiv tx CHUNK_W) s)
    as (c & E & Hc).
  destruct (getChunk_wf generateChunk generateChunk_total _ _ _ _ Hwf E) as [Hcwf _].
  destruct (grid_get_wf c ty (mod_ tx CHUNK_W) Hcwf Hty) as [b Hb];
    [apply floorDiv_mod_|].
  exists c, b. rewrite (M_bind_ok _ _ _ _ _ E). unfold liftR. rewrite Hb. done.
Qed.

(** Inside the row range [setBlock] replaces one cell of the chunk held
    under the tile's chunk key. *)
Lemma setBlock_spec (tx ty id : Z) (s : World) :
  store_wf s -> 0 <= ty < WORLD_H ->
  exists c row,
    (chunks s !! floorDiv tx CHUNK_W = Some c
     \/ (chunks s !! floorDiv tx CHUNK_W = None
         /\ generateChunk (floorDiv tx CHUNK_W) = Js.Value c))
    /\ chunk_wf c
    /\ c !! Z.to_nat ty = Some row
    /\ setBlock generateChunk tx ty id s
       = Ok tt (with_chunks
                  (<[floorDiv tx CHUNK_W :=
                       <[Z.to_nat ty := <[Z.to_nat (mod_ tx CHUNK_W) := id]> row]> c]> (chunks s)) s).
Proof.
  intros Hwf Hty. unfold setBlock. rewrite (row_guard_in ty Hty).
  destruct (getChunk_spec generateChunk generateChunk_total (floorDiv tx CHUNK_W) s)
    as (c & E & Hc).
  destruct (getChunk_wf generateChunk generateChunk_total _ _ _ _ Hwf E) as [Hcwf _].
  destruct (chunk_wf_row c ty Hcwf Hty) as (row & Hrow & Hlen).
  pose proof (floorDiv_mod_ tx) as [Hlx _].
  exists c, row. split; [done|]. split; [done|]. split; [done|].
  rewrite (M_bind_ok _ _ _ _ _ E).
  unfold grid_set. rewrite Hrow.
  destruct (ty <? 0) eqn:E1; [apply Z.ltb_lt in E1; lia|].
  destruct (mod_ tx CHUNK_W <? 0) eqn:E2; [apply Z.ltb_lt in E2; lia|].
  destruct (Z.of_nat (length row) <=? mod_ tx CHUNK_W) eqn:E3; [apply Z.leb_le in E3; lia|].
  simpl. unfold mbind, M_bind, liftR, modify. simpl.
  by rewrite insert_insert_eq.
Qed.

Lemma setBlock_wf (tx ty id : Z) (s s' : World) :
  store_wf s -> setBlock generateChunk tx ty id s = Ok tt s' -> store_wf s'.
Proof.
  intros Hwf E.
  destruct (Z_lt_le_dec ty 0) as [Hlo|Hlo]; [|destruct (Z_lt_le_dec ty WORLD_H) as [Hhi|Hhi]].
  - unfold setBlock in E. rewrite row_guard_out in E by lia. by injection E as <-.
  - destruct (setBlock_spec tx ty id s Hwf) as (c & row & _ & Hc & Hrow & E'); [lia|].
    rewrite E' in E. injection E as <-.
    unfold store_wf. simpl. apply map_Forall_insert_2; [|done].
    destruct Hc as [Hl Hrows]. split.
    + by rewrite length_insert.
    + apply Forall_insert; [done|]. rewrite length_insert.
      eapply Forall_lookup_1 in Hrows; eauto.
  - unfold setBlock in E. rewrite row_guard_out in E by lia. by injection E as <-.
Qed.

End TileFacts.

(** C6: for a row outside [0, WORLD_H), [getBlock] returns Air and
    [setBlock] does nothing; both return normally and leave the whole
    state, every chunk included, as it was.  This holds with either
    script's generator, which is not reached. *)
Theorem out_of_range_rows (generateChunk : Z -> Js.result Chunk) (tx ty id : Z) (s : World) :
  ty < 0 \/ WORLD_H <= ty ->
  getBlock generateChunk tx ty s = Ok BLOCK.AIR s
  /\ setBlock generateChunk tx ty id s = Ok tt s.
Proof.
  intros Hty. unfold getBlock, setBlock. by rewrite (row_guard_out ty Hty).
Qed.

(** C4: in a state whose resident chunks have the generated shape,
    writing block [X] at tile [(tx, ty)], for any integer [tx] and a row
    [ty] in [0, WORLD_H), and then reading that tile returns [X]. *)
Theorem setBlock_then_getBlock (tx ty X : Z) (s : World) :
  store_wf s -> 0 <= ty < WORLD_H ->
  exists s1 s2,
    setBlock Stable.generateChunk tx ty X s = Ok tt s1
    /\ getBlock Stable.generateChunk tx ty s1 = Ok X s2.
Proof.
  intros Hwf Hty.
  destruct (setBlock_spec _ Stable_generateChunk_total tx ty X s Hwf Hty)
    as (c & row & _ & Hc & Hrow & E).
  eexists _, _. split; [exact E|].
  assert (store_wf (with_chunks
    (<[floorDiv tx CHUNK_W :=
         <[Z.to_nat ty := <[Z.to_nat (mod_ tx CHUNK_W) := X]> row]> c]> (chunks s)) s)) as Hwf1.
  { eapply setBlock_wf; eauto using Stable_generateChunk_total. }
  destruct (getBlock_spec _ Stable_generateChunk_total tx ty _ Hwf1 Hty)
    as (c1 & b & E1 & Hc1 & _ & Hb).
  simpl in Hc1. rewrite lookup_insert_eq in Hc1.
  destruct Hc1 as [Hc1|[Hc1 _]]; [|done]. injection Hc1 as <-.
  assert (b = X) as ->; [|exact E1].
  pose proof (floorDiv_mod_ tx) as [Hlx _].
  destruct (chunk_wf_row c ty Hc Hty) as (row' & Hrow' & Hlen).
  assert (row' = row) as -> by congruence.
  unfold grid_get in Hb.
  destruct (ty <? 0) eqn:E2; [apply Z.ltb_lt in E2; lia|].
  rewrite list_lookup_insert_eq in Hb by (apply lookup_lt_Some in Hrow; lia).
  destruct (mod_ tx CHUNK_W <? 0) eqn:E3; [apply Z.ltb_lt in E3; lia|].
  rewrite list_lookup_insert_eq in Hb by lia.
  by injection Hb.
Qed.

(** ** Chunk loading *)

Section LoadFacts.

Variable generateChunk : Z -> Js.result Chunk.
Variable LOAD_RADIUS : Z.
Hypothesis generateChunk_total : generator_total generateChunk.

Lemma loadAll_spec (keys : list Z) (s : World) :
  exists m,
    loadAll generateChunk keys s = Ok tt (with_chunks m s)
    /\ dom m = list_to_set keys ∪ dom (chunks s).
Proof.
  revert s. induction keys as [|cx keys IH]; intros s; simpl.
  - exists (chunks s). rewrite with_chunks_id. split; [done|]. set_solver.
  - destruct (getChunk_spec generateChunk generateChunk_total cx s) as (c & E & _).
    rewrite (M_bind_ok _ _ _ _ _ E).
    destruct (IH (with_chunks (<[cx := c]> (chunks s)) s)) as (m & Em & Hdom).
    exists m. rewrite Em. split; [done|].
    rewrite Hdom. simpl. rewrite dom_insert_L. set_solver.
Qed.

Lemma elem_of_dom_unloadFar (c k : Z) (m : gmap Z Chunk) :
  k ∈ dom (unloadFar LOAD_RADIUS c m) <-> k ∈ dom m /\ Z.abs (k - c) <= LOAD_RADIUS + 2.
Proof.
  unfold unloadFar. rewrite !elem_of_dom. unfold is_Some. split.
  - intros [x Hx]. apply map_lookup_filter_Some in Hx as [Hx HP]. simpl in HP.
    split; [eauto|lia].
  - intros [[x Hx] Hk]. exists x. apply map_lookup_filter_Some. split; [done|]. simpl. lia.
Qed.

(** The pass loads the window around the player's chunk and keeps the
    keys within [LOAD_RADIUS + 2] of it. *)
Lemma ensureChunksLoaded_spec (s : World) :
  exists m,
    ensureChunksLoaded generateChunk LOAD_RADIUS s = Ok tt (with_chunks m s)
    /\ forall k, k ∈ dom m <->
         (k ∈ dom (chunks s) \/ Z.abs (k - playerChunk s) <= LOAD_RADIUS)
         /\ Z.abs (k - playerChunk s) <= LOAD_RADIUS + 2.
Proof.
  unfold ensureChunksLoaded.
  rewrite (M_bind_ok get _ s s s eq_refl).
  fold (playerChunk s). set (c := playerChunk s).
  destruct (loadAll_spec (seqZ (c - LOAD_RADIUS) (2 * LOAD_RADIUS + 1)) s) as (m & Em & Hdom).
  rewrite (M_bind_ok _ _ _ _ _ Em).
  exists (unloadFar LOAD_RADIUS c m). split; [reflexivity|].
  intros k. rewrite elem_of_dom_unloadFar, Hdom, elem_of_union, elem_of_list_to_set, elem_of_seqZ.
  split.
  - intros [[Hk|Hk] Hfar]; (split; [|done]); [right; lia|by left].
  - intros [[Hk|Hk] Hfar]; (split; [|done]); [by right|left; lia].
Qed.

Lemma ensureChunksLoaded_size (s : World) :
  exists s',
    ensureChunksLoaded generateChunk LOAD_RADIUS s = Ok tt s'
    /\ player s' = player s
    /\ (size (chunks s') <= Z.to_nat (2 * (LOAD_RADIUS + 2) + 1))%nat.
Proof.
  destruct (ensureChunksLoaded_spec s) as (m & E & Hdom).
  exists (with_chunks m s). split; [done|]. split; [done|]. simpl.
  rewrite <- size_dom.
  set (window := seqZ (playerChunk s - (LOAD_RADIUS + 2)) (2 * (LOAD_RADIUS + 2) + 1)).
  transitivity (size (list_to_set (C := gset Z) window)).
  - apply subseteq_size. intros k Hk. apply Hdom in Hk as [_ Hk].
    apply elem_of_list_to_set, elem_of_seqZ. lia.
  - rewrite size_list_to_set by apply NoDup_seqZ.
    unfold window. by rewrite length_seqZ.
Qed.

End LoadFacts.

(** C1: whatever the state before, and however the player has moved,
    each load/evict pass of the stable script returns with at most
    [2 * (LOAD_RADIUS + 2) + 1] chunks resident.  Stated for every
    sequence of player positions, the count being taken after each
    pass. *)
Theorem resident_chunks_bounded (positions : list Q) (s : World) :
  exists counts s',
    roam Stable.generateChunk Stable.LOAD_RADIUS positions s = Ok counts s'
    /\ length counts = length positions
    /\ Forall (fun n => Z.of_nat n <= 2 * (Stable.LOAD_RADIUS + 2) + 1) counts.
Proof.
  revert s. induction positions as [|px rest IH]; intros s; simpl.
  - exists [], s. by repeat split.
  - rewrite (M_bind_ok (modify_player (Player.with_x px)) _ s _ tt eq_refl).
    destruct (ensureChunksLoaded_size Stable.generateChunk Stable.LOAD_RADIUS
                Stable_generateChunk_total
                (with_player (Player.with_x px (player s)) s)) as (s1 & E1 & _ & Hsize).
    rewrite (M_bind_ok _ _ _ _ _ E1).
    rewrite (M_bind_ok get _ s1 s1 s1 eq_refl).
    destruct (IH s1) as (counts & s2 & E2 & Hlen & Hall).
    rewrite (M_bind_ok _ _ _ _ _ E2).
    exists (size (chunks s1) :: counts), s2. split; [done|]. split.
    + simpl. by rewrite Hlen.
    + constructor; [|done]. unfold Stable.LOAD_RADIUS in *. simpl in Hsize. lia.
Qed.

(** Keys resident after chunks [keys] were requested in a state with
    player chunk [playerChunk s] and the load/evict pass ran. *)
Lemma requestThenLoad_dom (generateChunk : Z -> Js.result Chunk) (LOAD_RADIUS : Z)
    (keys : list Z) (s : World) :
  generator_total generateChunk ->
  exists m,
    requestThenLoad generateChunk LOAD_RADIUS keys s = Ok tt (with_chunks m s)
    /\ forall k, k ∈ dom m <->
         (k ∈ keys \/ k ∈ dom (chunks s) \/ Z.abs (k - playerChunk s) <= LOAD_RADIUS)
         /\ Z.abs (k - playerChunk s) <= LOAD_RADIUS + 2.
Proof.
  intros Hgen. unfold requestThenLoad.
  destruct (loadAll_spec generateChunk Hgen keys s) as (m1 & E1 & Hdom1).
  rewrite (M_bind_ok _ _ _ _ _ E1).
  destruct (ensureChunksLoaded_spec generateChunk LOAD_RADIUS Hgen (with_chunks m1 s))
    as (m & E & Hdom).
  exists m. rewrite E. split; [done|].
  intros k. rewrite Hdom. simpl. rewrite Hdom1, elem_of_union, elem_of_list_to_set.
  change (playerChunk (with_chunks m1 s)) with (playerChunk s). tauto.
Qed.

Lemma requestThenLoad_from_empty (s : World) :
  chunks s = ∅ -> playerChunk s = 0 ->
  exists s',
    requestThenLoad Stable.generateChunk Stable.LOAD_RADIUS (seqZ (-5) 11) s = Ok tt s'
    /\ forall k, k ∈ dom (chunks s') <-> -5 <= k <= 5.
Proof.
  intros Hempty Hcenter.
  destruct (requestThenLoad_dom Stable.generateChunk Stable.LOAD_RADIUS (seqZ (-5) 11) s
              Stable_generateChunk_total) as (m & E & Hdom).
  exists (with_chunks m s). split; [done|].
  change (chunks (with_chunks m s)) with m.
  intros k. rewrite Hdom, Hcenter, Hempty, dom_empty_L, elem_of_seqZ.
  unfold Stable.LOAD_RADIUS. rewrite elem_of_empty. lia.
Qed.

(** C5, as the code behaves: from an empty chunk map and with the player
    in chunk 0, requesting the chunk keys -5 to 5 and running the
    load/evict pass of the stable script (load radius 4) leaves exactly
    the keys -5 to 5 resident: a key is evicted only when it is farther
    than [LOAD_RADIUS + 2 = 6] from the player's chunk. *)
Theorem request_then_load_keeps_guard_band (s : World) :
  chunks s = ∅ -> playerChunk s = 0 ->
  exists s',
    requestThenLoad Stable.generateChunk Stable.LOAD_RADIUS (seqZ (-5) 11) s = Ok tt s'
    /\ dom (chunks s') = list_to_set (seqZ (-5) 11).
Proof.
  intros Hempty Hcenter.
  destruct (requestThenLoad_from_empty s Hempty Hcenter) as (s' & E & Hdom).
  exists s'. split; [done|].
  apply set_eq. intros k. rewrite Hdom, elem_of_list_to_set, elem_of_seqZ. lia.
Qed.

(** C5 as the spec states it fails: after that scenario from the initial
    state the resident keys are not the keys -4 to 4 (chunks -5 and 5
    are still resident). *)
Lemma request_then_load_not_radius_window :
  exists s',
    requestThenLoad Stable.generateChunk Stable.LOAD_RADIUS (seqZ (-5) 11)
      (startWorld) = Ok tt s'
    /\ dom (chunks s') <> list_to_set (seqZ (-4) 9).
Proof.
  destruct (requestThenLoad_from_empty (startWorld))
    as (s' & E & Hdom); [done|reflexivity|].
  exists s'. split; [done|]. intros Heq.
  assert (5 ∈ dom (chunks s')) as H5 by (apply Hdom; lia).
  rewrite Heq in H5. apply elem_of_list_to_set, elem_of_seqZ in H5. lia.
Qed.

(** ** Reading tiles leaves the world as it is *)

Section ViewFacts.

Variable generateChunk : Z -> Js.result Chunk.
Hypothesis generateChunk_total : generator_total generateChunk.

Lemma grown_refl (m : gmap Z Chunk) : grown generateChunk m m.
Proof. intros k. by left. Qed.

Lemma grown_trans (m1 m2 m3 : gmap Z Chunk) :
  grown generateChunk m1 m2 -> grown generateChunk m2 m3 -> grown generateChunk m1 m3.
Proof.
  intros H12 H23 k. destruct (H23 k) as [E23|(E2 & c & Ec & E3)].
  - rewrite E23. apply H12.
  - destruct (H12 k) as [E12|(E1 & c' & Ec' & E2')]; [|congruence].
    right. split; [congruence|]. eauto.
Qed.

Lemma grown_insert (m : gmap Z Chunk) (cx : Z) (c : Chunk) :
  m !! cx = Some c \/ (m !! cx = None /\ generateChunk cx = Js.Value c) ->
  grown generateChunk m (<[cx := c]> m).
Proof.
  intros Hc k. destruct (decide (k = cx)) as [->|Hne].
  - rewrite lookup_insert_eq. destruct Hc as [Hc|[Hc Hgen]]; [by left|].
    right. eauto.
  - rewrite lookup_insert_ne by done. by left.
Qed.

Lemma grown_tileAt (m m' : gmap Z Chunk) (tx ty : Z) :
  grown generateChunk m m' -> tileAt generateChunk m' tx ty = tileAt generateChunk m tx ty.
Proof.
  intros Hg. unfold tileAt. destruct ((ty <? 0) || (WORLD_H <=? ty)); [done|].
  destruct (Hg (floorDiv tx CHUNK_W)) as [E|(E & c & Ec & E')].
  - by rewrite E.
  - by rewrite E, E', Ec.
Qed.

Lemma grown_solidAt (m m' : gmap Z Chunk) (tx ty : Z) :
  grown generateChunk m m' -> solidAt generateChunk m' tx ty = solidAt generateChunk m tx ty.
Proof. intros Hg. unfold solidAt. by rewrite (grown_tileAt m m'). Qed.

Lemma grown_hits (m m' : gmap Z Chunk) (px py pw ph : Q) :
  grown generateChunk m m' -> hits generateChunk m' px py pw ph = hits generateChunk m px py pw ph.
Proof.
  intros Hg. unfold hits.
  generalize (seqZ (Js.floor (px / inject_Z TILE))
                (Js.floor ((px + pw - 1) / inject_Z TILE) - Js.floor (px / inject_Z TILE) + 1)).
  intros cols.
  induction (seqZ _ _) as [|ty rows IH]; simpl; [done|]. rewrite IH. f_equal.
  clear IH. induction cols as [|tx cols IH']; simpl; [done|].
  by rewrite IH', (grown_solidAt m m' tx ty Hg).
Qed.

Lemma grown_wf (m m' : gmap Z Chunk) :
  grown generateChunk m m' ->
  map_Forall (fun _ c => chunk_wf c) m -> map_Forall (fun _ c => chunk_wf c) m'.
Proof.
  intros Hg Hwf k c Hk. destruct (Hg k) as [E|(_ & c' & Ec' & E')].
  - rewrite E in Hk. by apply (Hwf k).
  - destruct (generateChunk_total k) as (c1 & E1 & Hc1). congruence.
Qed.

Lemma settled_refl (s : World) : settled generateChunk s s.
Proof. exists (chunks s). split; [by rewrite with_chunks_id|apply grown_refl]. Qed.

Lemma settled_trans (s1 s2 s3 : World) :
  settled generateChunk s1 s2 -> settled generateChunk s2 s3 -> settled generateChunk s1 s3.
Proof.
  intros (m2 & -> & H12) (m3 & -> & H23). exists m3. split; [done|].
  by apply (grown_trans _ m2).
Qed.

Lemma settled_wf (s s' : World) :
  settled generateChunk s s' -> store_wf s -> store_wf s'.
Proof. intros (m' & -> & Hg) Hwf. by apply (grown_wf (chunks s)). Qed.

Lemma settled_player (s s' : World) : settled generateChunk s s' -> player s' = player s.
Proof. by intros (m' & -> & _). Qed.

Lemma settled_hits (s s' : World) (px py pw ph : Q) :
  settled generateChunk s s' ->
  hits generateChunk (chunks s') px py pw ph = hits generateChunk (chunks s) px py pw ph.
Proof. intros (m' & -> & Hg). by apply grown_hits. Qed.

(** [getBlock] returns [tileAt] of the chunk map it starts from. *)
Lemma getBlock_tileAt (tx ty : Z) (s : World) :
  store_wf s ->
  exists b s',
    getBlock generateChunk tx ty s = Ok b s'
    /\ tileAt generateChunk (chunks s) tx ty = Js.Value b
    /\ settled generateChunk s s'.
Proof.
  intros Hwf.
  destruct (Z_lt_le_dec ty 0) as [Hlo|Hlo]; [|destruct (Z_lt_le_dec ty WORLD_H) as [Hhi|Hhi]].
  - exists BLOCK.AIR, s. unfold getBlock, tileAt. rewrite row_guard_out by lia.
    split; [done|]. split; [done|]. apply settled_refl.
  - destruct (getBlock_spec generateChunk generateChunk_total tx ty s Hwf)
      as (c & b & E & Hc & _ & Hb); [lia|].
    exists b, (with_chunks (<[floorDiv tx CHUNK_W := c]> (chunks s)) s).
    split; [done|]. split.
    + unfold tileAt. rewrite row_guard_in by lia.
      destruct Hc as [Hc|[Hc Hgen]]; rewrite Hc, ?Hgen; exact Hb.
    + eexists. split; [done|]. by apply grown_insert.
  - exists BLOCK.AIR, s. unfold getBlock, tileAt. rewrite row_guard_out by lia.
    split; [done|]. split; [done|]. apply settled_refl.
Qed.

(** A loop of [anyTile] whose tests read the world returns what the
    tests say of the chunk map it starts from. *)
Lemma anyTile_spec (f : Z -> M bool) (g : gmap Z Chunk -> Z -> bool) (l : list Z) (s : World) :
  (forall m m' a, grown generateChunk m m' -> g m' a = g m a) ->
  (forall a s, store_wf s ->
     exists s', f a s = Ok (g (chunks s) a) s' /\ settled generateChunk s s') ->
  store_wf s ->
  exists s', anyTile f l s = Ok (existsb (g (chunks s)) l) s' /\ settled generateChunk s s'.
Proof.
  intros Hg Hf. revert s. induction l as [|a l IH]; intros s Hwf; simpl.
  - exists s. split; [done|apply settled_refl].
  - destruct (Hf a s Hwf) as (s1 & E1 & Hs1). rewrite (M_bind_ok _ _ _ _ _ E1).
    destruct (g (chunks s) a) eqn:Ega; simpl.
    + exists s1. by split.
    + destruct (IH s1) as (s2 & E2 & Hs2); [by apply (settled_wf s)|].
      exists s2. split; [|by apply (settled_trans _ s1)].
      rewrite E2. f_equal. destruct Hs1 as (m1 & -> & Hg1). simpl.
      clear -Hg Hg1. induction l as [|b l IHl]; simpl; [done|].
      by rewrite IHl, (Hg (chunks s) m1 b Hg1).
Qed.

Lemma rectHitsWorld_spec (px py pw ph : Q) (s : World) :
  store_wf s ->
  exists s',
    rectHitsWorld generateChunk px py pw ph s
      = Ok (hits generateChunk (chunks s) px py pw ph) s'
    /\ settled generateChunk s s'.
Proof.
  intros Hwf. unfold rectHitsWorld, hits.
  apply (anyTile_spec _
           (fun m ty => existsb (fun tx => solidAt generateChunk m tx ty) (seqZ _ _)));
    [| |done].
  - intros m m' ty Hg. induction (seqZ _ _) as [|tx cols IH]; simpl; [done|].
    by rewrite IH, (grown_solidAt m m' tx ty Hg).
  - intros ty s0 Hwf0.
    apply (anyTile_spec _ (fun m tx => solidAt generateChunk m tx ty)); [| |done].
    + intros m m' tx Hg. by apply grown_solidAt.
    + intros tx s1 Hwf1.
      destruct (getBlock_tileAt tx ty s1 Hwf1) as (b & s2 & E & Hb & Hs2).
      exists s2. rewrite (M_bind_ok _ _ _ _ _ E). unfold solidAt. rewrite Hb. by split.
Qed.

Lemma playerHitsWorld_spec (s : World) :
  store_wf s ->
  exists s',
    playerHitsWorld generateChunk s
      = Ok (hits generateChunk (chunks s) (Player.x (player s)) (Player.y (player s))
              (Player.w (player s)) (Player.h (player s))) s'
    /\ settled generateChunk s s'.
Proof.
  intros Hwf. unfold playerHitsWorld. rewrite (M_bind_ok get _ s s s eq_refl).
  by apply rectHitsWorld_spec.
Qed.

End ViewFacts.

(** ** Pixel rows and tile rows *)

Lemma Qfloor_ge (n : Z) (q : Q) : n <= Qfloor q <-> (inject_Z n <= q)%Q.
Proof.
  split; intros H.
  - apply Qle_trans with (inject_Z (Qfloor q)); [by rewrite <- Zle_Qle|apply Qfloor_le].
  - rewrite <- (Qfloor_Z n). by apply Qfloor_resp_le.
Qed.

Lemma Qfloor_lt (n : Z) (q : Q) : Qfloor q < n <-> (q < inject_Z n)%Q.
Proof.
  split; intros H.
  - apply Qnot_le_lt. intros Hle. apply Qfloor_ge in Hle. lia.
  - apply Z.nle_gt. intros Hle. apply Qfloor_ge in Hle. lra.
Qed.

Lemma tile_ge (R : Z) (q : Q) :
  R <= Js.floor (q / inject_Z TILE)%Q <-> (inject_Z R * 32 <= q)%Q.
Proof.
  unfold Js.floor. rewrite Qfloor_ge. change (inject_Z TILE) with 32%Q.
  unfold Qdiv. change (/ 32)%Q with (1 # 32)%Q. split; intros; lra.
Qed.

Lemma tile_lt (R : Z) (q : Q) :
  Js.floor (q / inject_Z TILE)%Q < R <-> (q < inject_Z R * 32)%Q.
Proof.
  unfold Js.floor. rewrite Qfloor_lt. change (inject_Z TILE) with 32%Q.
  unfold Qdiv. change (/ 32)%Q with (1 # 32)%Q. split; intros; lra.
Qed.

Lemma tile_le (R : Z) (q : Q) :
  Js.floor (q / inject_Z TILE)%Q <= R <-> (q < inject_Z R * 32 + 32)%Q.
Proof.
  rewrite <- Z.lt_succ_r, tile_lt. unfold Z.succ. rewrite inject_Z_plus.
  change (inject_Z 1) with 1%Q. split; intros; lra.
Qed.

Lemma retreated_eq (n : nat) (v step : Q) :
  (retreated n v step == v - inject_Z (Z.of_nat n) * step)%Q.
Proof.
  revert v. induction n as [|n IH]; intros v.
  - simpl. unfold inject_Z. ring.
  - cbn [retreated]. rewrite IH, Nat2Z.inj_succ. unfold Z.succ. rewrite inject_Z_plus.
    change (inject_Z 1) with 1%Q. ring.
Qed.

(** ** Collision *)

Lemma hits_floor (generateChunk : Z -> Js.result Chunk) (m : gmap Z Chunk)
    (R : Z) (px py pw ph : Q) :
  floorAt generateChunk m R (Js.floor (px / inject_Z TILE)%Q)
          (Js.floor ((px + pw - 1) / inject_Z TILE)%Q) ->
  Js.floor (px / inject_Z TILE)%Q <= Js.floor ((px + pw - 1) / inject_Z TILE)%Q ->
  (hits generateChunk m px py pw ph = true
   <-> Js.floor (py / inject_Z TILE)%Q <= R <= Js.floor ((py + ph - 1) / inject_Z TILE)%Q).
Proof.
  intros Hfloor Hcols. unfold hits.
  set (left := Js.floor (px / inject_Z TILE)%Q) in *.
  set (right := Js.floor ((px + pw - 1) / inject_Z TILE)%Q) in *.
  set (top := Js.floor (py / inject_Z TILE)%Q).
  set (bottom := Js.floor ((py + ph - 1) / inject_Z TILE)%Q).
  rewrite existsb_exists. split.
  - intros (ty & Hty & Hrow). apply existsb_exists in Hrow as (tx & Htx & Hsolid).
    apply list_elem_of_In, elem_of_seqZ in Hty, Htx.
    apply Hfloor in Hsolid; [|lia]. lia.
  - intros HR. exists R. split.
    + apply list_elem_of_In, elem_of_seqZ. lia.
    + apply existsb_exists. exists left. split.
      * apply list_elem_of_In, elem_of_seqZ. lia.
      * apply Hfloor; [lia|done].
Qed.

Lemma with_y_id (p : Player.t) : Player.with_y (Player.y p) p = p.
Proof. by destruct p. Qed.

Lemma with_player_id (s : World) : with_player (player s) s = s.
Proof. by destruct s. Qed.

Section RetreatFacts.

Variable generateChunk : Z -> Js.result Chunk.
Hypothesis generateChunk_total : generator_total generateChunk.

(** The vertical retreat loop stops at the first position, [n] steps
    back, where the box hits nothing; the world is then the one it
    started from with the player moved there. *)
Lemma retreat_y_stops (step : Q) (n : nat) (s : World) (fuel : nat) :
  store_wf s ->
  (forall j, (j < n)%nat ->
     hits generateChunk (chunks s) (Player.x (player s))
       (retreated j (Player.y (player s)) step) (Player.w (player s)) (Player.h (player s)) = true) ->
  hits generateChunk (chunks s) (Player.x (player s))
    (retreated n (Player.y (player s)) step) (Player.w (player s)) (Player.h (player s)) = false ->
  (n < fuel)%nat ->
  exists s',
    while fuel (playerHitsWorld generateChunk)
      (modify_player (fun p => Player.with_y (Player.y p - step)%Q p)) s = Ok tt s'
    /\ settled generateChunk
         (with_player (Player.with_y (retreated n (Player.y (player s)) step) (player s)) s) s'.
Proof.
  revert s fuel. induction n as [|n IH]; intros s fuel Hwf Hhit Hclear Hfuel.
  - destruct fuel as [|fuel]; [lia|]. cbn [while retreated] in *.
    destruct (playerHitsWorld_spec generateChunk generateChunk_total s Hwf) as (s1 & E1 & Hs1).
    rewrite (M_bind_ok _ _ _ _ _ E1), Hclear.
    exists s1. split; [done|]. by rewrite with_y_id, with_player_id.
  - destruct fuel as [|fuel]; [lia|]. cbn [while].
    destruct (playerHitsWorld_spec generateChunk generateChunk_total s Hwf) as (s1 & E1 & Hs1).
    pose proof (Hhit O ltac:(lia)) as Hhit0. cbn [retreated] in Hhit0.
    rewrite (M_bind_ok _ _ _ _ _ E1), Hhit0.
    set (s2 := with_player (Player.with_y (Player.y (player s1) - step)%Q (player s1)) s1).
    rewrite (M_bind_ok (modify_player (fun p => Player.with_y (Player.y p - step)%Q p))
               _ s1 s2 tt eq_refl).
    pose proof (settled_player _ _ _ Hs1) as Hp1.
    destruct Hs1 as (m1 & -> & Hg1).
    destruct (IH s2 fuel) as (s' & E' & (m' & -> & Hg')).
    + unfold s2, store_wf. simpl. by apply (grown_wf generateChunk generateChunk_total (chunks s)).
    + intros j Hj. unfold s2. simpl. rewrite (grown_hits generateChunk _ _ _ _ _ _ Hg1).
      apply (Hhit (S j)). lia.
    + unfold s2. simpl. rewrite (grown_hits generateChunk _ _ _ _ _ _ Hg1). exact Hclear.
    + lia.
    + exists (with_chunks m'
                (with_player (Player.with_y (retreated (S n) (Player.y (player s)) step) (player s)) s)).
      split; [exact E'|]. exists m'. split; [done|].
      simpl in Hg'. by apply (grown_trans generateChunk _ m1).
Qed.

End RetreatFacts.

Lemma sign_positive (v : Q) : (0 < v)%Q -> Js.or_else (Js.sign v) 1 = 1%Q.
Proof.
  intros Hv. unfold Js.sign. destruct (Qlt_le_dec 0 v) as [_|Hle]; [reflexivity|lra].
Qed.

Lemma grown_floorAt (generateChunk : Z -> Js.result Chunk) (m m' : gmap Z Chunk)
    (R left right : Z) :
  grown generateChunk m m' ->
  floorAt generateChunk m R left right -> floorAt generateChunk m' R left right.
Proof.
  intros Hg Hfloor tx ty Htx. rewrite (grown_solidAt generateChunk m m' tx ty Hg).
  by apply Hfloor.
Qed.

(** C8, as the code behaves: over a floor one tile thick at row [R], a
    box that starts above the floor with [vy > 0] and that the move
    would bring at least one pixel row into row [R] (and not past it)
    ends with its bottom edge in [R * TILE, R * TILE + 1), with
    [vy = 0] and [onGround = true].  The bottom edge is exactly
    [R * TILE] when the moved bottom edge [y + vy + h] is a whole number
    of pixels.  The call returns for every fuel above some bound. *)
Theorem lands_on_floor (R : Z) (s : World) :
  let p := player s in
  let x' := (Player.x p + Player.vx p)%Q in
  let y' := (Player.y p + Player.vy p)%Q in
  let left := Js.floor (x' / inject_Z TILE)%Q in
  let right := Js.floor ((x' + Player.w p - 1) / inject_Z TILE)%Q in
  store_wf s ->
  floorAt Stable.generateChunk (chunks s) R left right ->
  left <= right ->
  (0 < Player.vy p)%Q ->
  (Player.y p + Player.h p <= inject_Z (R * TILE))%Q ->
  (inject_Z (R * TILE) + 1 <= y' + Player.h p)%Q ->
  (y' < inject_Z (R * TILE) + inject_Z TILE)%Q ->
  exists n, forall fuel, (n < fuel)%nat ->
    exists s',
      moveAndCollide Stable.generateChunk fuel s = Ok tt s'
      /\ (inject_Z (R * TILE) <= Player.y (player s') + Player.h (player s'))%Q
      /\ (Player.y (player s') + Player.h (player s') < inject_Z (R * TILE) + 1)%Q
      /\ ((exists k : Z, y' + Player.h p == inject_Z k)%Q ->
          (Player.y (player s') + Player.h (player s') == inject_Z (R * TILE))%Q)
      /\ Player.vy (player s') = 0%Q
      /\ Player.onGround (player s') = true.
Proof.
  intros p x' y' left right Hwf Hfloor Hcols Hvy Habove Hreach Hnotpast.
  pose proof Stable_generateChunk_total as Hgen.
  rewrite inject_Z_mult in Habove, Hreach, Hnotpast.
  change (inject_Z TILE) with 32%Q in Habove, Hreach, Hnotpast.
  set (N := Qfloor (y' + Player.h p - inject_Z R * 32)%Q).
  assert (1 <= N) as HN1 by (apply Qfloor_ge; change (inject_Z 1) with 1%Q; lra).
  pose proof (Qfloor_le (y' + Player.h p - inject_Z R * 32)%Q) as HNlo.
  pose proof (Qlt_floor (y' + Player.h p - inject_Z R * 32)%Q) as HNhi.
  fold N in HNlo, HNhi. rewrite inject_Z_plus in HNhi. change (inject_Z 1) with 1%Q in HNhi.
  exists (Z.to_nat N). intros fuel Hfuel.
  unfold moveAndCollide, moveAndCollideWith.
  (* horizontal move: no hit *)
  set (s1 := with_player (Player.with_x x' p) s).
  rewrite (M_bind_ok (modify_player (fun p => Player.with_x (Player.x p + Player.vx p)%Q p))
             _ s s1 tt eq_refl).
  destruct (playerHitsWorld_spec _ Hgen s1 Hwf) as (s2 & E2 & (m2 & -> & Hg2)).
  assert (hits Stable.generateChunk (chunks s1) (Player.x (player s1)) (Player.y (player s1))
            (Player.w (player s1)) (Player.h (player s1)) = false) as Hmiss.
  { apply not_true_is_false. intros Hhit.
    apply (hits_floor _ _ R) in Hhit as [_ Hbot]; [|exact Hfloor|exact Hcols].
    apply tile_ge in Hbot. simpl in Hbot. fold p in Hbot. lra. }
  rewrite (M_bind_ok _ _ _ _ _ E2), Hmiss.
  rewrite (M_bind_ok (mret tt) _ _ _ tt eq_refl).
  (* vertical move: hit *)
  set (s3 := with_player (Player.with_y y' (Player.with_x x' p)) (with_chunks m2 s1)).
  rewrite (M_bind_ok (modify_player (fun p => Player.with_y (Player.y p + Player.vy p)%Q p))
             _ _ s3 tt eq_refl).
  set (s4 := with_player (Player.with_onGround false (player s3)) s3).
  rewrite (M_bind_ok (modify_player (Player.with_onGround false)) _ s3 s4 tt eq_refl).
  assert (store_wf s4) as Hwf4
    by (apply (grown_wf _ Hgen (chunks s)); [exact Hg2|exact Hwf]).
  assert (floorAt Stable.generateChunk (chunks s4) R left right) as Hfloor4
    by (apply (grown_floorAt _ (chunks s)); [exact Hg2|exact Hfloor]).
  destruct (playerHitsWorld_spec _ Hgen s4 Hwf4) as (s5 & E5 & (m5 & -> & Hg5)).
  assert (forall j : nat, (j < Z.to_nat N)%nat ->
            hits Stable.generateChunk (chunks s4) x' (retreated j y' 1) (Player.w p) (Player.h p)
            = true) as Hhits.
  { intros j Hj. apply (hits_floor _ _ R); [exact Hfloor4|exact Hcols|].
    pose proof (retreated_eq j y' 1) as Hr.
    assert (inject_Z (Z.of_nat j) + 1 <= inject_Z N)%Q as HjN.
    { change 1%Q with (inject_Z 1). rewrite <- inject_Z_plus, <- Zle_Qle. lia. }
    assert (0 <= inject_Z (Z.of_nat j))%Q as Hj0.
    { change 0%Q with (inject_Z 0). rewrite <- Zle_Qle. lia. }
    split; [apply tile_le|apply tile_ge]; rewrite Hr; lra. }
  assert (hits Stable.generateChunk (chunks s4) x' (retreated (Z.to_nat N) y' 1)
            (Player.w p) (Player.h p) = false) as Hclear.
  { apply not_true_is_false. intros Hhit.
    apply (hits_floor _ _ R) in Hhit as [_ Hbot]; [|exact Hfloor4|exact Hcols].
    apply tile_ge in Hbot. rewrite (retreated_eq _ y' 1), Z2Nat.id in Hbot by lia. lra. }
  rewrite (M_bind_ok _ _ _ _ _ E5).
  pose proof (Hhits O ltac:(lia)) as Hhit0. cbn [retreated] in Hhit0.
  change (hits Stable.generateChunk (chunks s4) (Player.x (player s4)) (Player.y (player s4))
            (Player.w (player s4)) (Player.h (player s4)))
    with (hits Stable.generateChunk (chunks s4) x' y' (Player.w p) (Player.h p)).
  rewrite Hhit0.
  set (s5 := with_chunks m5 s4).
  rewrite (M_bind_ok get _ s5 s5 s5 eq_refl).
  change (Player.vy (player s5)) with (Player.vy p). rewrite (sign_positive _ Hvy).
  assert (store_wf s5) as Hwf5
    by (apply (grown_wf _ Hgen (chunks s4)); [exact Hg5|exact Hwf4]).
  destruct (retreat_y_stops _ Hgen 1 (Z.to_nat N) s5 fuel Hwf5) as (s6 & E6 & Hs6).
  { intros j Hj. rewrite (grown_hits _ _ _ _ _ _ _ Hg5). by apply Hhits. }
  { rewrite (grown_hits _ _ _ _ _ _ _ Hg5). exact Hclear. }
  { exact Hfuel. }
  destruct Hs6 as (m6 & -> & Hg6).
  rewrite (M_bind_ok _ _ _ _ _ E6).
  eexists. split; [reflexivity|]. simpl.
  pose proof (retreated_eq (Z.to_nat N) y' 1) as Hr. rewrite Z2Nat.id in Hr by lia.
  fold p. fold y'. rewrite inject_Z_mult. change (inject_Z TILE) with 32%Q.
  split; [rewrite Hr; lra|]. split; [rewrite Hr; lra|]. split; [|done].
  intros [k Hk]. rewrite Hr.
  assert (N = k - R * 32) as ->.
  { unfold N. rewrite <- (Qfloor_Z (k - R * 32)). apply Qfloor_comp.
    rewrite Hk. unfold Zminus. rewrite inject_Z_plus, inject_Z_opp, inject_Z_mult.
    change (inject_Z 32) with 32%Q. ring. }
  unfold Zminus. rewrite inject_Z_plus, inject_Z_opp, inject_Z_mult.
  change (inject_Z 32) with 32%Q. lra.
Qed.

(** ** The floor world *)

Lemma floorChunk_wf (R : Z) : chunk_wf (floorChunk R).
Proof.
  unfold floorChunk. split.
  - rewrite length_fmap, length_seqZ. reflexivity.
  - apply Forall_fmap, Forall_forall. intros y _. apply length_replicate.
Qed.

Lemma floorWorld_wf (R : Z) (x y vx vy : Q) : store_wf (floorWorld R x y vx vy).
Proof.
  unfold store_wf, floorWorld. simpl. apply map_Forall_singleton, floorChunk_wf.
Qed.

Lemma floorChunk_solidAt (generateChunk : Z -> Js.result Chunk) (R tx ty : Z) :
  0 <= R < WORLD_H -> 0 <= tx < CHUNK_W ->
  (solidAt generateChunk {[ 0 := floorChunk R ]} tx ty = true <-> ty = R).
Proof.
  intros HR Htx. unfold solidAt, tileAt.
  destruct (Z_lt_le_dec ty 0) as [Hlo|Hlo]; [|destruct (Z_lt_le_dec ty WORLD_H) as [Hhi|Hhi]].
  - rewrite row_guard_out by lia. simpl. split; [done|lia].
  - rewrite row_guard_in by lia.
    assert (floorDiv tx CHUNK_W = 0) as ->.
    { unfold floorDiv, Js.floor_quot, CHUNK_W in *. apply Z.div_small. lia. }
    assert (mod_ tx CHUNK_W = tx) as ->.
    { rewrite mod__eq. unfold CHUNK_W in *. apply Z.mod_small. lia. }
    rewrite lookup_singleton_eq, result_bind_value. unfold grid_get, floorChunk.
    destruct (ty <? 0) eqn:E1; [apply Z.ltb_lt in E1; lia|].
    rewrite list_lookup_fmap.
    replace (seqZ 0 WORLD_H !! Z.to_nat ty) with (Some ty)
      by (symmetry; apply lookup_seqZ; lia).
    cbv [fmap option_fmap option_map].
    destruct (tx <? 0) eqn:E2; [apply Z.ltb_lt in E2; lia|].
    rewrite lookup_replicate_2 by (unfold CHUNK_W in *; lia).
    destruct (ty =? R) eqn:E3.
    + apply Z.eqb_eq in E3. by split.
    + apply Z.eqb_neq in E3. by split.
  - rewrite row_guard_out by lia. simpl. split; [done|lia].
Qed.

Lemma floorWorld_floorAt (generateChunk : Z -> Js.result Chunk) (R : Z) (x y vx vy : Q)
    (left right : Z) :
  0 <= R < WORLD_H -> 0 <= left -> right < CHUNK_W ->
  floorAt generateChunk (chunks (floorWorld R x y vx vy)) R left right.
Proof.
  intros HR Hl Hr tx ty Htx. apply floorChunk_solidAt; [done|lia].
Qed.

(** C8 as the spec states it fails, over a floor at row 12 (top edge at
    pixel 384) and for a box 30 pixels high.  From a bottom edge at
    383.75 and [vy = 1.5] the move would reach 385.25, inside the floor
    row: the call leaves the bottom edge at 384.25, not at 384.  From a
    bottom edge at 383.5 and [vy = 1] the move reaches 384.5, half a
    pixel inside the floor row: the call leaves the box there, still
    falling and not grounded. *)
Lemma lands_off_the_floor_edge :
  floorAt Stable.generateChunk (chunks grazingWorld) 12 2 2
  /\ (Player.y (player grazingWorld) + Player.h (player grazingWorld) <= 384)%Q
  /\ (0 < Player.vy (player grazingWorld))%Q
  /\ (384 < Player.y (player grazingWorld) + Player.vy (player grazingWorld)
             + Player.h (player grazingWorld))%Q
  /\ (Player.y (player grazingWorld) + Player.vy (player grazingWorld) < 384 + 32)%Q
  /\ (exists s',
        moveAndCollide Stable.generateChunk 3 grazingWorld = Ok tt s'
        /\ (Player.y (player s') + Player.h (player s') == 384.25)%Q
        /\ ~ (Player.y (player s') + Player.h (player s') == inject_Z (12 * TILE))%Q)
  /\ floorAt Stable.generateChunk (chunks skimmingWorld) 12 2 2
  /\ (Player.y (player skimmingWorld) + Player.h (player skimmingWorld) <= 384)%Q
  /\ (0 < Player.vy (player skimmingWorld))%Q
  /\ (384 < Player.y (player skimmingWorld) + Player.vy (player skimmingWorld)
             + Player.h (player skimmingWorld))%Q
  /\ (Player.y (player skimmingWorld) + Player.vy (player skimmingWorld) < 384 + 32)%Q
  /\ (exists s',
        moveAndCollide Stable.generateChunk 3 skimmingWorld = Ok tt s'
        /\ (Player.y (player s') + Player.h (player s') == 384.5)%Q
        /\ Player.vy (player s') = 1%Q
        /\ Player.onGround (player s') = false).
Proof.
  split.
  { apply floorWorld_floorAt; unfold WORLD_H, CHUNK_W; lia. }
  split; [by vm_compute|]. split; [by vm_compute|].
  split; [by vm_compute|]. split; [by vm_compute|].
  split.
  { eexists. split; [vm_compute; reflexivity|]. split; by vm_compute. }
  split.
  { apply floorWorld_floorAt; unfold WORLD_H, CHUNK_W; lia. }
  split; [by vm_compute|]. split; [by vm_compute|].
  split; [by vm_compute|]. split; [by vm_compute|].
  eexists. split; [vm_compute; reflexivity|]. split; [by vm_compute|]. split; reflexivity.
Qed.

(** ** The retreat loop at zero velocity *)

Lemma M_bind_out_of_fuel {A B} (m : M A) (k : A -> M B) (s : World) :
  m s = OutOfFuel -> (x ← m; k x) s = OutOfFuel.
Proof. intros E. unfold mbind, M_bind. by rewrite E. Qed.

Lemma rectHitsWorld_Qeq (generateChunk : Z -> Js.result Chunk) (px px' py py' pw ph : Q) :
  (px == px')%Q -> (py == py')%Q ->
  rectHitsWorld generateChunk px py pw ph = rectHitsWorld generateChunk px' py' pw ph.
Proof.
  intros Hx Hy. unfold rectHitsWorld, Js.floor.
  rewrite (Qfloor_comp (px / inject_Z TILE) (px' / inject_Z TILE)) by (by rewrite Hx).
  rewrite (Qfloor_comp ((px + pw - 1) / inject_Z TILE) ((px' + pw - 1) / inject_Z TILE))
    by (by rewrite Hx).
  rewrite (Qfloor_comp (py / inject_Z TILE) (py' / inject_Z TILE)) by (by rewrite Hy).
  rewrite (Qfloor_comp ((py + ph - 1) / inject_Z TILE) ((py' + ph - 1) / inject_Z TILE))
    by (by rewrite Hy).
  reflexivity.
Qed.

(** A loop whose test keeps answering true, on states its body keeps
    inside [P], uses up any fuel. *)
Lemma while_never_returns (P : World -> Prop) (cond : M bool) (body : M unit) :
  (forall s, P s -> cond s = Ok true s) ->
  (forall s, P s -> exists s', body s = Ok tt s' /\ P s') ->
  forall fuel s, P s -> while fuel cond body s = OutOfFuel.
Proof.
  intros Hcond Hbody. induction fuel as [|fuel IH]; intros s Hs; [done|].
  cbn [while]. rewrite (M_bind_ok _ _ _ _ _ (Hcond s Hs)).
  destruct (Hbody s Hs) as (s' & E & Hs'). rewrite (M_bind_ok _ _ _ _ _ E).
  by apply IH.
Qed.

Lemma stuck_hits (generateChunk : Z -> Js.result Chunk) (s : World) :
  stuck s -> playerHitsWorld generateChunk s = Ok true s.
Proof.
  intros (Hc & Hx & Hy & Hw & Hh). unfold playerHitsWorld.
  rewrite (M_bind_ok get _ s s s eq_refl).
  rewrite (rectHitsWorld_Qeq _ _ 64 _ 360 _ _ Hx) by (by rewrite Hy).
  rewrite Hw, Hh. destruct s as [m p hb sel cam t ent d]. simpl in Hc. subst m.
  vm_compute. reflexivity.
Qed.

(** C7 (script.js): with the player's box overlapping a solid tile and
    [vx] exactly zero, [moveAndCollide] of [script.js] computes the step
    [Math.sign(0) = 0]; its horizontal retreat loop then never moves the
    box and does not return, whatever the fuel. *)
Theorem Script_moveAndCollide_never_returns (fuel : nat) :
  Script.moveAndCollide fuel stuckWorld = OutOfFuel.
Proof.
  unfold Script.moveAndCollide, moveAndCollideWith.
  set (s1 := with_player (Player.with_x (64 + 0)%Q (player stuckWorld)) stuckWorld).
  rewrite (M_bind_ok (modify_player (fun p => Player.with_x (Player.x p + Player.vx p)%Q p))
             _ stuckWorld s1 tt eq_refl).
  assert (stuck s1) as Hs1 by (repeat split; reflexivity).
  rewrite (M_bind_ok _ _ _ _ _ (stuck_hits Script.generateChunk s1 Hs1)).
  apply M_bind_out_of_fuel.
  rewrite (M_bind_ok get _ s1 s1 s1 eq_refl).
  apply M_bind_out_of_fuel.
  change (Js.sign (Player.vx (player s1))) with 0%Q.
  apply (while_never_returns stuck); [apply stuck_hits| |exact Hs1].
  intros s (Hc & Hx & Hy & Hw & Hh). eexists. split; [reflexivity|].
  repeat split; try done. simpl. rewrite Hx. reflexivity.
Qed.

(** The stable script's step at zero velocity is 1. *)
Lemma Stable_step_at_zero : Js.or_else (Js.sign 0) 1 = 1%Q.
Proof. reflexivity. Qed.

(** On [stuckWorld] the stable script's [moveAndCollide] returns: the
    box is moved left, one pixel at a time, until it is clear. *)
Lemma Stable_moveAndCollide_returns_when_stuck :
  exists s', moveAndCollide Stable.generateChunk 100 stuckWorld = Ok tt s'
             /\ Player.x (player s') = (-26)%Q.
Proof. eexists. split; [vm_compute; reflexivity|reflexivity]. Qed.

(** ** Survival *)

Lemma keeps_ret (I : World -> Prop) : keeps I (mret tt).
Proof. intros s Hs. by exists s. Qed.

Lemma keeps_seq (I : World -> Prop) (m1 m2 : M unit) :
  keeps I m1 -> keeps I m2 -> keeps I (m1;; m2).
Proof.
  intros H1 H2 s Hs. destruct (H1 s Hs) as (s1 & E1 & Hs1).
  rewrite (M_bind_ok _ _ _ _ _ E1). by apply H2.
Qed.

Lemma keeps_get (I : World -> Prop) (k : World -> M unit) :
  (forall s0, keeps I (k s0)) -> keeps I (s ← get; k s).
Proof. intros Hk s Hs. rewrite (M_bind_ok get _ s s s eq_refl). by apply Hk. Qed.

Lemma keeps_modify (I : World -> Prop) (f : World -> World) :
  (forall s, I s -> I (f s)) -> keeps I (modify f).
Proof. intros Hf s Hs. exists (f s). split; [done|by apply Hf]. Qed.

Lemma keeps_random (I : World -> Prop) (k : Q -> M unit) :
  (forall s n, I s -> I (with_drawn n s)) ->
  (forall r, keeps I (k r)) -> keeps I (r ← Math_random; k r).
Proof.
  intros Hd Hk s Hs.
  rewrite (M_bind_ok Math_random _ s (with_drawn (S (drawn s)) s) (entropy s (drawn s)) eq_refl).
  by apply Hk, Hd.
Qed.

Lemma keeps_if (I : World -> Prop) (b : bool) (m1 m2 : M unit) :
  keeps I m1 -> keeps I m2 -> keeps I (if b then m1 else m2).
Proof. by destruct b. Qed.

Lemma Js_max_0 (v : Q) : (0 <= Js.max 0 v)%Q /\ (v <= Js.max 0 v)%Q /\ (Js.max 0 v == v \/ Js.max 0 v == 0)%Q.
Proof.
  unfold Js.max. destruct (Qlt_le_dec 0 v).
  - split; [lra|]. split; [lra|]. by left.
  - split; [lra|]. split; [lra|]. by right.
Qed.

Lemma Js_min_le (a b : Q) : (Js.min a b <= a)%Q /\ (Js.min a b <= b)%Q /\ (Js.min a b == a \/ Js.min a b == b)%Q.
Proof.
  unfold Js.min. destruct (Qlt_le_dec b a).
  - split; [lra|]. split; [lra|]. by right.
  - split; [lra|]. split; [lra|]. by left.
Qed.

Lemma respawn_keeps_vitals : keeps (fun s => vitals_ok (player s)) respawn.
Proof.
  unfold respawn, modify_player.
  repeat apply keeps_seq; apply keeps_modify; intros s (H1 & H2 & H3 & H4);
    unfold vitals_ok; simpl; repeat split; lra.
Qed.

(** The stable script: from a state whose vitals satisfy
    [0 <= health <= maxHealth] and [0 <= hunger <= maxHunger],
    [updateSurvival] returns, for every [dt] and every sequence of
    [Math.random] outcomes, in a state whose vitals satisfy them again. *)
Theorem updateSurvival_keeps_vitals (dt : Q) (s : World) :
  vitals_ok (player s) ->
  exists s', updateSurvival dt s = Ok tt s' /\ vitals_ok (player s').
Proof.
  revert s. change (keeps (fun s => vitals_ok (player s)) (updateSurvival dt)).
  unfold updateSurvival, modify_player.
  apply keeps_get. intros s0. apply keeps_seq.
  { apply keeps_modify. by intros s Hs. }
  apply keeps_get. intros s1. apply keeps_seq.
  { apply keeps_if; [|apply keeps_ret]. apply keeps_seq.
    - apply keeps_modify. by intros s Hs.
    - apply keeps_modify. intros s (H1 & H2 & H3 & H4). unfold vitals_ok. simpl.
      destruct (Js_max_0 (Player.hunger (player s) - 1)) as (Ha & Hb & [Hc|Hc]);
        repeat split; lra. }
  apply keeps_get. intros s2. apply keeps_seq.
  { apply keeps_if; [|apply keeps_ret]. apply keeps_random; [by intros s n Hs|].
    intros r. apply keeps_if; [|apply keeps_ret].
    apply keeps_modify. intros s (H1 & H2 & H3 & H4). unfold vitals_ok. simpl.
    destruct (Js_min_le (Player.maxHealth (player s)) (Player.health (player s) + 1))
      as (Ha & Hb & [Hc|Hc]); repeat split; lra. }
  apply keeps_get. intros s3. apply keeps_seq.
  { apply keeps_if; [|apply keeps_ret]. apply keeps_random; [by intros s n Hs|].
    intros r. apply keeps_if; [|apply keeps_ret].
    apply keeps_modify. intros s (H1 & H2 & H3 & H4). unfold vitals_ok. simpl.
    destruct (Js_max_0 (Player.health (player s) - 1)) as (Ha & Hb & [Hc|Hc]);
      repeat split; lra. }
  apply keeps_get. intros s4.
  apply keeps_if; [apply respawn_keeps_vitals|apply keeps_ret].
Qed.

(** [respawn] restores both maxima, puts the player at the spawn point
    and zeroes the velocity. *)
Lemma respawn_restores_maxima (s : World) :
  exists s',
    respawn s = Ok tt s'
    /\ Player.health (player s') = Player.maxHealth (player s)
    /\ Player.hunger (player s') = Player.maxHunger (player s)
    /\ Player.maxHealth (player s') = Player.maxHealth (player s)
    /\ Player.maxHunger (player s') = Player.maxHunger (player s)
    /\ Player.x (player s') = (2 * inject_Z TILE)%Q
    /\ Player.y (player s') = (10 * inject_Z TILE)%Q
    /\ Player.vx (player s') = 0%Q /\ Player.vy (player s') = 0%Q.
Proof. eexists. split; [reflexivity|]. by repeat split. Qed.


(** ** Interaction guards *)

(** C9: in a state whose resident chunks have the generated shape, a
    place request (button 2) on a tile whose rectangle overlaps the
    player's box, and a break request (button 0) on a tile that reads as
    Air, both return leaving every hotbar slot and every tile as it was
    (the chunk map may have gained the chunk generated to read the
    tile). *)
Theorem rejected_requests_change_nothing (s : World) (mx my mx' my' : Q) :
  store_wf s ->
  overlaps s (targetTile s mx my).1 (targetTile s mx my).2 = true ->
  tileAt Stable.generateChunk (chunks s) (targetTile s mx' my').1 (targetTile s mx' my').2
    = Js.Value BLOCK.AIR ->
  (exists s',
     mousedown Stable.generateChunk mx my 2 s = Ok tt s'
     /\ hotbar s' = hotbar s
     /\ forall tx ty, tileAt Stable.generateChunk (chunks s') tx ty
                      = tileAt Stable.generateChunk (chunks s) tx ty)
  /\ (exists s',
        mousedown Stable.generateChunk mx' my' 0 s = Ok tt s'
        /\ hotbar s' = hotbar s
        /\ forall tx ty, tileAt Stable.generateChunk (chunks s') tx ty
                         = tileAt Stable.generateChunk (chunks s) tx ty).
Proof.
  intros Hwf Hover Hair. pose proof Stable_generateChunk_total as Hgen.
  assert (forall s', settled Stable.generateChunk s s' ->
            hotbar s' = hotbar s
            /\ forall tx ty, tileAt Stable.generateChunk (chunks s') tx ty
                             = tileAt Stable.generateChunk (chunks s) tx ty) as Hsame.
  { intros s' (m' & -> & Hg). split; [done|]. intros tx ty. by apply grown_tileAt. }
  split.
  - unfold mousedown, targetTile in *. rewrite (M_bind_ok get _ s s s eq_refl).
    destruct (screenToWorld s mx my) as [wx wy].
    destruct (worldToTile wx wy) as [tx ty]. simpl in Hover.
    destruct (withinReach s tx ty); simpl.
    2: { exists s. split; [done|]. apply Hsame, settled_refl. }
    destruct (selected s) as [slot|].
    2: { exists s. split; [done|]. apply Hsame, settled_refl. }
    destruct (count slot <=? 0).
    { exists s. split; [done|]. apply Hsame, settled_refl. }
    destruct (getBlock_tileAt _ Hgen tx ty s Hwf) as (b & s1 & E1 & _ & Hs1).
    rewrite (M_bind_ok _ _ _ _ _ E1).
    destruct (negb (b =? BLOCK.AIR)).
    { exists s1. split; [done|]. by apply Hsame. }
    rewrite (M_bind_ok get _ s1 s1 s1 eq_refl).
    assert (overlaps s1 tx ty = true) as ->.
    { unfold overlaps. by rewrite (settled_player _ _ _ Hs1). }
    exists s1. split; [done|]. by apply Hsame.
  - unfold mousedown, targetTile in *. rewrite (M_bind_ok get _ s s s eq_refl).
    destruct (screenToWorld s mx' my') as [wx wy].
    destruct (worldToTile wx wy) as [tx ty]. simpl in Hair.
    destruct (withinReach s tx ty); simpl.
    2: { exists s. split; [done|]. apply Hsame, settled_refl. }
    destruct (getBlock_tileAt _ Hgen tx ty s Hwf) as (b & s1 & E1 & Hb & Hs1).
    rewrite (M_bind_ok _ _ _ _ _ E1).
    assert (b = BLOCK.AIR) as -> by congruence. simpl.
    exists s1. split; [done|]. by apply Hsame.
Qed.

(** ** Generation in the two scripts *)

(** C2: [generateChunk] of [script.js] produces no grid.  For every
    chunk key the call raises the TypeError of its [hash2D], reached
    through [noise1D] in the first column; so a chunk that is not
    resident can be neither generated nor regenerated, and no call
    yields a [WORLD_H] by [CHUNK_W] grid, let alone two calls the same
    one.  The stable script's [generateChunk] returns such a grid for
    every key. *)
Theorem Script_generateChunk_produces_no_grid (k : Z) :
  Script.generateChunk k = Js.Raise Js.TypeError
  /\ (forall s, chunks s !! k = None ->
        getChunk Script.generateChunk k s = Throw Js.TypeError)
  /\ exists c, Stable.generateChunk k = Js.Value c /\ chunk_wf c.
Proof.
  split; [apply Script_generateChunk_raises|]. split.
  - intros s Hnone. unfold getChunk. by rewrite Hnone, Script_generateChunk_raises.
  - apply Stable_generateChunk_total.
Qed.

(** ** Instances *)

Lemma initialWorld_wf (entropy : nat -> Q) : store_wf (initialWorld entropy).
Proof. apply map_Forall_empty. Qed.

Lemma setBlock_then_getBlock_witness :
  store_wf (startWorld)
  /\ 0 <= 10 < WORLD_H
  /\ exists s1 s2,
       setBlock Stable.generateChunk (-1) 10 BLOCK.STONE (startWorld) = Ok tt s1
       /\ getBlock Stable.generateChunk (-1) 10 s1 = Ok BLOCK.STONE s2.
Proof.
  split; [apply initialWorld_wf|]. split; [unfold WORLD_H; lia|].
  apply (setBlock_then_getBlock (-1) 10 BLOCK.STONE); [apply initialWorld_wf|unfold WORLD_H; lia].
Defined.

Lemma request_then_load_keeps_guard_band_witness :
  chunks (startWorld) = ∅
  /\ playerChunk (startWorld) = 0
  /\ exists s',
       requestThenLoad Stable.generateChunk Stable.LOAD_RADIUS (seqZ (-5) 11)
         (startWorld) = Ok tt s'
       /\ dom (chunks s') = list_to_set (seqZ (-5) 11).
Proof.
  split; [reflexivity|]. split; [reflexivity|].
  apply (request_then_load_keeps_guard_band (startWorld)); reflexivity.
Defined.

Lemma out_of_range_rows_witness :
  (-1 < 0 \/ WORLD_H <= -1)
  /\ getBlock Stable.generateChunk 5 (-1) stuckWorld = Ok BLOCK.AIR stuckWorld
  /\ setBlock Stable.generateChunk 5 (-1) BLOCK.STONE stuckWorld = Ok tt stuckWorld.
Proof.
  split; [left; lia|].
  apply (out_of_range_rows Stable.generateChunk 5 (-1) BLOCK.STONE stuckWorld). left. lia.
Defined.

Lemma lands_on_floor_witness :
  store_wf fallingWorld
  /\ floorAt Stable.generateChunk (chunks fallingWorld) 12 2 2
  /\ 2 <= 2
  /\ (0 < Player.vy (player fallingWorld))%Q
  /\ (Player.y (player fallingWorld) + Player.h (player fallingWorld) <= inject_Z (12 * TILE))%Q
  /\ (inject_Z (12 * TILE) + 1
      <= Player.y (player fallingWorld) + Player.vy (player fallingWorld)
         + Player.h (player fallingWorld))%Q
  /\ (Player.y (player fallingWorld) + Player.vy (player fallingWorld)
      < inject_Z (12 * TILE) + inject_Z TILE)%Q
  /\ exists n, forall fuel, (n < fuel)%nat ->
       exists s',
         moveAndCollide Stable.generateChunk fuel fallingWorld = Ok tt s'
         /\ (inject_Z (12 * TILE) <= Player.y (player s') + Player.h (player s'))%Q
         /\ (Player.y (player s') + Player.h (player s') < inject_Z (12 * TILE) + 1)%Q
         /\ ((exists k : Z, Player.y (player fallingWorld) + Player.vy (player fallingWorld)
                            + Player.h (player fallingWorld) == inject_Z k)%Q ->
             (Player.y (player s') + Player.h (player s') == inject_Z (12 * TILE))%Q)
         /\ Player.vy (player s') = 0%Q
         /\ Player.onGround (player s') = true.
Proof.
  assert (floorAt Stable.generateChunk (chunks fallingWorld) 12 2 2) as Hfloor
    by (apply floorWorld_floorAt; unfold WORLD_H, CHUNK_W; lia).
  split; [apply floorWorld_wf|]. split; [exact Hfloor|]. split; [lia|].
  split; [by vm_compute|]. split; [by vm_compute|].
  split; [by vm_compute|]. split; [by vm_compute|].
  apply (lands_on_floor 12 fallingWorld);
    [apply floorWorld_wf|exact Hfloor|by vm_compute|by vm_compute|by vm_compute
    |by vm_compute|by vm_compute].
Defined.

Lemma rejected_requests_change_nothing_witness :
  store_wf startWorld
  /\ overlaps startWorld (targetTile startWorld 70 330).1 (targetTile startWorld 70 330).2 = true
  /\ tileAt Stable.generateChunk (chunks startWorld)
       (targetTile startWorld 70 (-10)).1 (targetTile startWorld 70 (-10)).2
     = Js.Value BLOCK.AIR
  /\ (exists s',
        mousedown Stable.generateChunk 70 330 2 startWorld = Ok tt s'
        /\ hotbar s' = hotbar startWorld
        /\ forall tx ty, tileAt Stable.generateChunk (chunks s') tx ty
                         = tileAt Stable.generateChunk (chunks startWorld) tx ty)
  /\ (exists s',
        mousedown Stable.generateChunk 70 (-10) 0 startWorld = Ok tt s'
        /\ hotbar s' = hotbar startWorld
        /\ forall tx ty, tileAt Stable.generateChunk (chunks s') tx ty
                         = tileAt Stable.generateChunk (chunks startWorld) tx ty).
Proof.
  split; [apply initialWorld_wf|]. split; [reflexivity|]. split; [reflexivity|].
  apply (rejected_requests_change_nothing startWorld 70 330 70 (-10));
    [apply initialWorld_wf|reflexivity|reflexivity].
Defined.

Lemma updateSurvival_keeps_vitals_witness :
  vitals_ok (player (startWorld))
  /\ exists s',
       updateSurvival 0.05 (startWorld) = Ok tt s'
       /\ vitals_ok (player s').
Proof.
  assert (vitals_ok (player (startWorld))) as Hv
    by (repeat split; by vm_compute).
  split; [exact Hv|].
  apply (updateSurvival_keeps_vitals 0.05 (startWorld) Hv).
Defined.

(** ** The chunk-map invariant *)

Lemma ensureChunksLoaded_wf (generateChunk : Z -> Js.result Chunk) (LOAD_RADIUS : Z)
    (s s' : World) :
  generator_total generateChunk ->
  store_wf s -> ensureChunksLoaded generateChunk LOAD_RADIUS s = Ok tt s' -> store_wf s'.
Proof.
  intros Hgen Hwf. unfold ensureChunksLoaded.
  rewrite (M_bind_ok get _ s s s eq_refl).
  set (keys := seqZ _ _). intros E.
  assert (forall keys s0, store_wf s0 ->
            exists s1, loadAll generateChunk keys s0 = Ok tt s1 /\ store_wf s1) as Hload.
  { clear -Hgen. induction keys as [|cx keys IH]; intros s0 Hwf0; simpl; [by exists s0|].
    destruct (getChunk_spec generateChunk Hgen cx s0) as (c & Ec & _).
    rewrite (M_bind_ok _ _ _ _ _ Ec).
    apply IH. by apply (getChunk_wf generateChunk Hgen cx s0 c). }
  destruct (Hload keys s Hwf) as (s1 & E1 & Hwf1).
  rewrite (M_bind_ok _ _ _ _ _ E1) in E. injection E as <-.
  unfold store_wf, unloadFar. simpl. intros k c Hk.
  apply map_lookup_filter_Some in Hk as [Hk _]. by apply (Hwf1 k).
Qed.

(** ** The vertical retreat of the stable script always ends *)

Lemma hits_above_world (generateChunk : Z -> Js.result Chunk) (m : gmap Z Chunk)
    (px py pw ph : Q) :
  (py + ph - 1 < 0)%Q -> hits generateChunk m px py pw ph = false.
Proof.
  intros Habove. apply not_true_is_false. unfold hits. intros Hhit.
  apply existsb_exists in Hhit as (ty & Hty & Hrow).
  apply existsb_exists in Hrow as (tx & _ & Hsolid).
  apply list_elem_of_In, elem_of_seqZ in Hty.
  assert (ty < 0) as Hneg.
  { assert (Js.floor ((py + ph - 1) / inject_Z TILE)%Q < 0) as Hb
      by (apply tile_lt; change (inject_Z 0) with 0%Q; lra).
    lia. }
  unfold solidAt, tileAt in Hsolid. rewrite row_guard_out in Hsolid by lia. done.
Qed.

Lemma first_false_or_all (f : nat -> bool) (B : nat) :
  (exists n, (n <= B)%nat /\ f n = false /\ forall j, (j < n)%nat -> f j = true)
  \/ (forall j, (j <= B)%nat -> f j = true).
Proof.
  induction B as [|B [(n & Hn & Hfn & Hbelow)|Hall]].
  - destruct (f O) eqn:E.
    + right. intros j Hj. by replace j with O by lia.
    + left. exists O. split; [lia|]. split; [done|]. intros j Hj. lia.
  - left. exists n. split; [lia|done].
  - destruct (f (S B)) eqn:E.
    + right. intros j Hj. destruct (decide (j = S B)) as [->|Hne]; [done|].
      apply Hall. lia.
    + left. exists (S B). split; [lia|]. split; [done|]. intros j Hj. apply Hall. lia.
Qed.

Lemma first_false (f : nat -> bool) (B : nat) :
  f B = false ->
  exists n, (n <= B)%nat /\ f n = false /\ forall j, (j < n)%nat -> f j = true.
Proof.
  intros HB. destruct (first_false_or_all f B) as [Hn|Hall]; [done|].
  rewrite Hall in HB by lia. done.
Qed.

(** With step 1 (the step the stable script uses at zero velocity) the
    vertical retreat loop returns from every state: moving up, the box
    is clear at the latest when it has left the top of the world. *)
Lemma Stable_vertical_retreat_returns (s : World) :
  store_wf s ->
  exists n, forall fuel, (n < fuel)%nat ->
    exists s',
      while fuel (playerHitsWorld Stable.generateChunk)
        (modify_player (fun p => Player.with_y (Player.y p - 1)%Q p)) s = Ok tt s'.
Proof.
  intros Hwf.
  set (f := fun j => hits Stable.generateChunk (chunks s) (Player.x (player s))
                       (retreated j (Player.y (player s)) 1)
                       (Player.w (player s)) (Player.h (player s))).
  set (B := Z.to_nat (Z.max 0 (Qfloor (Player.y (player s) + Player.h (player s))%Q + 1))).
  assert (f B = false) as HB.
  { unfold f. apply hits_above_world. rewrite retreated_eq.
    pose proof (Qlt_floor (Player.y (player s) + Player.h (player s))%Q) as Hfl.
    assert (inject_Z (Qfloor (Player.y (player s) + Player.h (player s))%Q + 1)
            <= inject_Z (Z.of_nat B))%Q as HBge.
    { rewrite <- Zle_Qle. unfold B. lia. }
    lra. }
  destruct (first_false f B HB) as (n & _ & Hclear & Hhits).
  exists n. intros fuel Hfuel.
  destruct (retreat_y_stops _ Stable_generateChunk_total 1 n s fuel Hwf Hhits Hclear Hfuel)
    as (s' & E & _).
  by exists s'.
Qed.

(** * Further properties of the code *)

(** ** Tile addressing *)

(** X1: [floorDiv] and [mod] split a tile column into the one pair of a
    chunk key and a local column in [0, CHUNK_W) that adds up to it,
    for negative columns too. *)
Theorem tile_address_unique (tx : Z) :
  0 <= mod_ tx CHUNK_W < CHUNK_W
  /\ tx = floorDiv tx CHUNK_W * CHUNK_W + mod_ tx CHUNK_W
  /\ forall cx lx, 0 <= lx < CHUNK_W -> tx = cx * CHUNK_W + lx ->
       cx = floorDiv tx CHUNK_W /\ lx = mod_ tx CHUNK_W.
Proof.
  destruct (floorDiv_mod_ tx) as [Hr He]. split; [done|]. split; [lia|].
  intros cx lx Hlx Htx. unfold CHUNK_W in *. lia.
Qed.

(** X2: the tile that [worldToTile] returns for a pixel position is the
    tile whose [TILE] by [TILE] square contains it. *)
Theorem worldToTile_contains (px py : Q) :
  (inject_Z (worldToTile px py).1 * inject_Z TILE <= px)%Q
  /\ (px < inject_Z (worldToTile px py).1 * inject_Z TILE + inject_Z TILE)%Q
  /\ (inject_Z (worldToTile px py).2 * inject_Z TILE <= py)%Q
  /\ (py < inject_Z (worldToTile px py).2 * inject_Z TILE + inject_Z TILE)%Q.
Proof.
  unfold worldToTile. simpl. change (inject_Z TILE) with 32%Q.
  pose proof (proj1 (tile_ge (Js.floor (px / 32)) px) (Z.le_refl _)) as H1.
  pose proof (proj1 (tile_le (Js.floor (px / 32)) px) (Z.le_refl _)) as H2.
  pose proof (proj1 (tile_ge (Js.floor (py / 32)) py) (Z.le_refl _)) as H3.
  pose proof (proj1 (tile_le (Js.floor (py / 32)) py) (Z.le_refl _)) as H4.
  change (inject_Z TILE) with 32%Q in *. done.
Qed.

(** ** The stable noise *)

(** X3: [hash2D] of the stable script is a 32-bit fraction: for every
    pair of integers it is [n / 2^32] for a word [0 <= n < 2^32], hence
    in [0, 1). *)
Theorem Stable_hash2D_is_a_32bit_fraction (x y : Z) :
  exists n, 0 <= n < 2 ^ 32
            /\ (Stable.hash2D x y == inject_Z n / inject_Z (2 ^ 32))%Q
            /\ (0 <= Stable.hash2D x y)%Q /\ (Stable.hash2D x y < 1)%Q.
Proof.
  exists (Stable.hash2D_word x y). split; [apply hash2D_word_range|].
  split; [reflexivity|]. apply Stable_hash2D_range.
Qed.

Lemma smoothstep_range (t : Q) :
  (0 <= t)%Q -> (t <= 1)%Q ->
  (0 <= Stable.smoothstep t)%Q /\ (Stable.smoothstep t <= 1)%Q.
Proof.
  intros H0 H1. unfold Stable.smoothstep. split.
  - apply Qmult_le_0_compat; [apply Qmult_le_0_compat|]; lra.
  - assert (0 <= (1 - t) * (1 - t) * (1 + 2 * t))%Q as H
      by (apply Qmult_le_0_compat; [apply Qmult_le_0_compat|]; lra).
    assert ((1 - t) * (1 - t) * (1 + 2 * t) == 1 - t * t * (3 - 2 * t))%Q as E by ring.
    rewrite E in H. lra.
Qed.

Lemma lerp_range (a b s : Q) :
  (0 <= a)%Q -> (a < 1)%Q -> (0 <= b)%Q -> (b < 1)%Q -> (0 <= s)%Q -> (s <= 1)%Q ->
  (0 <= Stable.lerp a b s)%Q /\ (Stable.lerp a b s < 1)%Q.
Proof.
  intros Ha0 Ha1 Hb0 Hb1 Hs0 Hs1. unfold Stable.lerp.
  assert (a + (b - a) * s == a * (1 - s) + b * s)%Q as E by ring.
  assert (0 <= a * (1 - s))%Q by (apply Qmult_le_0_compat; lra).
  assert (0 <= b * s)%Q by (apply Qmult_le_0_compat; lra).
  assert (0 <= (1 - a) * (1 - s))%Q by (apply Qmult_le_0_compat; lra).
  assert (0 <= (1 - b) * s)%Q by (apply Qmult_le_0_compat; lra).
  assert (1 - (a * (1 - s) + b * s) == (1 - a) * (1 - s) + (1 - b) * s)%Q as E2 by ring.
  rewrite E. split; [lra|].
  destruct (Qlt_le_dec 0 s) as [Hs|Hs].
  - assert (0 < (1 - b) * s)%Q by (apply Qmult_lt_0_compat; lra). lra.
  - assert (s == 0)%Q as Hz by lra. rewrite Hz in *. lra.
Qed.

Lemma fraction_range (x : Q) :
  (0 <= x - inject_Z (Js.floor x))%Q /\ (x - inject_Z (Js.floor x) <= 1)%Q.
Proof.
  unfold Js.floor. pose proof (Qfloor_le x) as H0. pose proof (Qlt_floor x) as H1.
  rewrite inject_Z_plus in H1. change (inject_Z 1) with 1%Q in H1. split; lra.
Qed.

Lemma noise1D_range (x : Q) : (0 <= Stable.noise1D x)%Q /\ (Stable.noise1D x < 1)%Q.
Proof.
  unfold Stable.noise1D.
  destruct (fraction_range x) as [Hf0 Hf1].
  destruct (smoothstep_range _ Hf0 Hf1) as [Hs0 Hs1].
  destruct (Stable_hash2D_range (Js.floor x) 0) as [Ha0 Ha1].
  destruct (Stable_hash2D_range (Js.floor x + 1) 0) as [Hb0 Hb1].
  exact (lerp_range _ _ _ Ha0 Ha1 Hb0 Hb1 Hs0 Hs1).
Qed.

Lemma noise2D_range (x y : Q) : (0 <= Stable.noise2D x y)%Q /\ (Stable.noise2D x y < 1)%Q.
Proof.
  unfold Stable.noise2D.
  destruct (fraction_range x) as [Hx0 Hx1]. destruct (fraction_range y) as [Hy0 Hy1].
  destruct (smoothstep_range _ Hx0 Hx1) as [Hsx0 Hsx1].
  destruct (smoothstep_range _ Hy0 Hy1) as [Hsy0 Hsy1].
  destruct (Stable_hash2D_range (Js.floor x) (Js.floor y)) as [H1 H2].
  destruct (Stable_hash2D_range (Js.floor x + 1) (Js.floor y)) as [H3 H4].
  destruct (Stable_hash2D_range (Js.floor x) (Js.floor y + 1)) as [H5 H6].
  destruct (Stable_hash2D_range (Js.floor x + 1) (Js.floor y + 1)) as [H7 H8].
  destruct (lerp_range _ _ _ H1 H2 H3 H4 Hsx0 Hsx1) as [Hl1 Hl2].
  destruct (lerp_range _ _ _ H5 H6 H7 H8 Hsx0 Hsx1) as [Hl3 Hl4].
  exact (lerp_range _ _ _ Hl1 Hl2 Hl3 Hl4 Hsy0 Hsy1).
Qed.

(** X4: the value noise stays in [0, 1): [noise1D] and [noise2D] blend
    hash values with smoothstep weights in [0, 1], and at an integer
    [noise1D] is the hash of that lattice point. *)
Theorem Stable_noise_in_unit_interval (x y : Q) (n : Z) :
  ((0 <= Stable.noise1D x)%Q /\ (Stable.noise1D x < 1)%Q)
  /\ ((0 <= Stable.noise2D x y)%Q /\ (Stable.noise2D x y < 1)%Q)
  /\ (Stable.noise1D (inject_Z n) == Stable.hash2D n 0)%Q.
Proof.
  split; [apply noise1D_range|]. split; [apply noise2D_range|].
  unfold Stable.noise1D, Js.floor. rewrite Qfloor_Z.
  unfold Stable.lerp, Stable.smoothstep. ring.
Qed.

Lemma floor_of_scaled_unit (v : Q) (k : Z) :
  0 < k -> (0 <= v)%Q -> (v < 1)%Q -> 0 <= Js.floor (v * inject_Z k)%Q <= k - 1.
Proof.
  intros Hk H0 H1. unfold Js.floor.
  assert (0 < inject_Z k)%Q as Hkq by (change 0%Q with (inject_Z 0); by rewrite <- Zlt_Qlt).
  split.
  - apply Qfloor_ge. change (inject_Z 0) with 0%Q. by apply Qmult_le_0_compat; [|lra].
  - apply Z.lt_succ_r. replace (Z.succ (k - 1)) with k by lia. apply Qfloor_lt.
    rewrite <- (Qmult_1_l (inject_Z k)) at 2. by apply Qmult_lt_compat_r.
Qed.

Lemma treeHeight_range (wx : Z) :
  4 <= 4 + Js.floor (Stable.noise1D (inject_Z wx * 0.9) * 3)%Q <= 6.
Proof.
  destruct (noise1D_range (inject_Z wx * 0.9)) as [H0 H1].
  pose proof (floor_of_scaled_unit _ 3 ltac:(lia) H0 H1) as H. 
  change (inject_Z 3) with 3%Q in H. lia.
Qed.

Lemma groundLevel_unclamped (wx : Z) :
  Stable.groundLevel wx
  = Js.floor (35 + Stable.noise1D (inject_Z wx * 0.06) * 8
                 + Stable.noise1D (inject_Z wx * 0.012) * 18)%Q
  /\ 35 <= Stable.groundLevel wx <= 60.
Proof.
  unfold Stable.groundLevel, Stable.clampInt, WORLD_H.
  destruct (noise1D_range (inject_Z wx * 0.06)) as [Ha0 Ha1].
  destruct (noise1D_range (inject_Z wx * 0.012)) as [Hb0 Hb1].
  set (g := Js.floor _).
  assert (35 <= g <= 60) as Hg.
  { unfold g, Js.floor. split.
    - apply Qfloor_ge. change (inject_Z 35) with 35%Q. lra.
    - apply Z.lt_succ_r. apply Qfloor_lt. change (inject_Z (Z.succ 60)) with 61%Q. lra. }
  lia.
Qed.

(** X6: the ground level of every column lies in rows 35 to 60, so the
    clamp to [10, WORLD_H - 2] in [generateChunk] never changes it. *)
Theorem ground_level_is_35_to_60 (wx : Z) :
  Stable.groundLevel wx
  = Js.floor (35 + Stable.noise1D (inject_Z wx * 0.06) * 8
                 + Stable.noise1D (inject_Z wx * 0.012) * 18)%Q
  /\ 35 <= Stable.groundLevel wx <= 60.
Proof. apply groundLevel_unclamped. Qed.

(** ** What the generator writes *)

Opaque Stable.groundLevel Stable.noise1D Stable.noise2D Stable.hash2D.

Lemma grid_set_inv (c c' : Chunk) (y x v : Z) :
  grid_set c y x v = Js.Value c' ->
  0 <= y /\ exists row, c !! Z.to_nat y = Some row /\ 0 <= x < Z.of_nat (length row)
                        /\ c' = <[Z.to_nat y := <[Z.to_nat x := v]> row]> c.
Proof.
  unfold grid_set. destruct (y <? 0) eqn:E1; [done|]. apply Z.ltb_ge in E1.
  destruct (c !! Z.to_nat y) as [row|] eqn:Hrow; [|done].
  destruct (x <? 0) eqn:E2; [done|]. apply Z.ltb_ge in E2.
  destruct (Z.of_nat (length row) <=? x) eqn:E3; [done|]. apply Z.leb_gt in E3.
  simpl. intros [= <-]. split; [done|]. exists row. by repeat split.
Qed.

Lemma grid_get_set_same (c c' : Chunk) (y x v : Z) :
  grid_set c y x v = Js.Value c' -> grid_get c' y x = Js.Value v.
Proof.
  intros E. apply grid_set_inv in E as (Hy & row & Hrow & Hx & ->).
  unfold grid_get. destruct (y <? 0) eqn:E1; [apply Z.ltb_lt in E1; lia|].
  rewrite list_lookup_insert_eq by (apply lookup_lt_Some in Hrow; lia).
  destruct (x <? 0) eqn:E2; [apply Z.ltb_lt in E2; lia|].
  by rewrite list_lookup_insert_eq by lia.
Qed.

Lemma grid_get_set_other (c c' : Chunk) (y x v y' x' : Z) :
  grid_set c y x v = Js.Value c' -> y' <> y \/ x' <> x ->
  grid_get c' y' x' = grid_get c y' x'.
Proof.
  intros E Hne. apply grid_set_inv in E as (Hy & row & Hrow & Hx & ->).
  unfold grid_get. destruct (y' <? 0) eqn:E1; [done|]. apply Z.ltb_ge in E1.
  destruct (decide (y' = y)) as [->|Hy'].
  - rewrite list_lookup_insert_eq by (apply lookup_lt_Some in Hrow; lia). rewrite Hrow.
    destruct (x' <? 0) eqn:E2; [done|]. apply Z.ltb_ge in E2.
    rewrite list_lookup_insert_ne by lia. done.
  - rewrite list_lookup_insert_ne by lia. done.
Qed.

Lemma foldl_result_keeps {A} (I : A -> Prop) (body : Z -> A -> Js.result A) (Q : Z -> Prop)
    (l : list Z) (a a' : A) :
  Forall Q l -> I a ->
  (forall i a a1, Q i -> I a -> body i a = Js.Value a1 -> I a1) ->
  foldl (fun acc i => a' ← acc; body i a') (Js.Value a) l = Js.Value a' -> I a'.
Proof.
  intros Hl Ha Hbody. revert a Ha. induction Hl as [|i l Hi _ IH]; intros a Ha; cbn [foldl].
  - by intros [= <-].
  - rewrite result_bind_value. destruct (body i a) as [a1|e] eqn:E.
    + apply IH. by apply (Hbody i a).
    + by rewrite foldl_result_raise.
Qed.

Lemma for_range_keeps {A} (I : A -> Prop) (lo hi : Z) (body : Z -> A -> Js.result A) (a a' : A) :
  I a ->
  (forall i a a1, lo <= i < hi -> I a -> body i a = Js.Value a1 -> I a1) ->
  for_range lo hi body a = Js.Value a' -> I a'.
Proof.
  intros Ha Hbody. unfold for_range.
  apply (foldl_result_keeps I body (fun i => lo <= i < hi)); [|done|done].
  apply Forall_forall. intros i Hi. apply elem_of_seqZ in Hi. lia.
Qed.

Lemma foldl_seqZ_ind {A} (P : Z -> A -> Prop) (body : Z -> A -> Js.result A)
    (n : nat) (lo : Z) (a a' : A) :
  P lo a ->
  (forall i a a1, lo <= i < lo + Z.of_nat n -> P i a -> body i a = Js.Value a1 -> P (i + 1) a1) ->
  foldl (fun acc i => a' ← acc; body i a') (Js.Value a) (seqZ lo (Z.of_nat n)) = Js.Value a' ->
  P (lo + Z.of_nat n) a'.
Proof.
  revert lo a. induction n as [|n IH]; intros lo a Ha Hbody.
  - simpl. intros [= <-]. by rewrite Z.add_0_r.
  - rewrite seqZ_cons by lia. cbn [foldl]. rewrite result_bind_value.
    destruct (body lo a) as [a1|e] eqn:E; [|by rewrite foldl_result_raise].
    replace (Z.pred (Z.of_nat (S n))) with (Z.of_nat n) by lia.
    replace (lo + Z.of_nat (S n)) with (Z.succ lo + Z.of_nat n) by lia.
    apply IH.
    + replace (Z.succ lo) with (lo + 1) by lia. apply (Hbody lo a); [lia|done|done].
    + intros i b b1 Hi. apply Hbody. lia.
Qed.

Lemma for_range_ind {A} (P : Z -> A -> Prop) (lo hi : Z) (body : Z -> A -> Js.result A) (a a' : A) :
  lo <= hi -> P lo a ->
  (forall i a a1, lo <= i < hi -> P i a -> body i a = Js.Value a1 -> P (i + 1) a1) ->
  for_range lo hi body a = Js.Value a' -> P hi a'.
Proof.
  intros Hle Ha Hbody. unfold for_range.
  replace (hi - lo) with (Z.of_nat (Z.to_nat (hi - lo))) by lia.
  replace hi with (lo + Z.of_nat (Z.to_nat (hi - lo))) at 2 by lia.
  apply foldl_seqZ_ind; [done|]. intros i b b1 Hi. apply Hbody. lia.
Qed.

Lemma result_bind_inv {A B} (r : Js.result A) (k : A -> Js.result B) (b : B) :
  (x ← r; k x) = Js.Value b -> exists a, r = Js.Value a /\ k a = Js.Value b.
Proof. destruct r as [a|e]; [|done]. intros E. by exists a. Qed.

(** *** The trunk of a tree *)

Lemma grid_get_in_range (c : Chunk) (y x b : Z) :
  chunk_wf c -> grid_get c y x = Js.Value b -> 0 <= y < WORLD_H /\ 0 <= x < CHUNK_W.
Proof.
  intros [Hlen Hrows]. unfold grid_get.
  destruct (y <? 0) eqn:E1; [done|]. apply Z.ltb_ge in E1.
  destruct (c !! Z.to_nat y) as [row|] eqn:Hrow; [|done].
  destruct (x <? 0) eqn:E2; [done|]. apply Z.ltb_ge in E2.
  destruct (row !! Z.to_nat x) as [b'|] eqn:Hcell; [|done]. intros _.
  pose proof (Forall_lookup_1 _ _ _ _ Hrows Hrow) as Hrl. cbn in Hrl.
  apply lookup_lt_Some in Hrow, Hcell. lia.
Qed.

(** Over Air the trunk loop writes a Log into each of its rows and
    nothing else. *)
Lemma placeTrunk_logs (lx baseY : Z) (n : nat) (a : Z) (c : Chunk) :
  chunk_wf c -> 0 <= lx < CHUNK_W -> baseY < WORLD_H -> 0 <= a ->
  0 <= baseY - (a + Z.of_nat n) + 1 ->
  (forall i, a <= i < a + Z.of_nat n -> grid_get c (baseY - i) lx = Js.Value BLOCK.AIR) ->
  exists c',
    Stable.placeTrunk c lx baseY (seqZ a (Z.of_nat n)) = Js.Value c'
    /\ chunk_wf c'
    /\ (forall i, a <= i < a + Z.of_nat n -> grid_get c' (baseY - i) lx = Js.Value BLOCK.LOG)
    /\ (forall y x, ~ (x = lx /\ baseY - (a + Z.of_nat n) < y <= baseY - a) ->
          grid_get c' y x = grid_get c y x).
Proof.
  intros Hwf Hlx Hbase. revert a c Hwf.
  induction n as [|n IH]; intros a c Hwf Ha Htop Hair.
  - exists c. cbn. split; [done|]. split; [done|]. split; [intros i Hi; lia|done].
  - rewrite seqZ_cons by lia. cbn [Stable.placeTrunk].
    destruct (baseY - a <? 0) eqn:E; [apply Z.ltb_lt in E; lia|]. apply Z.ltb_ge in E.
    rewrite (Hair a) by lia. rewrite result_bind_value.
    change (BLOCK.AIR =? BLOCK.AIR) with true. cbv iota.
    destruct (grid_set_wf c (baseY - a) lx BLOCK.LOG Hwf) as (c1 & E1 & Hwf1); [lia|done|].
    rewrite E1, result_bind_value.
    replace (Z.pred (Z.of_nat (S n))) with (Z.of_nat n) by lia.
    destruct (IH (Z.succ a) c1 Hwf1) as (c' & E' & Hwf' & Hlog & Hrest); [lia|lia| |].
    { intros i Hi. rewrite (grid_get_set_other c c1 _ _ _ _ _ E1) by lia. apply Hair. lia. }
    exists c'. split; [exact E'|]. split; [exact Hwf'|]. split.
    + intros i Hi. destruct (decide (i = a)) as [->|Hne]; [|apply Hlog; lia].
      rewrite Hrest by lia. by apply (grid_get_set_same c).
    + intros y x Hout. rewrite Hrest by lia.
      apply (grid_get_set_other c c1 _ _ _ _ _ E1). lia.
Qed.

(** A leaf goes into an Air cell only. *)
Lemma placeLeaf_fills_air (lx topY dy dx : Z) (c : Chunk) :
  chunk_wf c ->
  exists c',
    Stable.placeLeaf lx topY dy dx c = Js.Value c'
    /\ chunk_wf c'
    /\ forall y x b, grid_get c y x = Js.Value b ->
         (b <> BLOCK.AIR -> grid_get c' y x = Js.Value b)
         /\ (b = BLOCK.AIR ->
             grid_get c' y x = Js.Value BLOCK.AIR \/ grid_get c' y x = Js.Value BLOCK.LEAVES).
Proof.
  intros Hwf.
  assert (forall y x b, grid_get c y x = Js.Value b ->
            (b <> BLOCK.AIR -> grid_get c y x = Js.Value b)
            /\ (b = BLOCK.AIR ->
                grid_get c y x = Js.Value BLOCK.AIR \/ grid_get c y x = Js.Value BLOCK.LEAVES))
    as Hsame.
  { intros y x b Hb. split; [done|]. intros ->. by left. }
  unfold Stable.placeLeaf.
  destruct (topY + dy <? 0) eqn:E1; [by exists c|].
  destruct (WORLD_H <=? topY + dy) eqn:E2; [by exists c|].
  destruct (lx + dx <? 0) eqn:E3; [by exists c|].
  destruct (CHUNK_W <=? lx + dx) eqn:E4; [by exists c|]. cbn [orb].
  apply Z.ltb_ge in E1, E3. apply Z.leb_gt in E2, E4.
  destruct (Z.abs dx + Z.abs dy <=? 3); [|by exists c].
  destruct (grid_get_wf c (topY + dy) (lx + dx) Hwf) as [b0 Hb0]; [lia|lia|].
  rewrite Hb0, result_bind_value.
  destruct (b0 =? BLOCK.AIR) eqn:Eb; [|by exists c]. apply Z.eqb_eq in Eb. subst b0.
  destruct (grid_set_wf c (topY + dy) (lx + dx) BLOCK.LEAVES Hwf) as (c' & E' & Hwf');
    [lia|lia|].
  exists c'. split; [exact E'|]. split; [exact Hwf'|].
  intros y x b Hb.
  destruct (decide (y = topY + dy /\ x = lx + dx)) as [[-> ->]|Hne].
  - rewrite Hb0 in Hb. injection Hb as <-. split; [done|]. intros _. right.
    by apply (grid_get_set_same c).
  - rewrite (grid_get_set_other c c' _ _ _ _ _ E') by lia. by apply Hsame.
Qed.

(** The two leaf loops change Air cells only, and into Leaves. *)
Lemma leaves_fill_air (lx topY : Z) (c1 : Chunk) :
  chunk_wf c1 ->
  exists c',
    for_range (-2) 3
      (fun dy => for_range (-2) 3 (fun dx => Stable.placeLeaf lx topY dy dx)) c1 = Js.Value c'
    /\ chunk_wf c'
    /\ forall y x b, grid_get c1 y x = Js.Value b ->
         (b <> BLOCK.AIR -> grid_get c' y x = Js.Value b)
         /\ (b = BLOCK.AIR ->
             grid_get c' y x = Js.Value BLOCK.AIR \/ grid_get c' y x = Js.Value BLOCK.LEAVES).
Proof.
  intros Hwf1.
  set (P := fun a : Chunk =>
              chunk_wf a
              /\ forall y x b, grid_get c1 y x = Js.Value b ->
                   (b <> BLOCK.AIR -> grid_get a y x = Js.Value b)
                   /\ (b = BLOCK.AIR ->
                       grid_get a y x = Js.Value BLOCK.AIR
                       \/ grid_get a y x = Js.Value BLOCK.LEAVES)).
  assert (P c1) as HP1.
  { split; [done|]. intros y x b Hb. split; [done|]. intros ->. by left. }
  destruct (for_range_inv P (-2) 3
              (fun dy => for_range (-2) 3 (fun dx => Stable.placeLeaf lx topY dy dx)) c1)
    as (c' & E & Hwf' & Hc'); [|exact HP1|by exists c'].
  intros dy a _ Ha. apply for_range_inv; [|exact Ha].
  intros dx a2 _ [Hwf2 Ha2].
  destruct (placeLeaf_fills_air lx topY dy dx a2 Hwf2) as (a3 & E3 & Hwf3 & Hstep).
  exists a3. split; [exact E3|]. split; [exact Hwf3|].
  intros y x b Hb. destruct (Ha2 y x b Hb) as [Hkeep Hair]. split.
  - intros Hne. by apply (Hstep y x b (Hkeep Hne)).
  - intros ->. destruct (Hair eq_refl) as [H|H].
    + by apply (Hstep y x BLOCK.AIR H).
    + right. by apply (Hstep y x BLOCK.LEAVES H).
Qed.

(** X5: a tree is 4 to 6 blocks high.  On a column whose six cells up
    from the base row are Air, [placeTree] returns a chunk whose Log
    cells are those the chunk had and, in that column, the rows of a
    trunk of 4, 5 or 6 blocks standing on the base row; it overwrites
    nothing but Air. *)
Theorem tree_height_is_4_to_6 (chunkData : Chunk) (lx baseY wx : Z) :
  chunk_wf chunkData -> 0 <= lx < CHUNK_W -> 5 <= baseY < WORLD_H ->
  (forall i, 0 <= i <= 5 -> grid_get chunkData (baseY - i) lx = Js.Value BLOCK.AIR) ->
  exists height c',
    4 <= height <= 6
    /\ Stable.placeTree chunkData lx baseY wx = Js.Value c'
    /\ chunk_wf c'
    /\ (forall y x, grid_get c' y x = Js.Value BLOCK.LOG <->
          grid_get chunkData y x = Js.Value BLOCK.LOG
          \/ (x = lx /\ baseY - height < y <= baseY))
    /\ (forall y x b, grid_get chunkData y x = Js.Value b -> b <> BLOCK.AIR ->
          grid_get c' y x = Js.Value b).
Proof.
  intros Hwf Hlx Hbase Hair.
  pose proof (treeHeight_range wx) as Hh.
  unfold Stable.placeTree. cbv zeta.
  set (height := 4 + Js.floor (Stable.noise1D (inject_Z wx * 0.9) * 3)%Q) in *.
  clearbody height.
  destruct (placeTrunk_logs lx baseY (Z.to_nat height) 0 chunkData Hwf Hlx)
    as (c1 & E1 & Hwf1 & Hlog & Hrest); [lia|lia|lia| |].
  { intros i Hi. apply Hair. lia. }
  rewrite Z2Nat.id in E1, Hlog, Hrest by lia.
  rewrite E1, result_bind_value.
  destruct (leaves_fill_air lx (baseY - (height - 1)) c1 Hwf1) as (c' & E' & Hwf' & Hleaf).
  exists height, c'. split; [exact Hh|]. split; [exact E'|]. split; [exact Hwf'|].
  assert (forall y x, x = lx /\ baseY - height < y <= baseY ->
            grid_get c1 y x = Js.Value BLOCK.LOG) as Htrunk.
  { intros y x [-> Hy]. replace y with (baseY - (baseY - y)) by lia. apply Hlog. lia. }
  assert (forall y x, x = lx /\ baseY - height < y <= baseY ->
            grid_get chunkData y x = Js.Value BLOCK.AIR) as Hwas.
  { intros y x [-> Hy]. replace y with (baseY - (baseY - y)) by lia. apply Hair. lia. }
  split.
  - intros y x. split.
    + intros Hc'.
      destruct (grid_get_in_range c' y x _ Hwf' Hc') as [Hy Hx].
      destruct (grid_get_wf c1 y x Hwf1 Hy Hx) as [b Hb].
      destruct (Hleaf y x b Hb) as [Hkeep Hfill].
      destruct (decide (b = BLOCK.AIR)) as [->|Hne].
      * destruct (Hfill eq_refl) as [H|H]; rewrite H in Hc'; discriminate Hc'.
      * rewrite (Hkeep Hne) in Hc'. injection Hc' as ->.
        destruct (decide (x = lx /\ baseY - height < y <= baseY)) as [Hin|Hout];
          [by right|left]. rewrite <- (Hrest y x) by lia. exact Hb.
    + intros [Hold|Hin].
      * assert (~ (x = lx /\ baseY - height < y <= baseY)) as Hout.
        { intros Hin. rewrite (Hwas y x Hin) in Hold. discriminate Hold. }
        apply (Hleaf y x BLOCK.LOG); [|done]. rewrite Hrest by lia. exact Hold.
      * apply (Hleaf y x BLOCK.LOG); [by apply Htrunk|done].
  - intros y x b Hb Hne.
    assert (~ (x = lx /\ baseY - height < y <= baseY)) as Hout.
    { intros Hin. rewrite (Hwas y x Hin) in Hb. by injection Hb as <-. }
    apply (Hleaf y x b); [|done]. rewrite Hrest by lia. exact Hb.
Qed.

Lemma tree_height_is_4_to_6_witness :
  chunk_wf (floorChunk 12)
  /\ 0 <= 5 < CHUNK_W
  /\ 5 <= 11 < WORLD_H
  /\ (forall i, 0 <= i <= 5 -> grid_get (floorChunk 12) (11 - i) 5 = Js.Value BLOCK.AIR)
  /\ exists height c',
       4 <= height <= 6
       /\ Stable.placeTree (floorChunk 12) 5 11 0 = Js.Value c'
       /\ chunk_wf c'
       /\ (forall y x, grid_get c' y x = Js.Value BLOCK.LOG <->
             grid_get (floorChunk 12) y x = Js.Value BLOCK.LOG
             \/ (x = 5 /\ 11 - height < y <= 11))
       /\ (forall y x b, grid_get (floorChunk 12) y x = Js.Value b -> b <> BLOCK.AIR ->
             grid_get c' y x = Js.Value b).
Proof.
  assert (forall i, 0 <= i <= 5 -> grid_get (floorChunk 12) (11 - i) 5 = Js.Value BLOCK.AIR)
    as Hair.
  { intros i Hi.
    assert (i = 0 \/ i = 1 \/ i = 2 \/ i = 3 \/ i = 4 \/ i = 5) as Hcases by lia.
    destruct Hcases as [->|[->|[->|[->|[->| ->]]]]]; reflexivity. }
  split; [apply floorChunk_wf|]. split; [unfold CHUNK_W; lia|].
  split; [unfold WORLD_H; lia|]. split; [exact Hair|].
  apply (tree_height_is_4_to_6 (floorChunk 12) 5 11 0);
    [apply floorChunk_wf|unfold CHUNK_W; lia|unfold WORLD_H; lia|exact Hair].
Defined.

(** *** The column loop *)

Lemma generateColumn_eq (cx lx : Z) (c : Chunk) :
  Stable.generateColumn cx lx c
  = (c1 ← for_range (Stable.groundLevel (cx * CHUNK_W + lx)) WORLD_H
            (Stable.fillGround lx (Stable.groundLevel (cx * CHUNK_W + lx))) c;
     columnDetail cx lx c1).
Proof. unfold Stable.generateColumn, columnDetail. reflexivity. Qed.

Section ColumnWrites.

Variable I : Chunk -> Prop.
Variables cx lx groundY : Z.

Hypothesis groundY_eq : Stable.groundLevel (cx * CHUNK_W + lx) = groundY.

Hypothesis I_detail : forall c y x v c1,
  I c -> detailWrite groundY lx c y x v -> grid_set c y x v = Js.Value c1 -> I c1.

Lemma placeTrunk_keeps (steps : list Z) (c c' : Chunk) :
  Forall (fun i => 0 <= i <= 5) steps -> I c ->
  Stable.placeTrunk c lx (groundY - 1) steps = Js.Value c' -> I c'.
Proof.
  intros Hsteps. revert c. induction Hsteps as [|i steps Hi _ IH]; intros c Hc;
    cbn [Stable.placeTrunk].
  - by intros [= <-].
  - destruct (groundY - 1 - i <? 0) eqn:E; [by intros [= <-]|]. apply Z.ltb_ge in E.
    intros H. apply result_bind_inv in H as (b & Hb & H).
    apply result_bind_inv in H as (c1 & Hc1 & H).
    apply (IH c1); [|done].
    destruct (b =? BLOCK.AIR) eqn:Eb.
    + apply Z.eqb_eq in Eb. subst b.
      apply (I_detail c (groundY - 1 - i) lx BLOCK.LOG); [done| |done].
      apply write_trunk; [lia|lia|done].
    + by injection Hc1 as <-.
Qed.

Lemma placeTree_keeps (c c' : Chunk) :
  I c -> Stable.placeTree c lx (groundY - 1) (cx * CHUNK_W + lx) = Js.Value c' -> I c'.
Proof.
  intros Hc. unfold Stable.placeTree.
  pose proof (treeHeight_range (cx * CHUNK_W + lx)) as Hh.
  set (height := 4 + Js.floor _) in *. clearbody height.
  intros H. apply result_bind_inv in H as (c1 & Hc1 & H).
  assert (I c1) as HI1.
  { apply (placeTrunk_keeps (seqZ 0 height) c); [|done|done].
    apply Forall_forall. intros i Hi. apply elem_of_seqZ in Hi. lia. }
  revert H. apply for_range_keeps; [done|]. intros dy c2 c3 Hdy Hc2.
  apply for_range_keeps; [done|]. intros dx c4 c5 Hdx Hc4.
  unfold Stable.placeLeaf.
  destruct ((groundY - 1 - (height - 1) + dy <? 0) || (WORLD_H <=? groundY - 1 - (height - 1) + dy));
    [by intros [= <-]|].
  destruct ((lx + dx <? 0) || (CHUNK_W <=? lx + dx)); [by intros [= <-]|].
  destruct (Z.abs dx + Z.abs dy <=? 3); [|by intros [= <-]].
  intros H. apply result_bind_inv in H as (b & Hb & H).
  destruct (b =? BLOCK.AIR) eqn:Eb; [|by injection H as <-].
  apply Z.eqb_eq in Eb. subst b.
  apply (I_detail c4 (groundY - 1 - (height - 1) + dy) (lx + dx) BLOCK.LEAVES c5 Hc4); [|done].
  apply write_leaf; [lia|lia|done].
Qed.

(** Every write after the ground fill is a [detailWrite]. *)
Lemma columnDetail_keeps (c c' : Chunk) :
  I c -> columnDetail cx lx c = Js.Value c' -> I c'.
Proof.
  intros Hc. unfold columnDetail. rewrite groundY_eq.
  intros H. apply result_bind_inv in H as (c1 & Hc1 & H).
  assert (I c1) as HI1.
  { revert Hc1. apply for_range_keeps; [done|]. intros y a a1 Hy Ha.
    unfold Stable.carveCave. destruct (Js.gt _ 0.70); [|by intros [= <-]].
    apply (I_detail a y lx BLOCK.AIR a1 Ha). by apply write_cave. }
  apply result_bind_inv in H as (c2 & Hc2 & H).
  assert (I c2) as HI2.
  { revert Hc2. apply for_range_keeps; [done|]. intros y a a1 Hy Ha.
    unfold Stable.placeOre. intros H2. apply result_bind_inv in H2 as (b & Hb & H2).
    destruct (b =? BLOCK.STONE) eqn:Eb; [|by injection H2 as <-].
    apply Z.eqb_eq in Eb. subst b. cbn [negb] in H2.
    change (BLOCK.STONE =? BLOCK.STONE) with true in H2. cbn [negb] in H2.
    apply result_bind_inv in H2 as (a2 & Ha2 & H2).
    assert (I a2 /\ exists b2, grid_get a2 y lx = Js.Value b2
                               /\ (b2 = BLOCK.STONE \/ b2 = BLOCK.COAL)) as [HIa2 (b2 & Hb2 & Hb2v)].
    { destruct (Js.gt _ 0.82).
      - split.
        + apply (I_detail a y lx BLOCK.COAL a2 Ha); [|done].
          apply (write_ore _ _ _ y BLOCK.COAL BLOCK.STONE); auto.
        + exists BLOCK.COAL. split; [by apply (grid_get_set_same a)|by right].
      - injection Ha2 as <-. split; [done|]. exists BLOCK.STONE. split; [done|by left]. }
    destruct (50 <? y) eqn:E50; [|by injection H2 as <-]. apply Z.ltb_lt in E50.
    destruct (Js.gt _ 0.88); [|by injection H2 as <-]. cbn [andb] in H2.
    apply (I_detail a2 y lx BLOCK.IRON a1 HIa2); [|done].
    apply (write_ore _ _ _ y BLOCK.IRON b2); auto. }
  destruct (Js.gt _ 0.86); [|by injection H as <-].
  apply result_bind_inv in H as (b & Hb & H).
  destruct (b =? BLOCK.GRASS); [|by injection H as <-].
  by apply (placeTree_keeps c2).
Qed.

End ColumnWrites.

Lemma fillGround_eq (lx groundY y : Z) (data : Chunk) :
  Stable.fillGround lx groundY y data = grid_set data y lx (fillBlock groundY y).
Proof.
  unfold Stable.fillGround, fillBlock.
  destruct (y =? groundY); [done|]. by destruct (y <? groundY + 4).
Qed.

(** Every write of [generateChunk] is a ground fill or a [detailWrite]
    of some column: a property of chunks that the empty grid has and that
    those writes keep holds of the generated chunk. *)
Lemma generateChunk_keeps (I : Chunk -> Prop) (cx : Z) (c' : Chunk) :
  I (replicate (Z.to_nat WORLD_H) (replicate (Z.to_nat CHUNK_W) BLOCK.AIR)) ->
  (forall lx c y c1, 0 <= lx < CHUNK_W -> I c ->
     Stable.groundLevel (cx * CHUNK_W + lx) <= y < WORLD_H ->
     grid_set c y lx (fillBlock (Stable.groundLevel (cx * CHUNK_W + lx)) y) = Js.Value c1 ->
     I c1) ->
  (forall lx c y x v c1, 0 <= lx < CHUNK_W -> I c ->
     detailWrite (Stable.groundLevel (cx * CHUNK_W + lx)) lx c y x v ->
     grid_set c y x v = Js.Value c1 -> I c1) ->
  Stable.generateChunk cx = Js.Value c' -> I c'.
Proof.
  intros Hinit Hfill Hdetail. unfold Stable.generateChunk.
  apply for_range_keeps; [done|]. intros lx c c2 Hlx Hc.
  rewrite generateColumn_eq. intros H. apply result_bind_inv in H as (c1 & Hc1 & H).
  assert (I c1) as HI1.
  { revert Hc1. apply for_range_keeps; [done|]. intros y a a1 Hy Ha.
    rewrite fillGround_eq. by apply Hfill. }
  revert H. apply (columnDetail_keeps I cx lx _ eq_refl); [|done].
  intros a y x v a1 Ha. by apply Hdetail.
Qed.

Lemma cells_write (Pcell : Z -> Z -> Z -> Prop) (c c1 : Chunk) (y x v : Z) :
  (forall y' x' b, grid_get c y' x' = Js.Value b -> Pcell y' x' b) ->
  Pcell y x v -> grid_set c y x v = Js.Value c1 ->
  forall y' x' b, grid_get c1 y' x' = Js.Value b -> Pcell y' x' b.
Proof.
  intros Hc Hv Hset y' x' b Hb.
  destruct (decide (y' = y /\ x' = x)) as [[-> ->]|Hne].
  - rewrite (grid_get_set_same c c1 y x v Hset) in Hb. by injection Hb as <-.
  - rewrite (grid_get_set_other c c1 y x v y' x' Hset) in Hb by lia. by apply Hc.
Qed.

Lemma air_grid_get (y x b : Z) :
  grid_get (replicate (Z.to_nat WORLD_H) (replicate (Z.to_nat CHUNK_W) BLOCK.AIR)) y x
    = Js.Value b -> b = BLOCK.AIR.
Proof.
  unfold grid_get. destruct (y <? 0); [done|].
  destruct (replicate _ _ !! Z.to_nat y) as [row|] eqn:Hrow; [|done].
  apply lookup_replicate in Hrow as [-> _].
  destruct (x <? 0); [done|].
  destruct (replicate _ _ !! Z.to_nat x) as [b'|] eqn:Hcell; [|done].
  apply lookup_replicate in Hcell as [-> _]. by intros [= <-].
Qed.

(** A property of single cells that Air has everywhere and that every
    written block has where it is written holds of every cell of the
    generated chunk. *)
Lemma generateChunk_cells (Pcell : Z -> Z -> Z -> Prop) (cx : Z) (c' : Chunk) :
  (forall y x, Pcell y x BLOCK.AIR) ->
  (forall lx y, 0 <= lx < CHUNK_W ->
     Stable.groundLevel (cx * CHUNK_W + lx) <= y < WORLD_H ->
     Pcell y lx (fillBlock (Stable.groundLevel (cx * CHUNK_W + lx)) y)) ->
  (forall lx c y x v, 0 <= lx < CHUNK_W ->
     detailWrite (Stable.groundLevel (cx * CHUNK_W + lx)) lx c y x v -> Pcell y x v) ->
  Stable.generateChunk cx = Js.Value c' ->
  forall y x b, grid_get c' y x = Js.Value b -> Pcell y x b.
Proof.
  intros Hair Hfill Hdetail.
  apply (generateChunk_keeps
           (fun c => forall y x b, grid_get c y x = Js.Value b -> Pcell y x b)).
  - intros y x b Hb. apply air_grid_get in Hb as ->. apply Hair.
  - intros lx c y c1 Hlx Hc Hy Hset.
    apply (cells_write Pcell c c1 y lx
             (fillBlock (Stable.groundLevel (cx * CHUNK_W + lx)) y) Hc); [|done].
    by apply Hfill.
  - intros lx c y x v c1 Hlx Hc Hw Hset. apply (cells_write Pcell c c1 y x v Hc); [|done].
    by apply (Hdetail lx c).
Qed.

(** X7: [generateChunk] returns, for every chunk key, a [WORLD_H] by
    [CHUNK_W] grid in which every cell holds one of the eight block ids
    and the rows 0 to 26 are all Air: nothing, not even the leaves of the
    tallest tree on the highest ground, reaches above row 27. *)
Theorem generated_sky_is_air (cx : Z) :
  exists c,
    Stable.generateChunk cx = Js.Value c
    /\ chunk_wf c
    /\ forall y x b, grid_get c y x = Js.Value b ->
         BLOCK.AIR <= b <= BLOCK.IRON /\ (y < 27 -> b = BLOCK.AIR).
Proof.
  destruct (Stable_generateChunk_total cx) as (c & Hgen & Hwf).
  exists c. split; [done|]. split; [done|].
  apply (generateChunk_cells
           (fun y x b => BLOCK.AIR <= b <= BLOCK.IRON /\ (y < 27 -> b = BLOCK.AIR)) cx c);
    [| | |done].
  - intros y x. unfold BLOCK.AIR, BLOCK.IRON. lia.
  - intros lx y Hlx Hy. pose proof (groundLevel_unclamped (cx * CHUNK_W + lx)) as [_ Hg].
    unfold fillBlock, BLOCK.AIR, BLOCK.IRON, BLOCK.GRASS, BLOCK.DIRT, BLOCK.STONE.
    destruct (y =? _); [lia|]. destruct (y <? _); lia.
  - intros lx c0 y x v Hlx Hw.
    pose proof (groundLevel_unclamped (cx * CHUNK_W + lx)) as [_ Hg].
    destruct Hw as [y Hy|y v b Hy [->|[-> _]] _ _|y Hy0 Hy _|y x Hy Hx _];
      unfold BLOCK.AIR, BLOCK.IRON, BLOCK.COAL, BLOCK.LOG, BLOCK.LEAVES in *; lia.
Qed.

(** X8: the layers of a generated chunk.  In local column [x] with
    ground level [g]: Grass occurs only in row [g], Dirt only in the
    three rows under it, Stone, Coal and Iron only from row [g + 4] down,
    Iron only below row 50, and a Log only above row [g]. *)
Theorem generated_layers (cx : Z) :
  exists c,
    Stable.generateChunk cx = Js.Value c
    /\ chunk_wf c
    /\ forall y x b, grid_get c y x = Js.Value b ->
         (b = BLOCK.GRASS -> y = Stable.groundLevel (cx * CHUNK_W + x))
         /\ (b = BLOCK.DIRT ->
             Stable.groundLevel (cx * CHUNK_W + x) < y < Stable.groundLevel (cx * CHUNK_W + x) + 4)
         /\ (b = BLOCK.STONE \/ b = BLOCK.COAL \/ b = BLOCK.IRON ->
             Stable.groundLevel (cx * CHUNK_W + x) + 4 <= y)
         /\ (b = BLOCK.IRON -> 50 < y)
         /\ (b = BLOCK.LOG -> y < Stable.groundLevel (cx * CHUNK_W + x)).
Proof.
  destruct (Stable_generateChunk_total cx) as (c & Hgen & Hwf).
  exists c. split; [done|]. split; [done|].
  apply (generateChunk_cells
           (fun y x b =>
              (b = BLOCK.GRASS -> y = Stable.groundLevel (cx * CHUNK_W + x))
              /\ (b = BLOCK.DIRT ->
                  Stable.groundLevel (cx * CHUNK_W + x) < y
                  < Stable.groundLevel (cx * CHUNK_W + x) + 4)
              /\ (b = BLOCK.STONE \/ b = BLOCK.COAL \/ b = BLOCK.IRON ->
                  Stable.groundLevel (cx * CHUNK_W + x) + 4 <= y)
              /\ (b = BLOCK.IRON -> 50 < y)
              /\ (b = BLOCK.LOG -> y < Stable.groundLevel (cx * CHUNK_W + x))) cx c);
    [| | |done].
  - intros y x. unfold BLOCK.AIR, BLOCK.GRASS, BLOCK.DIRT, BLOCK.STONE, BLOCK.COAL,
      BLOCK.IRON, BLOCK.LOG. lia.
  - intros lx y Hlx Hy. unfold fillBlock.
    destruct (y =? _) eqn:E1; [apply Z.eqb_eq in E1|apply Z.eqb_neq in E1].
    + unfold BLOCK.GRASS, BLOCK.DIRT, BLOCK.STONE, BLOCK.COAL, BLOCK.IRON, BLOCK.LOG. lia.
    + destruct (y <? _) eqn:E2; [apply Z.ltb_lt in E2|apply Z.ltb_ge in E2];
        unfold BLOCK.GRASS, BLOCK.DIRT, BLOCK.STONE, BLOCK.COAL, BLOCK.IRON, BLOCK.LOG; lia.
  - intros lx c0 y x v Hlx Hw.
    destruct Hw as [y Hy|y v b Hy [->|[-> H50]] _ _|y Hy0 Hy _|y x Hy Hx _];
      unfold BLOCK.AIR, BLOCK.GRASS, BLOCK.DIRT, BLOCK.STONE, BLOCK.COAL, BLOCK.IRON,
        BLOCK.LOG, BLOCK.LEAVES; lia.
Qed.

Lemma fillBlock_not_air (groundY y : Z) : fillBlock groundY y <> BLOCK.AIR.
Proof.
  unfold fillBlock. destruct (y =? groundY); [done|]. by destruct (y <? groundY + 4).
Qed.

Lemma surfaced_detail (cx n : Z) (c c1 : Chunk) (y x v : Z) :
  surfaced cx (n + 1) c ->
  detailWrite (Stable.groundLevel (cx * CHUNK_W + n)) n c y x v ->
  grid_set c y x v = Js.Value c1 -> surfaced cx (n + 1) c1.
Proof.
  intros Hs Hw Hset l d Hl Hd.
  rewrite (grid_get_set_other c c1 y x v _ _ Hset); [by apply Hs|].
  destruct (decide (Stable.groundLevel (cx * CHUNK_W + l) + d = y /\ l = x))
    as [[Hy Hx]|Hne]; [exfalso|lia].
  pose proof (Hs l d Hl Hd) as Hcell. rewrite Hy, Hx in Hcell.
  destruct Hw as [y Hy'|y v b Hy' _ _ _|y Hy0 Hy' _|y x Hy' Hx' Hair].
  - subst. lia.
  - subst. lia.
  - subst. lia.
  - rewrite Hair in Hcell. injection Hcell as Hcell.
    symmetry in Hcell. by apply fillBlock_not_air in Hcell.
Qed.

Lemma surfaced_fill (cx n : Z) (c c1 : Chunk) :
  0 <= n -> surfaced cx n c ->
  for_range (Stable.groundLevel (cx * CHUNK_W + n)) WORLD_H
    (Stable.fillGround n (Stable.groundLevel (cx * CHUNK_W + n))) c = Js.Value c1 ->
  surfaced cx (n + 1) c1.
Proof.
  intros Hn Hs Hfill.
  pose proof (groundLevel_unclamped (cx * CHUNK_W + n)) as [_ Hg].
  set (g := Stable.groundLevel (cx * CHUNK_W + n)) in *.
  assert (surfaced cx n c1
          /\ forall y, g <= y < WORLD_H -> y <= g + 3 ->
               grid_get c1 y n = Js.Value (fillBlock g y)) as [Hold Hnew].
  { revert Hfill.
    apply (for_range_ind
             (fun k a => surfaced cx n a
                         /\ forall y, g <= y < k -> y <= g + 3 ->
                              grid_get a y n = Js.Value (fillBlock g y))).
    - unfold WORLD_H. lia.
    - split; [done|]. intros y Hy. lia.
    - intros k a a1 Hk [Ha1 Ha2]. rewrite fillGround_eq. intros Hset. split.
      + intros l d Hl Hd. rewrite (grid_get_set_other a a1 _ _ _ _ _ Hset) by lia.
        by apply Ha1.
      + intros y Hy Hy3. destruct (decide (y = k)) as [->|Hne].
        * by apply (grid_get_set_same a).
        * rewrite (grid_get_set_other a a1 _ _ _ _ _ Hset) by lia. apply Ha2; lia. }
  intros l d Hl Hd. destruct (decide (l = n)) as [->|Hne].
  - apply Hnew; unfold WORLD_H, g in *; lia.
  - apply Hold; lia.
Qed.

(** X9: in every column of a generated chunk the ground row holds Grass
    and the three rows under it hold Dirt: caves start four rows under
    the surface and trees fill Air cells only. *)
Theorem generated_surface (cx : Z) :
  exists c,
    Stable.generateChunk cx = Js.Value c
    /\ forall lx, 0 <= lx < CHUNK_W ->
         grid_get c (Stable.groundLevel (cx * CHUNK_W + lx)) lx = Js.Value BLOCK.GRASS
         /\ forall d, 1 <= d <= 3 ->
              grid_get c (Stable.groundLevel (cx * CHUNK_W + lx) + d) lx = Js.Value BLOCK.DIRT.
Proof.
  destruct (Stable_generateChunk_total cx) as (c & Hgen & Hwf).
  exists c. split; [done|].
  assert (surfaced cx CHUNK_W c) as Hs.
  { revert Hgen. unfold Stable.generateChunk.
    apply (for_range_ind (fun n a => surfaced cx n a)).
    - unfold CHUNK_W. lia.
    - intros l d Hl. lia.
    - intros n a a2 Hn Ha. rewrite generateColumn_eq.
      intros H. apply result_bind_inv in H as (a1 & Ha1 & H).
      assert (surfaced cx (n + 1) a1) as Hs1 by (apply (surfaced_fill cx n a); [lia|done|done]).
      revert H. apply (columnDetail_keeps (surfaced cx (n + 1)) cx n _ eq_refl); [|done].
      intros c0 y x v c1 Hc0. by apply surfaced_detail. }
  intros lx Hlx. split.
  - pose proof (Hs lx 0 Hlx ltac:(lia)) as H. rewrite Z.add_0_r in H. rewrite H.
    unfold fillBlock. by rewrite Z.eqb_refl.
  - intros d Hd. rewrite (Hs lx d Hlx) by lia. unfold fillBlock.
    destruct (_ =? _) eqn:E1; [apply Z.eqb_eq in E1; lia|].
    destruct (_ <? _) eqn:E2; [done|apply Z.ltb_ge in E2; lia].
Qed.

(** ** The chunk store *)

Section StoreMore.

Variable generateChunk : Z -> Js.result Chunk.
Hypothesis generateChunk_total : generator_total generateChunk.

Lemma getChunk_again (cx : Z) (s : World) :
  exists c s1,
    getChunk generateChunk cx s = Ok c s1
    /\ getChunk generateChunk cx s1 = Ok c s1
    /\ chunks s1 !! cx = Some c
    /\ (forall k, k <> cx -> chunks s1 !! k = chunks s !! k)
    /\ (forall c0, chunks s !! cx = Some c0 -> s1 = s)
    /\ player s1 = player s /\ hotbar s1 = hotbar s.
Proof.
  destruct (getChunk_spec _ generateChunk_total cx s) as (c & E & Hc).
  exists c, (with_chunks (<[cx := c]> (chunks s)) s). split; [exact E|]. split.
  - unfold getChunk. cbn [chunks with_chunks]. rewrite lookup_insert_eq. reflexivity.
  - split; [apply lookup_insert_eq|]. split.
    + intros k Hk. cbn [chunks with_chunks]. by rewrite lookup_insert_ne.
    + split; [|split; reflexivity]. intros c0 Hc0. destruct Hc as [Hc|[Hc _]]; [|congruence].
      by rewrite insert_id, with_chunks_id.
Qed.

Lemma setBlock_at (tx ty id : Z) (s : World) :
  store_wf s -> 0 <= ty < WORLD_H ->
  exists m,
    setBlock generateChunk tx ty id s = Ok tt (with_chunks m s)
    /\ map_Forall (fun _ c => chunk_wf c) m
    /\ tileAt generateChunk m tx ty = Js.Value id
    /\ forall tx' ty', tx' <> tx \/ ty' <> ty ->
         tileAt generateChunk m tx' ty' = tileAt generateChunk (chunks s) tx' ty'.
Proof.
  intros Hwf Hty.
  destruct (setBlock_spec _ generateChunk_total tx ty id s Hwf Hty)
    as (c & row & Hc & Hcwf & Hrow & E).
  eexists. split; [exact E|].
  split; [exact (setBlock_wf _ generateChunk_total tx ty id s _ Hwf E)|].
  pose proof (floorDiv_mod_ tx) as [Hlx _].
  assert (length row = Z.to_nat CHUNK_W) as Hlen.
  { destruct (chunk_wf_row c ty Hcwf Hty) as (row' & Hrow' & Hlen). congruence. }
  assert (grid_set c ty (mod_ tx CHUNK_W) id
          = Js.Value (<[Z.to_nat ty := <[Z.to_nat (mod_ tx CHUNK_W) := id]> row]> c)) as Hset.
  { unfold grid_set. rewrite Hrow.
    destruct (ty <? 0) eqn:E1; [apply Z.ltb_lt in E1; lia|].
    destruct (mod_ tx CHUNK_W <? 0) eqn:E2; [apply Z.ltb_lt in E2; lia|].
    destruct (Z.of_nat (length row) <=? mod_ tx CHUNK_W) eqn:E3; [apply Z.leb_le in E3; lia|].
    done. }
  split.
  - unfold tileAt. rewrite row_guard_in by done. rewrite lookup_insert_eq, result_bind_value.
    by apply (grid_get_set_same c).
  - intros tx' ty' Hne.
    destruct (decide (floorDiv tx' CHUNK_W = floorDiv tx CHUNK_W)) as [Hsame|Hdiff];
      [|unfold tileAt; by rewrite lookup_insert_ne].
    unfold tileAt. destruct ((ty' <? 0) || (WORLD_H <=? ty')); [done|].
    rewrite Hsame, lookup_insert_eq, result_bind_value.
    assert ((c0 ← match chunks s !! floorDiv tx CHUNK_W with
                   | Some c0 => Js.Value c0
                   | None => generateChunk (floorDiv tx CHUNK_W)
                   end; grid_get c0 ty' (mod_ tx' CHUNK_W))
            = grid_get c ty' (mod_ tx' CHUNK_W)) as ->.
    { destruct Hc as [Hc|[Hc Hgen]]; rewrite Hc, ?Hgen; done. }
    apply (grid_get_set_other c _ ty (mod_ tx CHUNK_W) id); [done|].
    destruct (decide (ty' = ty)) as [->|Hty']; [right|by left].
    intros Hmod. destruct Hne as [Hne|Hne]; [|done]. apply Hne.
    destruct (floorDiv_mod_ tx') as [_ E1]. destruct (floorDiv_mod_ tx) as [_ E2]. lia.
Qed.

Lemma loadAll_grown (keys : list Z) (s : World) :
  exists m,
    loadAll generateChunk keys s = Ok tt (with_chunks m s)
    /\ grown generateChunk (chunks s) m
    /\ forall k, k ∈ keys -> is_Some (m !! k).
Proof.
  revert s. induction keys as [|cx keys IH]; intros s; simpl.
  - exists (chunks s). rewrite with_chunks_id. split; [done|]. split; [apply grown_refl|].
    intros k Hk. by apply elem_of_nil in Hk.
  - destruct (getChunk_spec generateChunk generateChunk_total cx s) as (c & E & Hc).
    rewrite (M_bind_ok _ _ _ _ _ E).
    destruct (IH (with_chunks (<[cx := c]> (chunks s)) s)) as (m & Em & Hg & Hkeys).
    exists m. rewrite Em. split; [done|]. simpl in Hg. split.
    + apply (grown_trans generateChunk _ (<[cx := c]> (chunks s))); [|done].
      by apply grown_insert.
    + intros k Hk. apply elem_of_cons in Hk as [->|Hk]; [|by apply Hkeys].
      destruct (Hg cx) as [E1|[E1 _]]; rewrite lookup_insert_eq in E1; [|done].
      rewrite E1. eauto.
Qed.

Lemma ensureChunksLoaded_lookup (LOAD_RADIUS : Z) (s : World) :
  exists m,
    ensureChunksLoaded generateChunk LOAD_RADIUS s = Ok tt (with_chunks m s)
    /\ (forall k, Z.abs (k - playerChunk s) <= LOAD_RADIUS -> is_Some (m !! k))
    /\ (forall k c, chunks s !! k = Some c -> Z.abs (k - playerChunk s) <= LOAD_RADIUS + 2 ->
          m !! k = Some c)
    /\ (forall k, LOAD_RADIUS + 2 < Z.abs (k - playerChunk s) -> m !! k = None)
    /\ (forall k c, m !! k = Some c ->
          chunks s !! k = Some c \/ (chunks s !! k = None /\ generateChunk k = Js.Value c)).
Proof.
  unfold ensureChunksLoaded.
  rewrite (M_bind_ok get _ s s s eq_refl). fold (playerChunk s). set (pc := playerChunk s).
  destruct (loadAll_grown (seqZ (pc - LOAD_RADIUS) (2 * LOAD_RADIUS + 1)) s)
    as (m & Em & Hg & Hkeys).
  rewrite (M_bind_ok _ _ _ _ _ Em).
  exists (unloadFar LOAD_RADIUS pc m). split; [reflexivity|]. unfold unloadFar.
  split; [|split; [|split]].
  - intros k Hk. destruct (Hkeys k) as [c Hc]; [apply elem_of_seqZ; lia|].
    exists c. apply map_lookup_filter_Some. split; [done|]. simpl. lia.
  - intros k c Hc Hk. apply map_lookup_filter_Some. split; [|simpl; lia].
    destruct (Hg k) as [E|[E _]]; congruence.
  - intros k Hk. apply map_lookup_filter_None. right. intros c _. simpl. lia.
  - intros k c Hc. apply map_lookup_filter_Some in Hc as [Hc _].
    destruct (Hg k) as [E|(E & c' & Ec' & E')]; [left; congruence|right].
    split; [done|]. congruence.
Qed.

Lemma load_pass_guard_band (LOAD_RADIUS : Z) (s : World) :
  exists s',
    ensureChunksLoaded generateChunk LOAD_RADIUS s = Ok tt s'
    /\ (forall k, Z.abs (k - playerChunk s) <= LOAD_RADIUS -> is_Some (chunks s' !! k))
    /\ (forall k c, chunks s !! k = Some c ->
          Z.abs (k - playerChunk s) <= LOAD_RADIUS + 2 -> chunks s' !! k = Some c)
    /\ player s' = player s /\ hotbar s' = hotbar s.
Proof.
  destruct (ensureChunksLoaded_lookup LOAD_RADIUS s) as (m & E & H1 & H2 & _).
  exists (with_chunks m s). split; [exact E|]. split; [exact H1|]. split; [exact H2|].
  split; reflexivity.
Qed.

Lemma load_pass_far (LOAD_RADIUS : Z) (tx ty : Z) (s : World) :
  LOAD_RADIUS + 2 < Z.abs (floorDiv tx CHUNK_W - playerChunk s) ->
  exists s',
    ensureChunksLoaded generateChunk LOAD_RADIUS s = Ok tt s'
    /\ chunks s' !! floorDiv tx CHUNK_W = None
    /\ tileAt generateChunk (chunks s') tx ty = tileAt generateChunk ∅ tx ty.
Proof.
  intros Hfar.
  destruct (ensureChunksLoaded_lookup LOAD_RADIUS s) as (m & E & _ & _ & H3 & _).
  exists (with_chunks m s). split; [exact E|]. cbn [chunks with_chunks].
  pose proof (H3 _ Hfar) as Hnone. split; [exact Hnone|].
  unfold tileAt. by rewrite Hnone, lookup_empty.
Qed.

End StoreMore.

(** X10: [getChunk] is idempotent: a second request for the same key
    returns the same chunk and changes nothing, and the first changes
    the map under that key at most. *)
Theorem getChunk_twice (cx : Z) (s : World) :
  exists c s1,
    getChunk Stable.generateChunk cx s = Ok c s1
    /\ getChunk Stable.generateChunk cx s1 = Ok c s1
    /\ chunks s1 !! cx = Some c
    /\ (forall k, k <> cx -> chunks s1 !! k = chunks s !! k)
    /\ (forall c0, chunks s !! cx = Some c0 -> s1 = s)
    /\ player s1 = player s /\ hotbar s1 = hotbar s.
Proof. exact (getChunk_again Stable.generateChunk Stable_generateChunk_total cx s). Qed.

(** X11: [setBlock] writes one tile: afterwards that tile reads as the
    block written, every other tile reads as before, the chunk map is
    still well formed, and nothing but the chunk map has changed. *)
Theorem setBlock_writes_one_tile (tx ty id : Z) (s : World) :
  store_wf s -> 0 <= ty < WORLD_H ->
  exists m,
    setBlock Stable.generateChunk tx ty id s = Ok tt (with_chunks m s)
    /\ map_Forall (fun _ c => chunk_wf c) m
    /\ tileAt Stable.generateChunk m tx ty = Js.Value id
    /\ forall tx' ty', tx' <> tx \/ ty' <> ty ->
         tileAt Stable.generateChunk m tx' ty'
         = tileAt Stable.generateChunk (chunks s) tx' ty'.
Proof. exact (setBlock_at Stable.generateChunk Stable_generateChunk_total tx ty id s). Qed.

Lemma setBlock_writes_one_tile_witness :
  store_wf startWorld
  /\ 0 <= 10 < WORLD_H
  /\ exists m,
       setBlock Stable.generateChunk (-1) 10 BLOCK.STONE startWorld
       = Ok tt (with_chunks m startWorld)
       /\ map_Forall (fun _ c => chunk_wf c) m
       /\ tileAt Stable.generateChunk m (-1) 10 = Js.Value BLOCK.STONE
       /\ forall tx' ty', tx' <> -1 \/ ty' <> 10 ->
            tileAt Stable.generateChunk m tx' ty'
            = tileAt Stable.generateChunk (chunks startWorld) tx' ty'.
Proof.
  split; [apply initialWorld_wf|]. split; [unfold WORLD_H; lia|].
  apply (setBlock_writes_one_tile (-1) 10 BLOCK.STONE startWorld);
    [apply initialWorld_wf|unfold WORLD_H; lia].
Defined.

(** X12: after a load pass of the stable script every chunk within
    [LOAD_RADIUS] of the player's chunk is resident, and every chunk that
    was resident within [LOAD_RADIUS + 2] is still resident as it was,
    edits included; the player and the hotbar are untouched. *)
Theorem load_pass_keeps_the_guard_band (s : World) :
  exists s',
    ensureChunksLoaded Stable.generateChunk Stable.LOAD_RADIUS s = Ok tt s'
    /\ (forall k, Z.abs (k - playerChunk s) <= Stable.LOAD_RADIUS -> is_Some (chunks s' !! k))
    /\ (forall k c, chunks s !! k = Some c ->
          Z.abs (k - playerChunk s) <= Stable.LOAD_RADIUS + 2 -> chunks s' !! k = Some c)
    /\ player s' = player s /\ hotbar s' = hotbar s.
Proof.
  exact (load_pass_guard_band Stable.generateChunk Stable_generateChunk_total
           Stable.LOAD_RADIUS s).
Qed.

(** X13: a load pass drops every chunk farther than [LOAD_RADIUS + 2]
    from the player's chunk, so a tile of such a chunk then reads as the
    generator makes it: whatever was built or dug there is gone. *)
Theorem load_pass_forgets_far_edits (tx ty : Z) (s : World) :
  Stable.LOAD_RADIUS + 2 < Z.abs (floorDiv tx CHUNK_W - playerChunk s) ->
  exists s',
    ensureChunksLoaded Stable.generateChunk Stable.LOAD_RADIUS s = Ok tt s'
    /\ chunks s' !! floorDiv tx CHUNK_W = None
    /\ tileAt Stable.generateChunk (chunks s') tx ty = tileAt Stable.generateChunk ∅ tx ty.
Proof.
  exact (load_pass_far Stable.generateChunk Stable_generateChunk_total
           Stable.LOAD_RADIUS tx ty s).
Qed.

Lemma load_pass_forgets_far_edits_witness :
  Stable.LOAD_RADIUS + 2 < Z.abs (floorDiv 224 CHUNK_W - playerChunk stuckWorld)
  /\ exists s',
       ensureChunksLoaded Stable.generateChunk Stable.LOAD_RADIUS stuckWorld = Ok tt s'
       /\ chunks s' !! floorDiv 224 CHUNK_W = None
       /\ tileAt Stable.generateChunk (chunks s') 224 12
          = tileAt Stable.generateChunk ∅ 224 12.
Proof.
  split; [by vm_compute|].
  apply (load_pass_forgets_far_edits 224 12 stuckWorld). by vm_compute.
Defined.

(** ** Collision *)

Lemma solidAt_true (generateChunk : Z -> Js.result Chunk) (m : gmap Z Chunk) (tx ty : Z) :
  solidAt generateChunk m tx ty = true
  <-> exists id, tileAt generateChunk m tx ty = Js.Value id /\ isSolid id = true.
Proof.
  unfold solidAt. destruct (tileAt generateChunk m tx ty) as [id|e].
  - split; [intros H; by exists id|intros (id' & [= <-] & H); exact H].
  - split; [done|intros (id' & H & _); done].
Qed.

Lemma hits_true (generateChunk : Z -> Js.result Chunk) (m : gmap Z Chunk) (px py pw ph : Q) :
  hits generateChunk m px py pw ph = true
  <-> exists tx ty id,
        Js.floor (px / inject_Z TILE)%Q <= tx <= Js.floor ((px + pw - 1) / inject_Z TILE)%Q
        /\ Js.floor (py / inject_Z TILE)%Q <= ty <= Js.floor ((py + ph - 1) / inject_Z TILE)%Q
        /\ tileAt generateChunk m tx ty = Js.Value id
        /\ isSolid id = true.
Proof.
  unfold hits. rewrite existsb_exists. split.
  - intros (ty & Hty & Hrow). apply existsb_exists in Hrow as (tx & Htx & Hsolid).
    apply list_elem_of_In, elem_of_seqZ in Hty. apply list_elem_of_In, elem_of_seqZ in Htx.
    apply solidAt_true in Hsolid as (id & Hid & Hs).
    exists tx, ty, id. split; [lia|]. split; [lia|]. by split.
  - intros (tx & ty & id & Htx & Hty & Hid & Hs). exists ty. split.
    + apply list_elem_of_In, elem_of_seqZ. lia.
    + apply existsb_exists. exists tx. split.
      * apply list_elem_of_In, elem_of_seqZ. lia.
      * apply solidAt_true. by exists id.
Qed.

Section CollisionFacts.

Variable generateChunk : Z -> Js.result Chunk.
Hypothesis generateChunk_total : generator_total generateChunk.

Lemma settled_tileAt (s s' : World) (tx ty : Z) :
  settled generateChunk s s' ->
  tileAt generateChunk (chunks s') tx ty = tileAt generateChunk (chunks s) tx ty.
Proof.
  intros (m & -> & Hg). cbn [chunks with_chunks]. by apply grown_tileAt.
Qed.

Lemma settled_hotbar (s s' : World) : settled generateChunk s s' -> hotbar s' = hotbar s.
Proof. by intros (m & -> & _). Qed.

Lemma rectHitsWorld_tiles (px py pw ph : Q) (s : World) :
  store_wf s ->
  exists b s',
    rectHitsWorld generateChunk px py pw ph s = Ok b s'
    /\ (b = true <->
        exists tx ty id,
          Js.floor (px / inject_Z TILE)%Q <= tx <= Js.floor ((px + pw - 1) / inject_Z TILE)%Q
          /\ Js.floor (py / inject_Z TILE)%Q <= ty <= Js.floor ((py + ph - 1) / inject_Z TILE)%Q
          /\ tileAt generateChunk (chunks s) tx ty = Js.Value id
          /\ isSolid id = true)
    /\ (forall tx ty, tileAt generateChunk (chunks s') tx ty = tileAt generateChunk (chunks s) tx ty)
    /\ player s' = player s /\ hotbar s' = hotbar s.
Proof.
  intros Hwf.
  destruct (rectHitsWorld_spec generateChunk generateChunk_total px py pw ph s Hwf)
    as (s' & E & Hs).
  exists (hits generateChunk (chunks s) px py pw ph), s'. split; [exact E|].
  split; [apply hits_true|]. split; [intros tx ty; by apply settled_tileAt|].
  split; [by apply (settled_player generateChunk)|by apply settled_hotbar].
Qed.

End CollisionFacts.

(** X14: [rectHitsWorld] returns true exactly when one of the tiles that
    the rectangle's pixel rows and columns span is solid; it changes no
    tile, nor the player, nor the hotbar. *)
Theorem rectHitsWorld_finds_solid_tiles (px py pw ph : Q) (s : World) :
  store_wf s ->
  exists b s',
    rectHitsWorld Stable.generateChunk px py pw ph s = Ok b s'
    /\ (b = true <->
        exists tx ty id,
          Js.floor (px / inject_Z TILE)%Q <= tx <= Js.floor ((px + pw - 1) / inject_Z TILE)%Q
          /\ Js.floor (py / inject_Z TILE)%Q <= ty <= Js.floor ((py + ph - 1) / inject_Z TILE)%Q
          /\ tileAt Stable.generateChunk (chunks s) tx ty = Js.Value id
          /\ isSolid id = true)
    /\ (forall tx ty, tileAt Stable.generateChunk (chunks s') tx ty
                      = tileAt Stable.generateChunk (chunks s) tx ty)
    /\ player s' = player s /\ hotbar s' = hotbar s.
Proof.
  exact (rectHitsWorld_tiles Stable.generateChunk Stable_generateChunk_total px py pw ph s).
Qed.

Lemma rectHitsWorld_finds_solid_tiles_witness :
  store_wf stuckWorld
  /\ exists b s',
       rectHitsWorld Stable.generateChunk 64 360 26 30 stuckWorld = Ok b s'
       /\ (b = true <->
           exists tx ty id,
             Js.floor (64 / inject_Z TILE)%Q <= tx <= Js.floor ((64 + 26 - 1) / inject_Z TILE)%Q
             /\ Js.floor (360 / inject_Z TILE)%Q <= ty
                <= Js.floor ((360 + 30 - 1) / inject_Z TILE)%Q
             /\ tileAt Stable.generateChunk (chunks stuckWorld) tx ty = Js.Value id
             /\ isSolid id = true)
       /\ (forall tx ty, tileAt Stable.generateChunk (chunks s') tx ty
                         = tileAt Stable.generateChunk (chunks stuckWorld) tx ty)
       /\ player s' = player stuckWorld /\ hotbar s' = hotbar stuckWorld.
Proof.
  split; [apply floorWorld_wf|].
  apply (rectHitsWorld_finds_solid_tiles 64 360 26 30 stuckWorld). apply floorWorld_wf.
Defined.

Lemma with_x_id (p : Player.t) : Player.with_x (Player.x p) p = p.
Proof. by destruct p. Qed.

Section MoveFacts.

Variable generateChunk : Z -> Js.result Chunk.
Hypothesis generateChunk_total : generator_total generateChunk.

Lemma retreat_x_stops (step : Q) (n : nat) (s : World) (fuel : nat) :
  store_wf s ->
  (forall j, (j < n)%nat ->
     hits generateChunk (chunks s) (retreated j (Player.x (player s)) step)
       (Player.y (player s)) (Player.w (player s)) (Player.h (player s)) = true) ->
  hits generateChunk (chunks s) (retreated n (Player.x (player s)) step)
    (Player.y (player s)) (Player.w (player s)) (Player.h (player s)) = false ->
  (n < fuel)%nat ->
  exists s',
    while fuel (playerHitsWorld generateChunk)
      (modify_player (fun p => Player.with_x (Player.x p - step)%Q p)) s = Ok tt s'
    /\ settled generateChunk
         (with_player (Player.with_x (retreated n (Player.x (player s)) step) (player s)) s) s'.
Proof.
  revert s fuel. induction n as [|n IH]; intros s fuel Hwf Hhit Hclear Hfuel.
  - destruct fuel as [|fuel]; [lia|]. cbn [while retreated] in *.
    destruct (playerHitsWorld_spec generateChunk generateChunk_total s Hwf) as (s1 & E1 & Hs1).
    rewrite (M_bind_ok _ _ _ _ _ E1), Hclear.
    exists s1. split; [done|]. by rewrite with_x_id, with_player_id.
  - destruct fuel as [|fuel]; [lia|]. cbn [while].
    destruct (playerHitsWorld_spec generateChunk generateChunk_total s Hwf) as (s1 & E1 & Hs1).
    pose proof (Hhit O ltac:(lia)) as Hhit0. cbn [retreated] in Hhit0.
    rewrite (M_bind_ok _ _ _ _ _ E1), Hhit0.
    set (s2 := with_player (Player.with_x (Player.x (player s1) - step)%Q (player s1)) s1).
    rewrite (M_bind_ok (modify_player (fun p => Player.with_x (Player.x p - step)%Q p))
               _ s1 s2 tt eq_refl).
    pose proof (settled_player _ _ _ Hs1) as Hp1.
    destruct Hs1 as (m1 & -> & Hg1).
    destruct (IH s2 fuel) as (s' & E' & (m' & -> & Hg')).
    + unfold s2, store_wf. simpl. by apply (grown_wf generateChunk generateChunk_total (chunks s)).
    + intros j Hj. unfold s2. simpl. rewrite (grown_hits generateChunk _ _ _ _ _ _ Hg1).
      apply (Hhit (S j)). lia.
    + unfold s2. simpl. rewrite (grown_hits generateChunk _ _ _ _ _ _ Hg1). exact Hclear.
    + lia.
    + exists (with_chunks m'
                (with_player (Player.with_x (retreated (S n) (Player.x (player s)) step) (player s)) s)).
      split; [exact E'|]. exists m'. split; [done|].
      simpl in Hg'. by apply (grown_trans generateChunk _ m1).
Qed.

Lemma moveAndCollideWith_spec (stepOf : Q -> Q) (fuel nx ny : nat) (s : World) :
  store_wf s ->
  (forall j, (j < nx)%nat ->
     hits generateChunk (chunks s)
       (retreated j (Player.x (player s) + Player.vx (player s))%Q (stepOf (Player.vx (player s))))
       (Player.y (player s)) (Player.w (player s)) (Player.h (player s)) = true) ->
  hits generateChunk (chunks s)
    (retreated nx (Player.x (player s) + Player.vx (player s))%Q (stepOf (Player.vx (player s))))
    (Player.y (player s)) (Player.w (player s)) (Player.h (player s)) = false ->
  (forall j, (j < ny)%nat ->
     hits generateChunk (chunks s)
       (retreated nx (Player.x (player s) + Player.vx (player s))%Q (stepOf (Player.vx (player s))))
       (retreated j (Player.y (player s) + Player.vy (player s))%Q (stepOf (Player.vy (player s))))
       (Player.w (player s)) (Player.h (player s)) = true) ->
  hits generateChunk (chunks s)
    (retreated nx (Player.x (player s) + Player.vx (player s))%Q (stepOf (Player.vx (player s))))
    (retreated ny (Player.y (player s) + Player.vy (player s))%Q (stepOf (Player.vy (player s))))
    (Player.w (player s)) (Player.h (player s)) = false ->
  (0 < nx -> nx < fuel)%nat -> (0 < ny -> ny < fuel)%nat ->
  exists s',
    moveAndCollideWith generateChunk stepOf fuel s = Ok tt s'
    /\ settled generateChunk
         (with_player (collided (player s) (stepOf (Player.vx (player s)))
                         (stepOf (Player.vy (player s))) nx ny) s) s'.
Proof.
  intros Hwf Hxhit Hxclear Hyhit Hyclear Hfx Hfy.
  pose proof generateChunk_total as Hgen.
  set (p := player s) in *. set (sx := stepOf (Player.vx p)) in *.
  set (sy := stepOf (Player.vy p)) in *.
  set (x1 := (Player.x p + Player.vx p)%Q) in *.
  set (y1 := (Player.y p + Player.vy p)%Q) in *.
  unfold moveAndCollideWith.
  set (s1 := with_player (Player.with_x x1 p) s).
  rewrite (M_bind_ok (modify_player (fun p => Player.with_x (Player.x p + Player.vx p)%Q p))
             _ s s1 tt eq_refl).
  destruct (playerHitsWorld_spec _ Hgen s1 Hwf) as (s2 & E2 & (m2 & -> & Hg2)).
  rewrite (M_bind_ok _ _ _ _ _ E2).
  change (hits generateChunk (chunks s1) (Player.x (player s1)) (Player.y (player s1))
            (Player.w (player s1)) (Player.h (player s1)))
    with (hits generateChunk (chunks s) x1 (Player.y p) (Player.w p) (Player.h p)).
  (* the horizontal half ends in a state [sH] *)
  assert (exists mH,
            grown generateChunk (chunks s) mH
            /\ forall k : M unit,
                 ((if hits generateChunk (chunks s) x1 (Player.y p) (Player.w p) (Player.h p)
                   then
                     s0 ← get;
                     let step := stepOf (Player.vx (player s0)) in
                     while fuel (playerHitsWorld generateChunk)
                       (modify_player (fun p => Player.with_x (Player.x p - step)%Q p));;
                     modify_player (Player.with_vx 0)
                   else mret tt);; k) (with_chunks m2 s1)
                 = k (with_chunks mH
                        (with_player
                           (match nx with
                            | O => Player.with_x x1 p
                            | S _ => Player.with_vx 0 (Player.with_x (retreated nx x1 sx) p)
                            end) s))) as (mH & HgH & EH).
  { destruct nx as [|nx'].
    - cbn [retreated] in Hxclear. rewrite Hxclear. exists m2. split; [exact Hg2|].
      intros k. reflexivity.
    - pose proof (Hxhit O ltac:(lia)) as Hhit0. cbn [retreated] in Hhit0. rewrite Hhit0.
      set (s2 := with_chunks m2 s1).
      assert (store_wf s2) as Hwf2 by (apply (grown_wf _ Hgen (chunks s)); [exact Hg2|exact Hwf]).
      destruct (retreat_x_stops sx (S nx') s2 fuel Hwf2) as (s3 & E3 & (m3 & -> & Hg3)).
      { intros j Hj. unfold s2. cbn [chunks with_chunks player with_player s1].
        rewrite (grown_hits generateChunk _ _ _ _ _ _ Hg2). by apply Hxhit. }
      { unfold s2. cbn [chunks with_chunks player with_player s1].
        rewrite (grown_hits generateChunk _ _ _ _ _ _ Hg2). exact Hxclear. }
      { apply Hfx. lia. }
      exists m3. split.
      { apply (grown_trans generateChunk _ m2); [exact Hg2|exact Hg3]. }
      intros k.
      set (s3 := with_chunks m3
                   (with_player
                      (Player.with_x (retreated (S nx') (Player.x (player s2)) sx) (player s2))
                      s2)) in E3.
      assert ((s0 ← get;
               let step := stepOf (Player.vx (player s0)) in
               while fuel (playerHitsWorld generateChunk)
                 (modify_player (fun p => Player.with_x (Player.x p - step)%Q p));;
               modify_player (Player.with_vx 0)) s2
              = Ok tt (with_player (Player.with_vx 0 (player s3)) s3)) as Eblock.
      { rewrite (M_bind_ok get _ s2 s2 s2 eq_refl).
        change (stepOf (Player.vx (player s2))) with sx. cbv zeta.
        rewrite (M_bind_ok _ _ _ _ _ E3). reflexivity. }
      rewrite (M_bind_ok _ (fun _ => k) _ _ _ Eblock). reflexivity. }
  rewrite EH. clear EH E2.
  set (pH := match nx with
             | O => Player.with_x x1 p
             | S _ => Player.with_vx 0 (Player.with_x (retreated nx x1 sx) p)
             end).
  assert (Player.x pH = retreated nx x1 sx /\ Player.y pH = Player.y p
          /\ Player.w pH = Player.w p /\ Player.h pH = Player.h p
          /\ Player.vy pH = Player.vy p) as (HxH & HyH & HwH & HhH & HvyH).
  { unfold pH. destruct nx; by repeat split. }
  set (sH := with_chunks mH (with_player pH s)).
  (* the vertical half *)
  set (s3 := with_player (Player.with_y y1 pH) sH).
  rewrite (M_bind_ok (modify_player (fun p => Player.with_y (Player.y p + Player.vy p)%Q p))
             _ sH s3 tt).
  2:{ unfold modify_player, modify, s3, sH. cbn [player with_player with_chunks].
      by rewrite HyH, HvyH. }
  set (s4 := with_player (Player.with_onGround false (Player.with_y y1 pH)) sH).
  rewrite (M_bind_ok (modify_player (Player.with_onGround false)) _ s3 s4 tt eq_refl).
  assert (store_wf s4) as Hwf4 by (apply (grown_wf _ Hgen (chunks s)); [exact HgH|exact Hwf]).
  destruct (playerHitsWorld_spec _ Hgen s4 Hwf4) as (s5 & E5 & (m5 & -> & Hg5)).
  rewrite (M_bind_ok _ _ _ _ _ E5).
  assert (forall yy, hits generateChunk (chunks s4) (Player.x (player s4)) yy
                       (Player.w (player s4)) (Player.h (player s4))
                     = hits generateChunk (chunks s) (retreated nx x1 sx) yy
                         (Player.w p) (Player.h p)) as Hview.
  { intros yy. unfold s4, sH. cbn [chunks player with_player with_chunks Player.x Player.w
      Player.h Player.with_onGround Player.with_y].
    rewrite HxH, HwH, HhH. by apply (grown_hits generateChunk). }
  change (Player.y (player s4)) with y1. rewrite Hview.
  destruct ny as [|ny'].
  - cbn [retreated] in Hyclear. rewrite Hyclear.
    assert (pH = Player.mk (retreated nx x1 sx) (Player.y p) (Player.w p) (Player.h p)
                   (match nx with O => Player.vx p | S _ => 0%Q end) (Player.vy p)
                   (Player.onGround p) (Player.maxHealth p) (Player.health p)
                   (Player.maxHunger p) (Player.hunger p)) as HpH.
    { unfold pH. destruct nx; reflexivity. }
    exists (with_chunks m5 (with_player (collided p sx sy nx O) s)). split.
    + unfold s4, sH. rewrite HpH. reflexivity.
    + exists m5. split; [reflexivity|].
      apply (grown_trans generateChunk _ mH); [exact HgH|exact Hg5].
  - pose proof (Hyhit O ltac:(lia)) as Hhit0. cbn [retreated] in Hhit0. rewrite Hhit0.
    set (s5 := with_chunks m5 s4).
    rewrite (M_bind_ok get _ s5 s5 s5 eq_refl).
    assert (stepOf (Player.vy (player s5)) = sy) as Hsy.
    { unfold s5, s4, sH. cbn [chunks player with_player with_chunks Player.vy
        Player.with_onGround Player.with_y]. by rewrite HvyH. }
    cbv zeta. rewrite Hsy.
    assert (store_wf s5) as Hwf5
      by (apply (grown_wf _ Hgen (chunks s4)); [exact Hg5|exact Hwf4]).
    destruct (retreat_y_stops _ Hgen sy (S ny') s5 fuel Hwf5) as (s6 & E6 & (m6 & -> & Hg6)).
    { intros j Hj. unfold s5. cbn [chunks with_chunks player with_player].
      rewrite (grown_hits generateChunk _ _ _ _ _ _ Hg5).
      change (Player.y (player s4)) with y1. rewrite Hview. by apply Hyhit. }
    { unfold s5. cbn [chunks with_chunks player with_player].
      rewrite (grown_hits generateChunk _ _ _ _ _ _ Hg5).
      change (Player.y (player s4)) with y1. rewrite Hview. exact Hyclear. }
    { apply Hfy. lia. }
    rewrite (M_bind_ok _ _ _ _ _ E6).
    assert (pH = Player.mk (retreated nx x1 sx) (Player.y p) (Player.w p) (Player.h p)
                   (match nx with O => Player.vx p | S _ => 0%Q end) (Player.vy p)
                   (Player.onGround p) (Player.maxHealth p) (Player.health p)
                   (Player.maxHunger p) (Player.hunger p)) as HpH.
    { unfold pH. destruct nx; reflexivity. }
    exists (with_chunks m6 (with_player (collided p sx sy nx (S ny')) s)). split.
    + unfold s5, s4, sH. rewrite HpH. unfold collided. fold x1 y1.
      destruct (Js.gt sy 0); reflexivity.
    + exists m6. split; [reflexivity|].
      apply (grown_trans generateChunk _ mH); [exact HgH|].
      apply (grown_trans generateChunk _ m5); [exact Hg5|exact Hg6].
Qed.

End MoveFacts.

Lemma hits_below_world (generateChunk : Z -> Js.result Chunk) (m : gmap Z Chunk)
    (px py pw ph : Q) :
  (inject_Z (WORLD_H * TILE) <= py)%Q -> hits generateChunk m px py pw ph = false.
Proof.
  intros Hbelow. apply not_true_is_false. unfold hits. intros Hhit.
  apply existsb_exists in Hhit as (ty & Hty & Hrow).
  apply existsb_exists in Hrow as (tx & _ & Hsolid).
  apply list_elem_of_In, elem_of_seqZ in Hty.
  assert (WORLD_H <= Js.floor (py / inject_Z TILE)%Q) as Htop.
  { apply tile_ge. rewrite inject_Z_mult in Hbelow. exact Hbelow. }
  unfold solidAt, tileAt in Hsolid. rewrite row_guard_out in Hsolid by lia. done.
Qed.

Lemma step_cases (v : Q) :
  Js.or_else (Js.sign v) 1 = 1%Q \/ Js.or_else (Js.sign v) 1 = (-1)%Q.
Proof.
  unfold Js.sign. destruct (Qlt_le_dec 0 v); [by left|].
  destruct (Qlt_le_dec v 0); [by right|by left].
Qed.

Lemma step_up (v : Q) : Js.gt (Js.or_else (Js.sign v) 1) 0 = true -> (0 <= v)%Q.
Proof.
  unfold Js.sign. destruct (Qlt_le_dec 0 v); [lra|].
  destruct (Qlt_le_dec v 0); [done|lra].
Qed.

(** Going back by 1 or by -1, the box is clear of the world after
    finitely many steps: it leaves through the top or the bottom. *)
Lemma vertical_retreat_bound (generateChunk : Z -> Js.result Chunk) (m : gmap Z Chunk)
    (px py pw ph step : Q) :
  step = 1%Q \/ step = (-1)%Q ->
  exists B, hits generateChunk m px (retreated B py step) pw ph = false.
Proof.
  intros [-> | ->].
  - exists (Z.to_nat (Z.max 0 (Qfloor (py + ph)%Q + 1))).
    apply hits_above_world. rewrite retreated_eq.
    pose proof (Qlt_floor (py + ph)%Q) as Hfl.
    assert (inject_Z (Qfloor (py + ph)%Q + 1)
            <= inject_Z (Z.of_nat (Z.to_nat (Z.max 0 (Qfloor (py + ph)%Q + 1)))))%Q as HBge.
    { rewrite <- Zle_Qle. lia. }
    lra.
  - exists (Z.to_nat (Z.max 0 (WORLD_H * TILE - Qfloor py))).
    apply hits_below_world. rewrite retreated_eq.
    pose proof (Qfloor_le py) as Hfl.
    assert (inject_Z (WORLD_H * TILE - Qfloor py)
            <= inject_Z (Z.of_nat (Z.to_nat (Z.max 0 (WORLD_H * TILE - Qfloor py)))))%Q as HBge.
    { rewrite <- Zle_Qle. lia. }
    unfold Z.sub in HBge at 1. rewrite inject_Z_plus, inject_Z_opp in HBge. lra.
Qed.

Section MoveResults.

Variable generateChunk : Z -> Js.result Chunk.
Hypothesis generateChunk_total : generator_total generateChunk.

Lemma free_flight (stepOf : Q -> Q) (fuel : nat) (s : World) :
  store_wf s ->
  hits generateChunk (chunks s) (Player.x (player s) + Player.vx (player s))%Q
    (Player.y (player s)) (Player.w (player s)) (Player.h (player s)) = false ->
  hits generateChunk (chunks s) (Player.x (player s) + Player.vx (player s))%Q
    (Player.y (player s) + Player.vy (player s))%Q
    (Player.w (player s)) (Player.h (player s)) = false ->
  exists s',
    moveAndCollideWith generateChunk stepOf fuel s = Ok tt s'
    /\ Player.x (player s') = (Player.x (player s) + Player.vx (player s))%Q
    /\ Player.y (player s') = (Player.y (player s) + Player.vy (player s))%Q
    /\ Player.vx (player s') = Player.vx (player s)
    /\ Player.vy (player s') = Player.vy (player s)
    /\ Player.onGround (player s') = false
    /\ hotbar s' = hotbar s
    /\ forall tx ty, tileAt generateChunk (chunks s') tx ty
                     = tileAt generateChunk (chunks s) tx ty.
Proof.
  intros Hwf Hx Hy.
  destruct (moveAndCollideWith_spec generateChunk generateChunk_total stepOf fuel O O s Hwf)
    as (s' & E & Hs'); [intros j Hj; lia|exact Hx|intros j Hj; lia|exact Hy|lia|lia|].
  exists s'. split; [exact E|].
  rewrite (settled_player _ _ _ Hs'), (settled_hotbar _ _ _ Hs').
  split; [done|]. split; [done|]. split; [done|]. split; [done|]. split; [done|].
  split; [done|]. intros tx ty. by rewrite (settled_tileAt _ _ _ _ _ Hs').
Qed.

Lemma box_clear (n : nat) (s : World) :
  store_wf s ->
  hits generateChunk (chunks s)
    (retreated n (Player.x (player s) + Player.vx (player s))%Q
       (Js.or_else (Js.sign (Player.vx (player s))) 1))
    (Player.y (player s)) (Player.w (player s)) (Player.h (player s)) = false ->
  exists N, forall fuel, (N < fuel)%nat ->
    exists s',
      moveAndCollide generateChunk fuel s = Ok tt s'
      /\ playerHits generateChunk s' = false
      /\ (Player.onGround (player s') = true ->
          Player.vy (player s') = 0%Q /\ (0 <= Player.vy (player s))%Q)
      /\ Player.w (player s') = Player.w (player s)
      /\ Player.h (player s') = Player.h (player s)
      /\ hotbar s' = hotbar s
      /\ forall tx ty, tileAt generateChunk (chunks s') tx ty
                       = tileAt generateChunk (chunks s) tx ty.
Proof.
  intros Hwf Hn.
  set (p := player s) in *.
  set (sx := Js.or_else (Js.sign (Player.vx p)) 1) in *.
  set (sy := Js.or_else (Js.sign (Player.vy p)) 1).
  destruct (first_false
              (fun j => hits generateChunk (chunks s)
                          (retreated j (Player.x p + Player.vx p)%Q sx)
                          (Player.y p) (Player.w p) (Player.h p)) n Hn)
    as (nx & _ & Hxclear & Hxhit).
  destruct (vertical_retreat_bound generateChunk (chunks s)
              (retreated nx (Player.x p + Player.vx p)%Q sx)
              (Player.y p + Player.vy p)%Q (Player.w p) (Player.h p) sy
              (step_cases (Player.vy p))) as (B & HB).
  destruct (first_false
              (fun j => hits generateChunk (chunks s)
                          (retreated nx (Player.x p + Player.vx p)%Q sx)
                          (retreated j (Player.y p + Player.vy p)%Q sy)
                          (Player.w p) (Player.h p)) B HB)
    as (ny & _ & Hyclear & Hyhit).
  exists (Nat.max nx ny). intros fuel Hfuel.
  destruct (moveAndCollideWith_spec generateChunk generateChunk_total
              (fun v => Js.or_else (Js.sign v) 1) fuel nx ny s Hwf Hxhit Hxclear Hyhit Hyclear)
    as (s' & E & Hs'); [lia|lia|].
  exists s'. split; [exact E|].
  unfold playerHits.
  rewrite (settled_hits _ _ _ _ _ _ _ Hs'), (settled_player _ _ _ Hs'),
    (settled_hotbar _ _ _ Hs').
  split; [exact Hyclear|]. split.
  - cbn [player with_player collided Player.onGround Player.vy]. fold p sy.
    destruct ny as [|ny']; [done|]. intros Hup. split; [done|]. by apply step_up.
  - split; [done|]. split; [done|]. split; [done|].
    intros tx ty. by rewrite (settled_tileAt _ _ _ _ _ Hs').
Qed.

End MoveResults.

(** X15: free flight.  When the box hits nothing after the horizontal
    move, nor after the vertical one, [moveAndCollide] adds the velocity
    to the position, keeps the velocity, clears [onGround] and never
    enters a retreat loop: it returns for every fuel and every rule for
    the retreat step. *)
Theorem moveAndCollide_free_flight (stepOf : Q -> Q) (fuel : nat) (s : World) :
  store_wf s ->
  hits Stable.generateChunk (chunks s) (Player.x (player s) + Player.vx (player s))%Q
    (Player.y (player s)) (Player.w (player s)) (Player.h (player s)) = false ->
  hits Stable.generateChunk (chunks s) (Player.x (player s) + Player.vx (player s))%Q
    (Player.y (player s) + Player.vy (player s))%Q
    (Player.w (player s)) (Player.h (player s)) = false ->
  exists s',
    moveAndCollideWith Stable.generateChunk stepOf fuel s = Ok tt s'
    /\ Player.x (player s') = (Player.x (player s) + Player.vx (player s))%Q
    /\ Player.y (player s') = (Player.y (player s) + Player.vy (player s))%Q
    /\ Player.vx (player s') = Player.vx (player s)
    /\ Player.vy (player s') = Player.vy (player s)
    /\ Player.onGround (player s') = false
    /\ hotbar s' = hotbar s
    /\ forall tx ty, tileAt Stable.generateChunk (chunks s') tx ty
                     = tileAt Stable.generateChunk (chunks s) tx ty.
Proof.
  exact (free_flight Stable.generateChunk Stable_generateChunk_total stepOf fuel s).
Qed.

Lemma moveAndCollide_free_flight_witness :
  store_wf (floorWorld 12 64 100 3 8)
  /\ hits Stable.generateChunk (chunks (floorWorld 12 64 100 3 8))
       (Player.x (player (floorWorld 12 64 100 3 8))
        + Player.vx (player (floorWorld 12 64 100 3 8)))%Q
       (Player.y (player (floorWorld 12 64 100 3 8)))
       (Player.w (player (floorWorld 12 64 100 3 8)))
       (Player.h (player (floorWorld 12 64 100 3 8))) = false
  /\ hits Stable.generateChunk (chunks (floorWorld 12 64 100 3 8))
       (Player.x (player (floorWorld 12 64 100 3 8))
        + Player.vx (player (floorWorld 12 64 100 3 8)))%Q
       (Player.y (player (floorWorld 12 64 100 3 8))
        + Player.vy (player (floorWorld 12 64 100 3 8)))%Q
       (Player.w (player (floorWorld 12 64 100 3 8)))
       (Player.h (player (floorWorld 12 64 100 3 8))) = false
  /\ exists s',
       moveAndCollideWith Stable.generateChunk Js.sign 0 (floorWorld 12 64 100 3 8) = Ok tt s'
       /\ Player.x (player s')
          = (Player.x (player (floorWorld 12 64 100 3 8))
             + Player.vx (player (floorWorld 12 64 100 3 8)))%Q
       /\ Player.y (player s')
          = (Player.y (player (floorWorld 12 64 100 3 8))
             + Player.vy (player (floorWorld 12 64 100 3 8)))%Q
       /\ Player.vx (player s') = Player.vx (player (floorWorld 12 64 100 3 8))
       /\ Player.vy (player s') = Player.vy (player (floorWorld 12 64 100 3 8))
       /\ Player.onGround (player s') = false
       /\ hotbar s' = hotbar (floorWorld 12 64 100 3 8)
       /\ forall tx ty, tileAt Stable.generateChunk (chunks s') tx ty
                        = tileAt Stable.generateChunk (chunks (floorWorld 12 64 100 3 8)) tx ty.
Proof.
  split; [apply floorWorld_wf|]. split; [by vm_compute|]. split; [by vm_compute|].
  apply (moveAndCollide_free_flight Js.sign 0 (floorWorld 12 64 100 3 8));
    [apply floorWorld_wf|by vm_compute|by vm_compute].
Defined.

(** X16: [moveAndCollide] of the stable script never leaves the player
    inside a solid tile.  If going back from the moved position by the
    horizontal step reaches, after some [n] steps, a position where the
    box hits nothing, then with enough fuel [moveAndCollide] returns and
    the box it leaves hits nothing; the vertical retreat needs no such
    assumption, the box being clear at the latest above or below the
    world.  The player is on the ground only with zero vertical velocity
    and only when it was not moving up. *)
Theorem moveAndCollide_leaves_the_box_clear (n : nat) (s : World) :
  store_wf s ->
  hits Stable.generateChunk (chunks s)
    (retreated n (Player.x (player s) + Player.vx (player s))%Q
       (Js.or_else (Js.sign (Player.vx (player s))) 1))
    (Player.y (player s)) (Player.w (player s)) (Player.h (player s)) = false ->
  exists N, forall fuel, (N < fuel)%nat ->
    exists s',
      moveAndCollide Stable.generateChunk fuel s = Ok tt s'
      /\ playerHits Stable.generateChunk s' = false
      /\ (Player.onGround (player s') = true ->
          Player.vy (player s') = 0%Q /\ (0 <= Player.vy (player s))%Q)
      /\ Player.w (player s') = Player.w (player s)
      /\ Player.h (player s') = Player.h (player s)
      /\ hotbar s' = hotbar s
      /\ forall tx ty, tileAt Stable.generateChunk (chunks s') tx ty
                       = tileAt Stable.generateChunk (chunks s) tx ty.
Proof. exact (box_clear Stable.generateChunk Stable_generateChunk_total n s). Qed.

Lemma moveAndCollide_leaves_the_box_clear_witness :
  store_wf fallingWorld
  /\ hits Stable.generateChunk (chunks fallingWorld)
       (retreated 0 (Player.x (player fallingWorld) + Player.vx (player fallingWorld))%Q
          (Js.or_else (Js.sign (Player.vx (player fallingWorld))) 1))
       (Player.y (player fallingWorld)) (Player.w (player fallingWorld))
       (Player.h (player fallingWorld)) = false
  /\ exists N, forall fuel, (N < fuel)%nat ->
       exists s',
         moveAndCollide Stable.generateChunk fuel fallingWorld = Ok tt s'
         /\ playerHits Stable.generateChunk s' = false
         /\ (Player.onGround (player s') = true ->
             Player.vy (player s') = 0%Q /\ (0 <= Player.vy (player fallingWorld))%Q)
         /\ Player.w (player s') = Player.w (player fallingWorld)
         /\ Player.h (player s') = Player.h (player fallingWorld)
         /\ hotbar s' = hotbar fallingWorld
         /\ forall tx ty, tileAt Stable.generateChunk (chunks s') tx ty
                          = tileAt Stable.generateChunk (chunks fallingWorld) tx ty.
Proof.
  split; [apply floorWorld_wf|]. split; [by vm_compute|].
  apply (moveAndCollide_leaves_the_box_clear 0 fallingWorld);
    [apply floorWorld_wf|by vm_compute].
Defined.

(** ** Inventory *)

Lemma addToSlots_spec (slots : list Slot) (blockId amount : Z) :
  (exists i slot,
     slots !! i = Some slot /\ block slot = blockId
     /\ (forall j slot', (j < i)%nat -> slots !! j = Some slot' -> block slot' <> blockId)
     /\ addToSlots slots blockId amount
        = (<[i := {| block := blockId; count := count slot + amount |}]> slots, true))
  \/ ((forall slot, slot ∈ slots -> block slot <> blockId)
      /\ addToSlots slots blockId amount = (slots, false)).
Proof.
  induction slots as [|slot rest IH]; cbn [addToSlots].
  - right. split; [|done]. intros slot Hin. by apply elem_of_nil in Hin.
  - destruct (block slot =? blockId) eqn:E.
    + apply Z.eqb_eq in E. left. exists O, slot. split; [done|]. split; [done|].
      split; [intros j slot' Hj; lia|]. by rewrite E.
    + apply Z.eqb_neq in E. destruct IH as [(i & slot0 & Hi & Hb & Hfirst & ->)|[Hnone ->]].
      * left. exists (S i), slot0. split; [done|]. split; [done|]. split; [|done].
        intros [|j] slot' Hj Hl; [by injection Hl as <-|]. apply (Hfirst j); [lia|done].
      * right. split; [|done]. intros slot' Hin.
        apply elem_of_cons in Hin as [->|Hin]; [done|by apply Hnone].
Qed.

Lemma with_hotbar_id (s : World) : with_hotbar (hotbar s) s = s.
Proof. by destruct s. Qed.

Lemma counts_ok_insert (slots : list Slot) (i : nat) (slot : Slot) :
  counts_ok slots -> 0 <= count slot -> counts_ok (<[i := slot]> slots).
Proof.
  unfold counts_ok. intros Hall Hslot. apply Forall_lookup. intros j slot' Hj.
  destruct (decide (i = j)) as [->|Hne].
  - rewrite list_lookup_insert_eq in Hj.
    + by injection Hj as <-.
    + apply lookup_lt_Some in Hj. by rewrite length_insert in Hj.
  - rewrite list_lookup_insert_ne in Hj by done. by apply (Forall_lookup_1 _ _ _ _ Hall Hj).
Qed.

Lemma blocks_insert (slots : list Slot) (i : nat) (slot slot' : Slot) :
  slots !! i = Some slot -> block slot' = block slot ->
  block <$> <[i := slot']> slots = block <$> slots.
Proof.
  intros Hi Hb. rewrite list_fmap_insert, Hb.
  apply list_insert_id. by rewrite list_lookup_fmap, Hi.
Qed.

Lemma selected_lookup (s : World) (slot : Slot) :
  selected s = Some slot ->
  0 <= selectedSlot s /\ hotbar s !! Z.to_nat (selectedSlot s) = Some slot.
Proof.
  unfold selected. destruct (selectedSlot s <? 0) eqn:E; [done|].
  apply Z.ltb_ge in E. done.
Qed.

(** X17: [addToInventory] credits the first slot that holds the block,
    and only that slot; when no slot holds the block it returns false
    and changes nothing.  It never touches the chunks or the player. *)
Theorem addToInventory_credits_the_first_slot (blockId amount : Z) (s : World) :
  exists found s',
    addToInventory blockId amount s = Ok found s'
    /\ chunks s' = chunks s /\ player s' = player s /\ selectedSlot s' = selectedSlot s
    /\ ((found = true
         /\ exists i slot,
              hotbar s !! i = Some slot /\ block slot = blockId
              /\ (forall j slot', (j < i)%nat -> hotbar s !! j = Some slot' ->
                    block slot' <> blockId)
              /\ hotbar s'
                 = <[i := {| block := blockId; count := count slot + amount |}]> (hotbar s))
        \/ (found = false /\ s' = s
            /\ forall slot, slot ∈ hotbar s -> block slot <> blockId)).
Proof.
  unfold addToInventory.
  destruct (addToSlots_spec (hotbar s) blockId amount)
    as [(i & slot & Hi & Hb & Hfirst & ->)|[Hnone ->]].
  - eexists _, _. split; [reflexivity|]. split; [done|]. split; [done|]. split; [done|].
    left. split; [done|]. by exists i, slot.
  - eexists _, _. split; [reflexivity|]. split; [done|]. split; [done|]. split; [done|].
    right. split; [done|]. split; [apply with_hotbar_id|done].
Qed.

(** X18: [removeFromSelected] takes the amount from the selected slot
    exactly when that slot exists and holds at least the amount;
    otherwise it returns false and changes nothing.  Either way no count
    becomes negative and no slot changes its block. *)
Theorem removeFromSelected_takes_what_is_there (amount : Z) (s : World) :
  exists ok s',
    removeFromSelected amount s = Ok ok s'
    /\ ((ok = true
         /\ exists slot,
              selected s = Some slot /\ amount <= count slot
              /\ s' = with_hotbar
                        (<[Z.to_nat (selectedSlot s) :=
                             {| block := block slot; count := count slot - amount |}]> (hotbar s)) s)
        \/ (ok = false /\ s' = s
            /\ (selected s = None \/ exists slot, selected s = Some slot /\ count slot < amount)))
    /\ (counts_ok (hotbar s) -> counts_ok (hotbar s'))
    /\ block <$> hotbar s' = block <$> hotbar s.
Proof.
  unfold removeFromSelected. destruct (selected s) as [slot|] eqn:Hsel.
  - destruct (count slot <? amount) eqn:E.
    + apply Z.ltb_lt in E. exists false, s. split; [done|]. split; [|done].
      right. split; [done|]. split; [done|]. right. by exists slot.
    + apply Z.ltb_ge in E. eexists true, _. split; [reflexivity|].
      apply selected_lookup in Hsel as Hl. destruct Hl as [_ Hl]. split; [|split].
      * left. split; [done|]. by exists slot.
      * intros Hok. cbn [hotbar with_hotbar]. apply counts_ok_insert; [done|]. cbn. lia.
      * cbn [hotbar with_hotbar]. by apply (blocks_insert _ _ slot).
  - exists false, s. split; [done|]. split; [|done].
    right. split; [done|]. split; [done|]. by left.
Qed.

(** ** The mouse *)

Section MouseFacts.

Variable generateChunk : Z -> Js.result Chunk.
Hypothesis generateChunk_total : generator_total generateChunk.

Lemma tileAt_in_range (m : gmap Z Chunk) (tx ty b : Z) :
  tileAt generateChunk m tx ty = Js.Value b -> b <> BLOCK.AIR -> 0 <= ty < WORLD_H.
Proof.
  unfold tileAt. intros Hb Hne.
  destruct (ty <? 0) eqn:E1; [simpl in Hb; congruence|].
  destruct (WORLD_H <=? ty) eqn:E2; [simpl in Hb; congruence|].
  apply Z.ltb_ge in E1. apply Z.leb_gt in E2. lia.
Qed.

(** Breaking. *)
Lemma mousedown_break (mx my : Q) (tx ty b : Z) (s : World) :
  store_wf s ->
  targetTile s mx my = (tx, ty) ->
  withinReach s tx ty = true ->
  tileAt generateChunk (chunks s) tx ty = Js.Value b -> b <> BLOCK.AIR ->
  exists m,
    mousedown generateChunk mx my 0 s
    = Ok tt (with_hotbar (addToSlots (hotbar s) b 1).1 (with_chunks m s))
    /\ map_Forall (fun _ c => chunk_wf c) m
    /\ tileAt generateChunk m tx ty = Js.Value BLOCK.AIR
    /\ forall tx' ty', tx' <> tx \/ ty' <> ty ->
         tileAt generateChunk m tx' ty' = tileAt generateChunk (chunks s) tx' ty'.
Proof.
  intros Hwf Htile Hreach Hb Hne. pose proof generateChunk_total as Hgen.
  pose proof (tileAt_in_range _ _ _ _ Hb Hne) as Hty.
  unfold mousedown, targetTile in *. rewrite (M_bind_ok get _ s s s eq_refl).
  destruct (screenToWorld s mx my) as [wx wy]. rewrite Htile, Hreach.
  cbn [negb]. change (0 =? 0) with true. cbv iota.
  destruct (getBlock_tileAt _ Hgen tx ty s Hwf) as (b' & s1 & E1 & Hb' & Hs1).
  assert (b' = b) as -> by congruence.
  rewrite (M_bind_ok _ _ _ _ _ E1).
  destruct (b =? BLOCK.AIR) eqn:Eb; [apply Z.eqb_eq in Eb; done|]. cbn [negb].
  pose proof (settled_wf _ Hgen _ _ Hs1 Hwf) as Hwf1.
  destruct Hs1 as (m1 & -> & Hg1).
  destruct (setBlock_at _ generateChunk_total tx ty BLOCK.AIR _ Hwf1 Hty) as (m2 & E2 & Hwf2 & Hset & Hother).
  rewrite (M_bind_ok _ _ _ _ _ E2). rewrite with_chunks_twice.
  exists m2. split.
  - assert (addToInventory b 1 (with_chunks m2 s)
            = Ok (addToSlots (hotbar s) b 1).2
                 (with_hotbar (addToSlots (hotbar s) b 1).1 (with_chunks m2 s))) as E3.
    { unfold addToInventory. cbn [hotbar with_chunks].
      by destruct (addToSlots (hotbar s) b 1) as [slots found]. }
    by rewrite (M_bind_ok _ _ _ _ _ E3).
  - split; [exact Hwf2|]. split; [exact Hset|].
    intros tx' ty' Hd. rewrite (Hother tx' ty' Hd). cbn [chunks with_chunks].
    by apply grown_tileAt.
Qed.

(** Placing. *)
Lemma mousedown_place (mx my : Q) (tx ty : Z) (slot : Slot) (s : World) :
  store_wf s ->
  targetTile s mx my = (tx, ty) ->
  withinReach s tx ty = true ->
  selected s = Some slot -> 0 < count slot ->
  tileAt generateChunk (chunks s) tx ty = Js.Value BLOCK.AIR ->
  overlaps s tx ty = false ->
  exists m,
    mousedown generateChunk mx my 2 s
    = Ok tt (with_hotbar
               (<[Z.to_nat (selectedSlot s) :=
                    {| block := block slot; count := count slot - 1 |}]> (hotbar s))
               (with_chunks m s))
    /\ map_Forall (fun _ c => chunk_wf c) m
    /\ (0 <= ty < WORLD_H ->
        tileAt generateChunk m tx ty = Js.Value (block slot)
        /\ forall tx' ty', tx' <> tx \/ ty' <> ty ->
             tileAt generateChunk m tx' ty' = tileAt generateChunk (chunks s) tx' ty')
    /\ (ty < 0 \/ WORLD_H <= ty ->
        forall tx' ty', tileAt generateChunk m tx' ty' = tileAt generateChunk (chunks s) tx' ty').
Proof.
  intros Hwf Htile Hreach Hsel Hcount Hair Hover. pose proof generateChunk_total as Hgen.
  unfold mousedown, targetTile in *. rewrite (M_bind_ok get _ s s s eq_refl).
  destruct (screenToWorld s mx my) as [wx wy]. rewrite Htile, Hreach.
  cbn [negb]. change (2 =? 0) with false. change (2 =? 2) with true. cbv iota.
  rewrite Hsel.
  destruct (count slot <=? 0) eqn:Ec; [apply Z.leb_le in Ec; lia|].
  destruct (getBlock_tileAt _ Hgen tx ty s Hwf) as (b' & s1 & E1 & Hb' & Hs1).
  assert (b' = BLOCK.AIR) as -> by congruence.
  rewrite (M_bind_ok _ _ _ _ _ E1). change (BLOCK.AIR =? BLOCK.AIR) with true. cbn [negb].
  rewrite (M_bind_ok get _ s1 s1 s1 eq_refl).
  pose proof (settled_wf _ Hgen _ _ Hs1 Hwf) as Hwf1.
  destruct Hs1 as (m1 & -> & Hg1).
  assert (overlaps (with_chunks m1 s) tx ty = false) as -> by exact Hover.
  assert (forall m, removeFromSelected 1 (with_chunks m s)
                    = Ok true (with_hotbar
                                 (<[Z.to_nat (selectedSlot s) :=
                                      {| block := block slot; count := count slot - 1 |}]>
                                    (hotbar s)) (with_chunks m s))) as Hrem.
  { intros m. unfold removeFromSelected.
    assert (selected (with_chunks m s) = Some slot) as -> by exact Hsel.
    destruct (count slot <? 1) eqn:E; [apply Z.ltb_lt in E; lia|]. reflexivity. }
  destruct (decide (0 <= ty < WORLD_H)) as [Hty|Hty].
  - destruct (setBlock_at _ generateChunk_total tx ty (block slot) _ Hwf1 Hty) as (m2 & E2 & Hwf2 & Hset & Hother).
    rewrite (M_bind_ok _ _ _ _ _ E2). rewrite with_chunks_twice.
    exists m2. split; [by rewrite (M_bind_ok _ _ _ _ _ (Hrem m2))|].
    split; [exact Hwf2|]. split; [|intros; lia].
    intros _. split; [exact Hset|].
    intros tx' ty' Hd. rewrite (Hother tx' ty' Hd). cbn [chunks with_chunks].
    by apply grown_tileAt.
  - assert (setBlock generateChunk tx ty (block slot) (with_chunks m1 s)
            = Ok tt (with_chunks m1 s)) as E2.
    { unfold setBlock. rewrite row_guard_out by lia. reflexivity. }
    rewrite (M_bind_ok _ _ _ _ _ E2).
    exists m1. split; [by rewrite (M_bind_ok _ _ _ _ _ (Hrem m1))|].
    split; [exact Hwf1|]. split; [intros; lia|].
    intros _ tx' ty'. by apply grown_tileAt.
Qed.

Lemma mousedown_place_inside (mx my : Q) (tx ty : Z) (slot : Slot) (s : World) :
  store_wf s ->
  targetTile s mx my = (tx, ty) ->
  withinReach s tx ty = true ->
  selected s = Some slot -> 0 < count slot ->
  tileAt generateChunk (chunks s) tx ty = Js.Value BLOCK.AIR ->
  overlaps s tx ty = false ->
  0 <= ty < WORLD_H ->
  exists m,
    mousedown generateChunk mx my 2 s
    = Ok tt (with_hotbar
               (<[Z.to_nat (selectedSlot s) :=
                    {| block := block slot; count := count slot - 1 |}]> (hotbar s))
               (with_chunks m s))
    /\ map_Forall (fun _ c => chunk_wf c) m
    /\ tileAt generateChunk m tx ty = Js.Value (block slot)
    /\ forall tx' ty', tx' <> tx \/ ty' <> ty ->
         tileAt generateChunk m tx' ty' = tileAt generateChunk (chunks s) tx' ty'.
Proof.
  intros Hwf Htile Hreach Hsel Hcount Hair Hover Hty.
  destruct (mousedown_place mx my tx ty slot s Hwf Htile Hreach Hsel Hcount Hair Hover)
    as (m & E & Hwfm & Hin & _).
  exists m. split; [exact E|]. split; [exact Hwfm|]. exact (Hin Hty).
Qed.

Lemma mousedown_place_outside (mx my : Q) (tx ty : Z) (slot : Slot) (s : World) :
  store_wf s ->
  targetTile s mx my = (tx, ty) ->
  withinReach s tx ty = true ->
  selected s = Some slot -> 0 < count slot ->
  overlaps s tx ty = false ->
  ty < 0 \/ WORLD_H <= ty ->
  exists m,
    mousedown generateChunk mx my 2 s
    = Ok tt (with_hotbar
               (<[Z.to_nat (selectedSlot s) :=
                    {| block := block slot; count := count slot - 1 |}]> (hotbar s))
               (with_chunks m s))
    /\ forall tx' ty', tileAt generateChunk m tx' ty' = tileAt generateChunk (chunks s) tx' ty'.
Proof.
  intros Hwf Htile Hreach Hsel Hcount Hover Hty.
  assert (tileAt generateChunk (chunks s) tx ty = Js.Value BLOCK.AIR) as Hair.
  { unfold tileAt. by rewrite row_guard_out. }
  destruct (mousedown_place mx my tx ty slot s Hwf Htile Hreach Hsel Hcount Hair Hover)
    as (m & E & _ & _ & Hout).
  exists m. split; [exact E|]. exact (Hout Hty).
Qed.

(** A click that is out of reach, or made with another button, does
    nothing. *)
Lemma mousedown_ignored (mx my : Q) (button : Z) (s : World) :
  withinReach s (targetTile s mx my).1 (targetTile s mx my).2 = false
  \/ (button <> 0 /\ button <> 2) ->
  mousedown generateChunk mx my button s = Ok tt s.
Proof.
  intros Hcase. unfold mousedown, targetTile in *. rewrite (M_bind_ok get _ s s s eq_refl).
  destruct (screenToWorld s mx my) as [wx wy].
  destruct (worldToTile wx wy) as [tx ty]. cbn [fst snd] in Hcase.
  destruct (withinReach s tx ty); cbn [negb]; [|reflexivity].
  destruct Hcase as [Hcase|[H0 H2]]; [done|].
  destruct (button =? 0) eqn:E0; [apply Z.eqb_eq in E0; done|].
  destruct (button =? 2) eqn:E2; [apply Z.eqb_eq in E2; done|]. reflexivity.
Qed.

End MouseFacts.

Lemma square_bound (a r : Q) : (0 <= r)%Q -> (a * a <= r * r)%Q -> (Qabs a <= r)%Q.
Proof.
  intros Hr Hsq. apply Qabs_case; intros Ha.
  - apply Qnot_lt_le. intros Hlt.
    assert (0 < (a - r) * (a + r))%Q as H by (apply Qmult_lt_0_compat; lra).
    assert ((a - r) * (a + r) == a * a - r * r)%Q as E by ring. rewrite E in H. lra.
  - apply Qnot_lt_le. intros Hlt.
    assert (0 < (- a - r) * (- a + r))%Q as H by (apply Qmult_lt_0_compat; lra).
    assert ((- a - r) * (- a + r) == a * a - r * r)%Q as E by ring. rewrite E in H. lra.
Qed.

Lemma square_nonneg (a : Q) : (0 <= a * a)%Q.
Proof.
  destruct (Qlt_le_dec a 0) as [Hneg|Hpos].
  - assert (a * a == (- a) * (- a))%Q as -> by ring. apply Qmult_le_0_compat; lra.
  - by apply Qmult_le_0_compat.
Qed.

(** X19: a click reaches only tiles near the player: when [withinReach]
    holds, the centre of the tile is within [REACH] of the centre of the
    player's box on each axis. *)
Theorem withinReach_is_local (s : World) (tx ty : Z) :
  withinReach s tx ty = true ->
  (Qabs (Player.x (player s) + Player.w (player s) / 2
         - (inject_Z (tx * TILE) + inject_Z TILE / 2)) <= inject_Z REACH)%Q
  /\ (Qabs (Player.y (player s) + Player.h (player s) / 2
            - (inject_Z (ty * TILE) + inject_Z TILE / 2)) <= inject_Z REACH)%Q.
Proof.
  unfold withinReach. cbv zeta. intros H. apply Qle_bool_iff in H.
  set (a := (Player.x (player s) + Player.w (player s) / 2
             - (inject_Z (tx * TILE) + inject_Z TILE / 2))%Q) in *.
  set (b := (Player.y (player s) + Player.h (player s) / 2
             - (inject_Z (ty * TILE) + inject_Z TILE / 2))%Q) in *.
  rewrite inject_Z_mult in H.
  pose proof (square_nonneg a). pose proof (square_nonneg b).
  assert (0 <= inject_Z REACH)%Q by (by vm_compute).
  split; apply square_bound; try done; lra.
Qed.

Lemma withinReach_is_local_witness :
  withinReach startWorld 2 10 = true
  /\ (Qabs (Player.x (player startWorld) + Player.w (player startWorld) / 2
            - (inject_Z (2 * TILE) + inject_Z TILE / 2)) <= inject_Z REACH)%Q
  /\ (Qabs (Player.y (player startWorld) + Player.h (player startWorld) / 2
            - (inject_Z (10 * TILE) + inject_Z TILE / 2)) <= inject_Z REACH)%Q.
Proof.
  split; [by vm_compute|]. apply (withinReach_is_local startWorld 2 10). by vm_compute.
Defined.

Section MoreFacts.

Variable generateChunk : Z -> Js.result Chunk.
Hypothesis generateChunk_total : generator_total generateChunk.

Lemma getBlock_read (tx ty : Z) (s : World) :
  store_wf s ->
  exists b s',
    getBlock generateChunk tx ty s = Ok b s'
    /\ tileAt generateChunk (chunks s) tx ty = Js.Value b
    /\ getBlock generateChunk tx ty s' = Ok b s'
    /\ (forall tx' ty', tileAt generateChunk (chunks s') tx' ty'
                        = tileAt generateChunk (chunks s) tx' ty')
    /\ player s' = player s /\ hotbar s' = hotbar s.
Proof.
  intros Hwf.
  destruct (getBlock_tileAt _ generateChunk_total tx ty s Hwf) as (b & s' & E & Hb & Hs').
  exists b, s'. split; [exact E|]. split; [exact Hb|].
  split; [|split; [intros tx' ty'; by apply settled_tileAt|
                   split; [by apply (settled_player generateChunk)|by apply (settled_hotbar generateChunk)]]].
  destruct (decide (0 <= ty < WORLD_H)) as [Hty|Hty].
  - destruct (getBlock_spec _ generateChunk_total tx ty s Hwf Hty)
      as (c & b' & E' & _ & _ & Hcell).
    rewrite E in E'. injection E' as -> ->.
    unfold getBlock. rewrite row_guard_in by done.
    assert (getChunk generateChunk (floorDiv tx CHUNK_W)
              (with_chunks (<[floorDiv tx CHUNK_W := c]> (chunks s)) s)
            = Ok c (with_chunks (<[floorDiv tx CHUNK_W := c]> (chunks s)) s)) as Ec.
    { unfold getChunk. cbn [chunks with_chunks]. by rewrite lookup_insert_eq. }
    rewrite (M_bind_ok _ _ _ _ _ Ec). unfold liftR. by rewrite Hcell.
  - unfold getBlock in *. rewrite row_guard_out in * by lia.
    injection E as <- <-. reflexivity.
Qed.

Lemma tileAt_total (tx ty : Z) (s : World) :
  store_wf s -> exists b, tileAt generateChunk (chunks s) tx ty = Js.Value b.
Proof.
  intros Hwf.
  destruct (getBlock_tileAt _ generateChunk_total tx ty s Hwf) as (b & s' & _ & Hb & _).
  by exists b.
Qed.

Lemma addToSlots_counts (slots : list Slot) (blockId amount : Z) :
  0 <= amount -> counts_ok slots ->
  counts_ok (addToSlots slots blockId amount).1
  /\ block <$> (addToSlots slots blockId amount).1 = block <$> slots.
Proof.
  intros Ha Hok.
  destruct (addToSlots_spec slots blockId amount)
    as [(i & slot & Hi & Hb & _ & ->)|[_ ->]]; [|done].
  cbn [fst]. split.
  - apply counts_ok_insert; [done|]. cbn.
    pose proof (Forall_lookup_1 _ _ _ _ Hok Hi) as Hc. cbn in Hc. lia.
  - by apply (blocks_insert _ _ slot).
Qed.

Lemma mousedown_invariant (mx my : Q) (button : Z) (s : World) :
  store_wf s -> counts_ok (hotbar s) ->
  exists s',
    mousedown generateChunk mx my button s = Ok tt s'
    /\ store_wf s' /\ counts_ok (hotbar s')
    /\ block <$> hotbar s' = block <$> hotbar s
    /\ player s' = player s /\ selectedSlot s' = selectedSlot s.
Proof.
  intros Hwf Hok. pose proof generateChunk_total as Hgen.
  destruct (targetTile s mx my) as [tx ty] eqn:Htile.
  destruct (withinReach s tx ty) eqn:Hreach.
  2:{ exists s. split; [|done]. apply mousedown_ignored. left. by rewrite Htile. }
  destruct (decide (button = 0)) as [->|H0].
  { destruct (tileAt_total tx ty s Hwf) as [b Hb].
    destruct (decide (b = BLOCK.AIR)) as [->|Hne].
    - (* nothing to break *)
      unfold mousedown, targetTile in *. rewrite (M_bind_ok get _ s s s eq_refl).
      destruct (screenToWorld s mx my) as [wx wy]. rewrite Htile, Hreach.
      cbn [negb]. change (0 =? 0) with true. cbv iota.
      destruct (getBlock_tileAt _ Hgen tx ty s Hwf) as (b' & s1 & E1 & Hb' & Hs1).
      assert (b' = BLOCK.AIR) as -> by congruence.
      rewrite (M_bind_ok _ _ _ _ _ E1). change (BLOCK.AIR =? BLOCK.AIR) with true. cbn [negb].
      exists s1. split; [done|]. split; [by apply (settled_wf _ Hgen s)|].
      rewrite (settled_hotbar _ _ _ Hs1), (settled_player _ _ _ Hs1).
      destruct Hs1 as (m1 & -> & _). done.
    - destruct (mousedown_break _ generateChunk_total mx my tx ty b s Hwf Htile Hreach Hb Hne)
        as (m & E & Hwfm & _).
      eexists. split; [exact E|]. split; [exact Hwfm|].
      destruct (addToSlots_counts (hotbar s) b 1 ltac:(lia) Hok) as [H1 H2]. done. }
  destruct (decide (button = 2)) as [->|H2].
  2:{ exists s. split; [|done]. apply mousedown_ignored. by right. }
  destruct (selected s) as [slot|] eqn:Hsel.
  2:{ exists s. split; [|done].
      unfold mousedown, targetTile in *. rewrite (M_bind_ok get _ s s s eq_refl).
      destruct (screenToWorld s mx my) as [wx wy]. rewrite Htile, Hreach, Hsel. reflexivity. }
  destruct (decide (count slot <= 0)) as [Hc|Hc].
  { exists s. split; [|done].
    unfold mousedown, targetTile in *. rewrite (M_bind_ok get _ s s s eq_refl).
    destruct (screenToWorld s mx my) as [wx wy]. rewrite Htile, Hreach, Hsel.
    cbn [negb]. change (2 =? 0) with false. change (2 =? 2) with true. cbv iota.
    destruct (count slot <=? 0) eqn:E; [reflexivity|apply Z.leb_gt in E; lia]. }
  destruct (tileAt_total tx ty s Hwf) as [b Hb].
  destruct (decide (b = BLOCK.AIR /\ overlaps s tx ty = false)) as [[-> Hover]|Hrej].
  - destruct (mousedown_place _ generateChunk_total mx my tx ty slot s Hwf Htile Hreach Hsel
                ltac:(lia) Hb Hover) as (m & E & Hwfm & _).
    eexists. split; [exact E|]. split; [exact Hwfm|].
    apply selected_lookup in Hsel as [_ Hsel]. cbn [hotbar with_hotbar with_chunks].
    split; [apply counts_ok_insert; [done|cbn; lia]|].
    split; [by apply (blocks_insert _ _ slot)|done].
  - unfold mousedown, targetTile in *. rewrite (M_bind_ok get _ s s s eq_refl).
    destruct (screenToWorld s mx my) as [wx wy]. rewrite Htile, Hreach, Hsel.
    cbn [negb]. change (2 =? 0) with false. change (2 =? 2) with true. cbv iota.
    destruct (count slot <=? 0) eqn:E; [apply Z.leb_le in E; lia|].
    destruct (getBlock_tileAt _ Hgen tx ty s Hwf) as (b' & s1 & E1 & Hb' & Hs1).
    assert (b' = b) as -> by congruence.
    rewrite (M_bind_ok _ _ _ _ _ E1).
    assert (store_wf s1 /\ counts_ok (hotbar s1) /\ block <$> hotbar s1 = block <$> hotbar s
            /\ player s1 = player s /\ selectedSlot s1 = selectedSlot s) as Hkeep.
    { split; [by apply (settled_wf _ Hgen s)|].
      rewrite (settled_hotbar _ _ _ Hs1), (settled_player _ _ _ Hs1).
      destruct Hs1 as (m1 & -> & _). done. }
    destruct (b =? BLOCK.AIR) eqn:Eb; cbn [negb]; [|by exists s1].
    apply Z.eqb_eq in Eb. rewrite (M_bind_ok get _ s1 s1 s1 eq_refl).
    assert (overlaps s1 tx ty = overlaps s tx ty) as ->.
    { unfold overlaps. by rewrite (settled_player _ _ _ Hs1). }
    destruct (overlaps s tx ty) eqn:Hover; [by exists s1|].
    exfalso. apply Hrej. done.
Qed.

End MoreFacts.

(** X20: [getBlock] is a read: it returns the block the tile holds, a
    second read returns the same block and changes nothing, and after
    the first every tile reads as before (the chunk may have been
    generated and stored); the player and the hotbar are untouched. *)
Theorem getBlock_is_a_pure_read (tx ty : Z) (s : World) :
  store_wf s ->
  exists b s',
    getBlock Stable.generateChunk tx ty s = Ok b s'
    /\ tileAt Stable.generateChunk (chunks s) tx ty = Js.Value b
    /\ getBlock Stable.generateChunk tx ty s' = Ok b s'
    /\ (forall tx' ty', tileAt Stable.generateChunk (chunks s') tx' ty'
                        = tileAt Stable.generateChunk (chunks s) tx' ty')
    /\ player s' = player s /\ hotbar s' = hotbar s.
Proof. exact (getBlock_read Stable.generateChunk Stable_generateChunk_total tx ty s). Qed.

Lemma getBlock_is_a_pure_read_witness :
  store_wf stuckWorld
  /\ exists b s',
       getBlock Stable.generateChunk 2 12 stuckWorld = Ok b s'
       /\ tileAt Stable.generateChunk (chunks stuckWorld) 2 12 = Js.Value b
       /\ getBlock Stable.generateChunk 2 12 s' = Ok b s'
       /\ (forall tx' ty', tileAt Stable.generateChunk (chunks s') tx' ty'
                           = tileAt Stable.generateChunk (chunks stuckWorld) tx' ty')
       /\ player s' = player stuckWorld /\ hotbar s' = hotbar stuckWorld.
Proof.
  split; [apply floorWorld_wf|].
  apply (getBlock_is_a_pure_read 2 12 stuckWorld). apply floorWorld_wf.
Defined.

(** X21: breaking.  A left click within reach on a tile that holds a
    block other than Air makes that tile Air and leaves every other tile
    as it was; the hotbar is what [addToInventory] makes of it with one
    more of that block (unchanged when no slot holds the block, which is
    then lost). *)
Theorem breaking_a_block (mx my : Q) (tx ty b : Z) (s : World) :
  store_wf s ->
  targetTile s mx my = (tx, ty) ->
  withinReach s tx ty = true ->
  tileAt Stable.generateChunk (chunks s) tx ty = Js.Value b -> b <> BLOCK.AIR ->
  exists m,
    mousedown Stable.generateChunk mx my 0 s
    = Ok tt (with_hotbar (addToSlots (hotbar s) b 1).1 (with_chunks m s))
    /\ map_Forall (fun _ c => chunk_wf c) m
    /\ tileAt Stable.generateChunk m tx ty = Js.Value BLOCK.AIR
    /\ forall tx' ty', tx' <> tx \/ ty' <> ty ->
         tileAt Stable.generateChunk m tx' ty'
         = tileAt Stable.generateChunk (chunks s) tx' ty'.
Proof.
  exact (mousedown_break Stable.generateChunk Stable_generateChunk_total mx my tx ty b s).
Qed.

Lemma breaking_a_block_witness :
  store_wf fallingWorld
  /\ targetTile fallingWorld 70 390 = (2, 12)
  /\ withinReach fallingWorld 2 12 = true
  /\ tileAt Stable.generateChunk (chunks fallingWorld) 2 12 = Js.Value BLOCK.STONE
  /\ BLOCK.STONE <> BLOCK.AIR
  /\ exists m,
       mousedown Stable.generateChunk 70 390 0 fallingWorld
       = Ok tt (with_hotbar (addToSlots (hotbar fallingWorld) BLOCK.STONE 1).1
                  (with_chunks m fallingWorld))
       /\ map_Forall (fun _ c => chunk_wf c) m
       /\ tileAt Stable.generateChunk m 2 12 = Js.Value BLOCK.AIR
       /\ forall tx' ty', tx' <> 2 \/ ty' <> 12 ->
            tileAt Stable.generateChunk m tx' ty'
            = tileAt Stable.generateChunk (chunks fallingWorld) tx' ty'.
Proof.
  split; [apply floorWorld_wf|]. split; [by vm_compute|]. split; [by vm_compute|].
  split; [by vm_compute|]. split; [by vm_compute|].
  apply (breaking_a_block 70 390 2 12 BLOCK.STONE fallingWorld);
    [apply floorWorld_wf|by vm_compute|by vm_compute|by vm_compute|by vm_compute].
Defined.

(** X22: placing.  A right click within reach on an Air tile that the
    player's box does not overlap, with a selected slot that holds at
    least one block, takes one block from that slot; if the tile's row
    is inside the world the tile then holds the slot's block and every
    other tile is as it was. *)
Theorem placing_a_block (mx my : Q) (tx ty : Z) (slot : Slot) (s : World) :
  store_wf s ->
  targetTile s mx my = (tx, ty) ->
  withinReach s tx ty = true ->
  selected s = Some slot -> 0 < count slot ->
  tileAt Stable.generateChunk (chunks s) tx ty = Js.Value BLOCK.AIR ->
  overlaps s tx ty = false ->
  0 <= ty < WORLD_H ->
  exists m,
    mousedown Stable.generateChunk mx my 2 s
    = Ok tt (with_hotbar
               (<[Z.to_nat (selectedSlot s) :=
                    {| block := block slot; count := count slot - 1 |}]> (hotbar s))
               (with_chunks m s))
    /\ map_Forall (fun _ c => chunk_wf c) m
    /\ tileAt Stable.generateChunk m tx ty = Js.Value (block slot)
    /\ forall tx' ty', tx' <> tx \/ ty' <> ty ->
         tileAt Stable.generateChunk m tx' ty'
         = tileAt Stable.generateChunk (chunks s) tx' ty'.
Proof.
  exact (mousedown_place_inside Stable.generateChunk Stable_generateChunk_total
           mx my tx ty slot s).
Qed.

Lemma placing_a_block_witness :
  store_wf fallingWorld
  /\ targetTile fallingWorld 100 360 = (3, 11)
  /\ withinReach fallingWorld 3 11 = true
  /\ selected fallingWorld = Some {| block := BLOCK.DIRT; count := 40 |}
  /\ 0 < count {| block := BLOCK.DIRT; count := 40 |}
  /\ tileAt Stable.generateChunk (chunks fallingWorld) 3 11 = Js.Value BLOCK.AIR
  /\ overlaps fallingWorld 3 11 = false
  /\ 0 <= 11 < WORLD_H
  /\ exists m,
       mousedown Stable.generateChunk 100 360 2 fallingWorld
       = Ok tt (with_hotbar
                  (<[Z.to_nat (selectedSlot fallingWorld) :=
                       {| block := block {| block := BLOCK.DIRT; count := 40 |};
                          count := count {| block := BLOCK.DIRT; count := 40 |} - 1 |}]>
                     (hotbar fallingWorld))
                  (with_chunks m fallingWorld))
       /\ map_Forall (fun _ c => chunk_wf c) m
       /\ tileAt Stable.generateChunk m 3 11
          = Js.Value (block {| block := BLOCK.DIRT; count := 40 |})
       /\ forall tx' ty', tx' <> 3 \/ ty' <> 11 ->
            tileAt Stable.generateChunk m tx' ty'
            = tileAt Stable.generateChunk (chunks fallingWorld) tx' ty'.
Proof.
  split; [apply floorWorld_wf|]. split; [by vm_compute|]. split; [by vm_compute|].
  split; [by vm_compute|]. split; [by vm_compute|]. split; [by vm_compute|].
  split; [by vm_compute|]. split; [by vm_compute|].
  apply (placing_a_block 100 360 3 11 {| block := BLOCK.DIRT; count := 40 |} fallingWorld);
    [apply floorWorld_wf|by vm_compute|by vm_compute|by vm_compute|by vm_compute
    |by vm_compute|by vm_compute|by vm_compute].
Defined.

(** X23: placing outside the rows of the world.  When the tile under
    the pointer is above row 0 or below the last row, within reach and
    clear of the player's box, a right click still takes one block from
    the selected slot, and no tile changes: [setBlock] ignores the row,
    [removeFromSelected] runs all the same. *)
Theorem placing_outside_the_rows_spends_the_block (mx my : Q) (tx ty : Z) (slot : Slot)
    (s : World) :
  store_wf s ->
  targetTile s mx my = (tx, ty) ->
  withinReach s tx ty = true ->
  selected s = Some slot -> 0 < count slot ->
  overlaps s tx ty = false ->
  ty < 0 \/ WORLD_H <= ty ->
  exists m,
    mousedown Stable.generateChunk mx my 2 s
    = Ok tt (with_hotbar
               (<[Z.to_nat (selectedSlot s) :=
                    {| block := block slot; count := count slot - 1 |}]> (hotbar s))
               (with_chunks m s))
    /\ forall tx' ty', tileAt Stable.generateChunk m tx' ty'
                       = tileAt Stable.generateChunk (chunks s) tx' ty'.
Proof.
  exact (mousedown_place_outside Stable.generateChunk Stable_generateChunk_total
           mx my tx ty slot s).
Qed.

Lemma placing_outside_the_rows_spends_the_block_witness :
  store_wf (floorWorld 12 64 40 0 0)
  /\ targetTile (floorWorld 12 64 40 0 0) 70 (-10) = (2, -1)
  /\ withinReach (floorWorld 12 64 40 0 0) 2 (-1) = true
  /\ selected (floorWorld 12 64 40 0 0) = Some {| block := BLOCK.DIRT; count := 40 |}
  /\ 0 < count {| block := BLOCK.DIRT; count := 40 |}
  /\ overlaps (floorWorld 12 64 40 0 0) 2 (-1) = false
  /\ (-1 < 0 \/ WORLD_H <= -1)
  /\ exists m,
       mousedown Stable.generateChunk 70 (-10) 2 (floorWorld 12 64 40 0 0)
       = Ok tt (with_hotbar
                  (<[Z.to_nat (selectedSlot (floorWorld 12 64 40 0 0)) :=
                       {| block := block {| block := BLOCK.DIRT; count := 40 |};
                          count := count {| block := BLOCK.DIRT; count := 40 |} - 1 |}]>
                     (hotbar (floorWorld 12 64 40 0 0)))
                  (with_chunks m (floorWorld 12 64 40 0 0)))
       /\ forall tx' ty', tileAt Stable.generateChunk m tx' ty'
                          = tileAt Stable.generateChunk (chunks (floorWorld 12 64 40 0 0)) tx' ty'.
Proof.
  split; [apply floorWorld_wf|]. split; [by vm_compute|]. split; [by vm_compute|].
  split; [by vm_compute|]. split; [by vm_compute|]. split; [by vm_compute|].
  split; [left; lia|].
  apply (placing_outside_the_rows_spends_the_block 70 (-10) 2 (-1)
           {| block := BLOCK.DIRT; count := 40 |} (floorWorld 12 64 40 0 0));
    [apply floorWorld_wf|by vm_compute|by vm_compute|by vm_compute|by vm_compute
    |by vm_compute|left; lia].
Defined.

(** X24: a click on a tile out of reach, or with a button other than
    the left and the right one, changes nothing at all, whatever the
    chunk generator: no chunk is even requested. *)
Theorem ignored_clicks (generateChunk : Z -> Js.result Chunk) (mx my : Q) (button : Z)
    (s : World) :
  withinReach s (targetTile s mx my).1 (targetTile s mx my).2 = false
  \/ (button <> 0 /\ button <> 2) ->
  mousedown generateChunk mx my button s = Ok tt s.
Proof. exact (mousedown_ignored generateChunk mx my button s). Qed.

Lemma ignored_clicks_witness :
  (withinReach startWorld (targetTile startWorld 700 20).1 (targetTile startWorld 700 20).2
   = false
   \/ (0 <> 0 /\ 0 <> 2))
  /\ mousedown Stable.generateChunk 700 20 0 startWorld = Ok tt startWorld.
Proof.
  split; [left; by vm_compute|].
  apply (ignored_clicks Stable.generateChunk 700 20 0 startWorld). left. by vm_compute.
Defined.

(** X25: every click returns, whatever the pointer position and the
    button, and keeps the invariants of the state: the chunk map is well
    formed, no count of the hotbar is negative, the slots keep their
    blocks, and the player and the selected slot are untouched. *)
Theorem mousedown_keeps_the_state_sound (mx my : Q) (button : Z) (s : World) :
  store_wf s -> counts_ok (hotbar s) ->
  exists s',
    mousedown Stable.generateChunk mx my button s = Ok tt s'
    /\ store_wf s' /\ counts_ok (hotbar s')
    /\ block <$> hotbar s' = block <$> hotbar s
    /\ player s' = player s /\ selectedSlot s' = selectedSlot s.
Proof.
  exact (mousedown_invariant Stable.generateChunk Stable_generateChunk_total mx my button s).
Qed.

Lemma mousedown_keeps_the_state_sound_witness :
  store_wf fallingWorld
  /\ counts_ok (hotbar fallingWorld)
  /\ exists s',
       mousedown Stable.generateChunk 100 360 2 fallingWorld = Ok tt s'
       /\ store_wf s' /\ counts_ok (hotbar s')
       /\ block <$> hotbar s' = block <$> hotbar fallingWorld
       /\ player s' = player fallingWorld /\ selectedSlot s' = selectedSlot fallingWorld.
Proof.
  assert (counts_ok (hotbar fallingWorld)) as Hok.
  { unfold counts_ok. repeat constructor; by vm_compute. }
  split; [apply floorWorld_wf|]. split; [exact Hok|].
  apply (mousedown_keeps_the_state_sound 100 360 2 fallingWorld);
    [apply floorWorld_wf|exact Hok].
Defined.

(** ** Survival *)

Lemma ensures_ret (P : World -> Prop) : ensures P (mret tt) P.
Proof. intros s Hs. by exists s. Qed.

Lemma ensures_weaken (P P' R R' : World -> Prop) (m : M unit) :
  (forall s, P' s -> P s) -> (forall s, R s -> R' s) -> ensures P m R -> ensures P' m R'.
Proof.
  intros HP HR Hm s Hs. destruct (Hm s (HP s Hs)) as (s' & E & Hs'). exists s'.
  split; [exact E|by apply HR].
Qed.

Lemma ensures_seq (P R T : World -> Prop) (m1 m2 : M unit) :
  ensures P m1 R -> ensures R m2 T -> ensures P (m1;; m2) T.
Proof.
  intros H1 H2 s Hs. destruct (H1 s Hs) as (s1 & E1 & Hs1).
  rewrite (M_bind_ok _ _ _ _ _ E1). by apply H2.
Qed.

Lemma ensures_get (P R : World -> Prop) (k : World -> M unit) :
  (forall s0, P s0 -> ensures (fun s => s = s0) (k s0) R) -> ensures P (s ← get; k s) R.
Proof. intros Hk s Hs. rewrite (M_bind_ok get _ s s s eq_refl). by apply (Hk s Hs). Qed.

Lemma ensures_modify (P R : World -> Prop) (f : World -> World) :
  (forall s, P s -> R (f s)) -> ensures P (modify f) R.
Proof. intros Hf s Hs. exists (f s). split; [done|by apply Hf]. Qed.

Lemma ensures_random (P P' R : World -> Prop) (k : Q -> M unit) :
  (forall s, P s -> P' (with_drawn (S (drawn s)) s)) ->
  (forall r, ensures P' (k r) R) -> ensures P (r ← Math_random; k r) R.
Proof.
  intros Hd Hk s Hs.
  rewrite (M_bind_ok Math_random _ s (with_drawn (S (drawn s)) s) (entropy s (drawn s)) eq_refl).
  by apply Hk, Hd.
Qed.

Lemma ensures_if (P R : World -> Prop) (b : bool) (m1 m2 : M unit) :
  (b = true -> ensures P m1 R) -> (b = false -> ensures P m2 R) ->
  ensures P (if b then m1 else m2) R.
Proof. destruct b; intros H1 H2; [by apply H1|by apply H2]. Qed.

Lemma keeps_ensures (I : World -> Prop) (m : M unit) : keeps I m -> ensures I m I.
Proof. done. Qed.

Lemma Js_lt_true (a b : Q) : Js.lt a b = true <-> (a < b)%Q.
Proof. unfold Js.lt. destruct (Qlt_le_dec a b); split; try done; lra. Qed.

Lemma Js_le_false (a b : Q) : Js.le a b = false <-> (b < a)%Q.
Proof.
  unfold Js.le. split.
  - intros H. apply Qnot_le_lt. intros Hle. apply Qle_bool_iff in Hle. congruence.
  - intros H. apply not_true_is_false. intros Hle. apply Qle_bool_iff in Hle. lra.
Qed.

Lemma Js_gt_false (a b : Q) : Js.gt a b = false <-> (a <= b)%Q.
Proof. unfold Js.gt, Js.lt. destruct (Qlt_le_dec b a); split; try done; lra. Qed.

(** [script.js] *)

Lemma whole_succ (q : Q) : whole q -> whole (q + 1)%Q.
Proof.
  intros [k Hk]. exists (k + 1). rewrite inject_Z_plus, Hk. reflexivity.
Qed.

Lemma whole_max0 (q : Q) : whole q -> whole (Js.max 0 (q - 1)%Q).
Proof.
  intros [k Hk]. unfold Js.max. destruct (Qlt_le_dec 0 (q - 1)).
  - exists (k - 1). unfold Z.sub. rewrite inject_Z_plus, Hk. reflexivity.
  - by exists 0.
Qed.

Lemma whole_lt (a b : Q) : whole a -> whole b -> (a < b)%Q -> (a + 1 <= b)%Q.
Proof.
  intros [k Hk] [l Hl] Hlt. rewrite Hk, Hl in *. rewrite <- Zlt_Qlt in Hlt.
  change 1%Q with (inject_Z 1). rewrite <- inject_Z_plus, <- Zle_Qle. lia.
Qed.

Lemma Script_updateSurvival_keeps (dt : Q) : keeps whole_vitals (Script.updateSurvival dt).
Proof.
  unfold Script.updateSurvival, modify_player.
  apply keeps_get. intros s0. apply keeps_seq.
  { apply keeps_modify. by intros s Hs. }
  apply keeps_get. intros s1. apply keeps_seq.
  { apply keeps_if; [|apply keeps_ret]. apply keeps_seq.
    - apply keeps_modify. by intros s Hs.
    - apply keeps_modify. intros s ((H1 & H2 & H3 & H4) & Hw). split; [|exact Hw].
      unfold vitals_ok. simpl.
      destruct (Js_max_0 (Player.hunger (player s) - 1)) as (Ha & Hb & [Hc|Hc]);
        repeat split; lra. }
  apply keeps_ensures, ensures_get. intros s2 Hs2. apply (ensures_seq _ whole_vitals).
  { apply ensures_if; intros Hcond; [|by intros s ->; exists s2].
    apply andb_true_iff in Hcond as [_ Hlt]. apply Js_lt_true in Hlt.
    apply (ensures_random _ (fun s => player s = player s2)); [by intros s ->|].
    intros r. apply ensures_if; intros _.
    - apply ensures_modify. intros s Hp. unfold whole_vitals. cbn. rewrite Hp.
      destruct Hs2 as ((H1 & H2 & H3 & H4) & Hw1 & Hw2).
      pose proof (whole_lt _ _ Hw1 Hw2 Hlt). split; [unfold vitals_ok; cbn; repeat split; lra|].
      split; [by apply whole_succ|done].
    - intros s Hp. exists s. split; [done|]. unfold whole_vitals. by rewrite Hp. }
  apply keeps_get. intros s3. apply keeps_seq.
  { apply keeps_if; [|apply keeps_ret].
    apply keeps_random; [by intros s n Hs|].
    intros r. apply keeps_if; [|apply keeps_ret].
    apply keeps_modify. intros s ((H1 & H2 & H3 & H4) & Hw1 & Hw2). unfold whole_vitals. cbn.
    split; [|split; [by apply whole_max0|done]]. unfold vitals_ok. cbn.
    destruct (Js_max_0 (Player.health (player s) - 1)) as (Ha & Hb & [Hc|Hc]);
      repeat split; lra. }
  apply keeps_get. intros s4. apply keeps_if; [|apply keeps_ret].
  repeat apply keeps_seq; apply keeps_modify; intros s ((H1 & H2 & H3 & H4) & Hw1 & Hw2);
    unfold whole_vitals, vitals_ok; cbn; (split; [repeat split; lra|by split]).
Qed.

(** X26: [updateSurvival] of the stable script leaves the player alive:
    whenever the maximal health is positive it returns with a positive
    health (a health that has run out shows only as a respawn) and with
    the hunger timer within its period of 4; it touches neither the
    chunks nor the hotbar. *)
Theorem updateSurvival_leaves_the_player_alive (dt : Q) (s0 : World) :
  (0 < Player.maxHealth (player s0))%Q ->
  exists s',
    updateSurvival dt s0 = Ok tt s'
    /\ (0 < Player.health (player s'))%Q
    /\ (hungerTimer s' <= 4)%Q
    /\ Player.maxHealth (player s') = Player.maxHealth (player s0)
    /\ chunks s' = chunks s0 /\ hotbar s' = hotbar s0.
Proof.
  intros maxHealth_positive. set (maxHealth := Player.maxHealth (player s0)) in *.
  assert (ensures (fun s => s = s0) (updateSurvival dt)
            (fun s => steady maxHealth s0 s /\ (0 < Player.health (player s))%Q)) as H.
  2:{ destruct (H s0 eq_refl) as (s' & E & (H1 & H2 & H3 & H4) & H5). by exists s'. }
  unfold updateSurvival, modify_player.
  apply ensures_get. intros s1 ->.
  apply (ensures_seq _ (fun s => Player.maxHealth (player s) = maxHealth
                                 /\ chunks s = chunks s0 /\ hotbar s = hotbar s0)).
  { apply ensures_modify. by intros s ->. }
  apply ensures_get. intros s2 Hs2. apply (ensures_seq _ (steady maxHealth s0)).
  { apply ensures_if; intros Hgt.
    - apply (ensures_seq _ (steady maxHealth s0)).
      + apply ensures_modify. intros s ->. destruct Hs2 as (H1 & H2 & H3).
        unfold steady. cbn. split; [done|]. split; [lra|done].
      + apply ensures_modify. intros s (H1 & H2 & H3 & H4). by unfold steady.
    - intros s ->. exists s2. split; [done|]. destruct Hs2 as (H1 & H2 & H3).
      apply Js_gt_false in Hgt. unfold steady. split; [exact H1|]. split; [lra|]. split; [exact H2|exact H3]. }
  apply ensures_get. intros s3 Hs3. apply (ensures_seq _ (steady maxHealth s0)).
  { apply (ensures_weaken (steady maxHealth s0) _ (steady maxHealth s0)); [by intros s ->|done|].
    apply keeps_if; [|apply keeps_ret]. apply keeps_random; [by intros s n Hs|].
    intros r. apply keeps_if; [|apply keeps_ret].
    apply keeps_modify. by intros s (H1 & H2 & H3 & H4). }
  apply ensures_get. intros s4 Hs4. apply (ensures_seq _ (steady maxHealth s0)).
  { apply (ensures_weaken (steady maxHealth s0) _ (steady maxHealth s0)); [by intros s ->|done|].
    apply keeps_if; [|apply keeps_ret]. apply keeps_random; [by intros s n Hs|].
    intros r. apply keeps_if; [|apply keeps_ret].
    apply keeps_modify. by intros s (H1 & H2 & H3 & H4). }
  apply ensures_get. intros s5 Hs5. apply ensures_if; intros Hle.
  - unfold respawn, modify_player.
    apply (ensures_seq _ (fun s => steady maxHealth s0 s /\ (0 < Player.health (player s))%Q)).
    { apply ensures_modify. intros s ->. destruct Hs5 as (H1 & H2 & H3 & H4).
      split; [by unfold steady|]. cbn. by rewrite H1. }
    repeat apply ensures_seq; apply ensures_modify; by intros s ((H1 & H2 & H3 & H4) & H5).
  - intros s ->. exists s5. split; [done|]. split; [done|]. by apply Js_le_false in Hle.
Qed.

Lemma updateSurvival_leaves_the_player_alive_witness :
  (0 < Player.maxHealth (player startWorld))%Q
  /\ exists s',
       updateSurvival 0.05 startWorld = Ok tt s'
       /\ (0 < Player.health (player s'))%Q
       /\ (hungerTimer s' <= 4)%Q
       /\ Player.maxHealth (player s') = Player.maxHealth (player startWorld)
       /\ chunks s' = chunks startWorld /\ hotbar s' = hotbar startWorld.
Proof.
  split; [by vm_compute|].
  apply (updateSurvival_leaves_the_player_alive 0.05 startWorld). by vm_compute.
Defined.

(** X27: [updateSurvival] of [script.js], whose regeneration adds 1
    without a cap, keeps the vitals within their bounds as long as the
    health and the maximal health are whole numbers, and keeps them
    whole. *)
Theorem Script_updateSurvival_keeps_whole_vitals (dt : Q) (s : World) :
  whole_vitals s ->
  exists s', Script.updateSurvival dt s = Ok tt s' /\ whole_vitals s'.
Proof. exact (Script_updateSurvival_keeps dt s). Qed.

Lemma Script_updateSurvival_keeps_whole_vitals_witness :
  whole_vitals startWorld
  /\ exists s', Script.updateSurvival 0.05 startWorld = Ok tt s' /\ whole_vitals s'.
Proof.
  assert (whole_vitals startWorld) as Hw.
  { split; [repeat split; by vm_compute|]. split; by exists 20. }
  split; [exact Hw|].
  apply (Script_updateSurvival_keeps_whole_vitals 0.05 startWorld Hw).
Defined.

(** ** Loading, saving and the first version *)

Lemma Script_getChunk (cx : Z) (s : World) :
  getChunk Script.generateChunk cx s
  = match chunks s !! cx with
    | Some c => Ok c s
    | None => Throw Js.TypeError
    end.
Proof.
  unfold getChunk. destruct (chunks s !! cx); [reflexivity|].
  by rewrite Script_generateChunk_raises.
Qed.

Lemma Script_loadAll_raises (keys : list Z) (k : Z) (s : World) :
  k ∈ keys -> chunks s !! k = None ->
  loadAll Script.generateChunk keys s = Throw Js.TypeError.
Proof.
  intros Hin Hk. induction keys as [|cx keys IH]; [by apply elem_of_nil in Hin|].
  cbn [loadAll]. unfold mbind, M_bind. rewrite Script_getChunk.
  destruct (chunks s !! cx) as [c|] eqn:Hcx; [|reflexivity].
  apply IH. apply elem_of_cons in Hin as [->|Hin]; [congruence|exact Hin].
Qed.

Section SaveFacts.

Variable generateChunk : Z -> Js.result Chunk.
Variable LOAD_RADIUS : Z.
Variable SEED : Z.
Hypothesis generateChunk_total : generator_total generateChunk.

Lemma saveChunks_spec (keys : list Z) (s : World) :
  exists saved m,
    saveChunks generateChunk keys s = Ok saved (with_chunks m s)
    /\ grown generateChunk (chunks s) m
    /\ saved.*1 = keys
    /\ forall k c, (k, c) ∈ saved -> m !! k = Some c.
Proof.
  revert s. induction keys as [|cx keys IH]; intros s; cbn [saveChunks].
  - exists [], (chunks s). rewrite with_chunks_id. split; [done|].
    split; [apply grown_refl|]. split; [done|]. intros k c Hin. by apply elem_of_nil in Hin.
  - destruct (getChunk_spec generateChunk generateChunk_total cx s) as (c & E & Hc).
    rewrite (M_bind_ok _ _ _ _ _ E).
    destruct (IH (with_chunks (<[cx := c]> (chunks s)) s)) as (saved & m & Es & Hg & Hkeys & Hin).
    rewrite (M_bind_ok _ _ _ _ _ Es). rewrite with_chunks_twice.
    exists ((cx, c) :: saved), m. split; [done|]. cbn [chunks with_chunks] in Hg. split.
    + apply (grown_trans generateChunk _ (<[cx := c]> (chunks s))); [|done].
      by apply grown_insert.
    + split; [by rewrite fmap_cons, Hkeys|].
      intros k c' Hk. apply elem_of_cons in Hk as [[= -> ->]|Hk]; [|by apply Hin].
      destruct (Hg cx) as [E1|[E1 _]]; rewrite lookup_insert_eq in E1; [done|done].
Qed.

Lemma serializeWorldWindow_spec (s : World) :
  exists data m,
    serializeWorldWindow generateChunk LOAD_RADIUS SEED s = Ok data (with_chunks m s)
    /\ grown generateChunk (chunks s) m
    /\ (save_chunks data).*1 = seqZ (playerChunk s - LOAD_RADIUS) (2 * LOAD_RADIUS + 1)
    /\ (forall k c, (k, c) ∈ save_chunks data -> m !! k = Some c)
    /\ save_hotbar data = hotbar s
    /\ save_selectedSlot data = selectedSlot s
    /\ save_seed data = SEED
    /\ saved_x (save_player data) = Player.x (player s)
    /\ saved_y (save_player data) = Player.y (player s)
    /\ saved_health (save_player data) = Player.health (player s)
    /\ saved_hunger (save_player data) = Player.hunger (player s).
Proof.
  unfold serializeWorldWindow. rewrite (M_bind_ok get _ s s s eq_refl).
  fold (playerChunk s). cbv zeta.
  replace (playerChunk s + LOAD_RADIUS - (playerChunk s - LOAD_RADIUS) + 1)
    with (2 * LOAD_RADIUS + 1) by lia.
  destruct (saveChunks_spec (seqZ (playerChunk s - LOAD_RADIUS) (2 * LOAD_RADIUS + 1)) s)
    as (saved & m & E & Hg & Hkeys & Hin).
  rewrite (M_bind_ok _ _ _ _ _ E).
  eexists _, m. split; [reflexivity|]. cbn.
  split; [exact Hg|]. split; [exact Hkeys|]. split; [exact Hin|].
  split; [|done]. induction (hotbar s) as [|[b n] l IH]; [done|]. cbn. by rewrite IH.
Qed.

End SaveFacts.

(** X28: [script.js] cannot load a chunk.  In every state, [getChunk]
    raises the TypeError of [hash2D] for every key that is not resident,
    and so do [getBlock] and [setBlock] for every tile of a chunk that
    is not resident and every row inside the world; and whenever some
    key within [LOAD_RADIUS] of the player's chunk is not resident, as
    at the start, [ensureChunksLoaded] raises it too. *)
Theorem Script_cannot_load_a_chunk (s : World) :
  (forall k, chunks s !! k = None ->
     getChunk Script.generateChunk k s = Throw Js.TypeError)
  /\ (forall tx ty id, 0 <= ty < WORLD_H -> chunks s !! floorDiv tx CHUNK_W = None ->
        getBlock Script.generateChunk tx ty s = Throw Js.TypeError
        /\ setBlock Script.generateChunk tx ty id s = Throw Js.TypeError)
  /\ (forall k, Z.abs (k - playerChunk s) <= Script.LOAD_RADIUS -> chunks s !! k = None ->
        ensureChunksLoaded Script.generateChunk Script.LOAD_RADIUS s = Throw Js.TypeError).
Proof.
  split; [intros k Hnone; by rewrite Script_getChunk, Hnone|]. split.
  - intros tx ty id Hty Hnone. unfold getBlock, setBlock. rewrite row_guard_in by done.
    unfold mbind, M_bind. by rewrite Script_getChunk, Hnone.
  - intros k Hk Hnone.
    unfold ensureChunksLoaded. rewrite (M_bind_ok get _ s s s eq_refl).
    fold (playerChunk s). unfold mbind, M_bind.
    rewrite (Script_loadAll_raises _ k); [reflexivity| |exact Hnone].
    apply elem_of_seqZ. lia.
Qed.

Lemma Script_cannot_load_a_chunk_witness :
  getChunk Script.generateChunk 100 startWorld = Throw Js.TypeError
  /\ getBlock Script.generateChunk 3205 10 startWorld = Throw Js.TypeError
  /\ setBlock Script.generateChunk (-7) 79 BLOCK.DIRT startWorld = Throw Js.TypeError
  /\ ensureChunksLoaded Script.generateChunk Script.LOAD_RADIUS startWorld
     = Throw Js.TypeError.
Proof.
  destruct (Script_cannot_load_a_chunk startWorld) as (H1 & H2 & H3).
  split; [by apply H1|]. split; [|split].
  - apply (H2 3205 10 0); [unfold WORLD_H; lia|reflexivity].
  - apply (H2 (-7) 79 BLOCK.DIRT); [unfold WORLD_H; lia|reflexivity].
  - apply (H3 0); [by vm_compute|reflexivity].
Defined.

(** X29: [serializeWorldWindow] saves the [2 * LOAD_RADIUS + 1] chunks
    around the player's chunk, in the order of their keys; each saved
    chunk is the one the map then holds under its key, edits included;
    the hotbar, the selected slot, the seed and the player's position
    and vitals are saved as they are.  Saving changes no tile. *)
Theorem saved_window (s : World) :
  exists data m,
    serializeWorldWindow Stable.generateChunk Stable.LOAD_RADIUS Stable.SEED s
    = Ok data (with_chunks m s)
    /\ grown Stable.generateChunk (chunks s) m
    /\ (save_chunks data).*1
       = seqZ (playerChunk s - Stable.LOAD_RADIUS) (2 * Stable.LOAD_RADIUS + 1)
    /\ (forall k c, (k, c) ∈ save_chunks data -> m !! k = Some c)
    /\ save_hotbar data = hotbar s
    /\ save_selectedSlot data = selectedSlot s
    /\ save_seed data = Stable.SEED
    /\ saved_x (save_player data) = Player.x (player s)
    /\ saved_y (save_player data) = Player.y (player s)
    /\ saved_health (save_player data) = Player.health (player s)
    /\ saved_hunger (save_player data) = Player.hunger (player s).
Proof.
  exact (serializeWorldWindow_spec Stable.generateChunk Stable.LOAD_RADIUS Stable.SEED
           Stable_generateChunk_total s).
Qed.

(** X30: the first version's [keydown] keeps the cursor on the grid:
    whatever the key and the position before, the position after is a
    cell of the 25 by 18 grid, and from a cell of the grid the cursor
    moves by one cell at most. *)
Theorem First_keydown_stays_on_the_grid (key : string) (playerX playerY : Z) :
  0 <= (First.keydown key playerX playerY).1 < First.worldWidth
  /\ 0 <= (First.keydown key playerX playerY).2 < First.worldHeight
  /\ (0 <= playerX < First.worldWidth -> 0 <= playerY < First.worldHeight ->
      Z.abs ((First.keydown key playerX playerY).1 - playerX)
      + Z.abs ((First.keydown key playerX playerY).2 - playerY) <= 1).
Proof.
  unfold First.keydown, First.worldWidth, First.worldHeight.
  destruct (String.eqb key "ArrowLeft"); [cbn [fst snd]; lia|].
  destruct (String.eqb key "ArrowRight"); [cbn [fst snd]; lia|].
  destruct (String.eqb key "ArrowUp"); [cbn [fst snd]; lia|].
  destruct (String.eqb key "ArrowDown"); cbn [fst snd]; lia.
Qed.
